(** * pyparth todo list (script.js): the task store of [TodoApp]

    A shallow embedding of the state logic of [class TodoApp] in
    [src/script.js]: the [todos] array, the operations that mutate it, the
    edit session opened by [startEdit], and the persistence functions
    [loadTodos], [saveTodos] and [importTodos] together with the platform
    functions they call ([JSON.stringify], [JSON.parse],
    [String.prototype.trim], [Array.prototype.sort], [localStorage]).

    The elements of [todos] are objects of a heap, the array holds their
    addresses, and every operation runs in a state monad with exceptions,
    so that a [TypeError] on a [null] element leaves the state where the
    program leaves it.  The clock, the answer to [confirm] and the storage
    area are inputs.

    DOM rendering, drag geometry and the banner animation are not
    modelled; [render] and [showNotification] appear as entries of an
    effect log.  The text of the counter, the flags of the action buttons,
    the exported file, the keyboard shortcuts and the theme preference are
    modelled beside the store. *)

From Stdlib Require Import ZArith NArith List String Ascii DecimalString Lia Bool Sorted Permutation.
From stdpp Require Import base tactics option list numbers strings.

Local Open Scope N_scope.
Local Open Scope list_scope.

(** ** JavaScript strings

    A JavaScript string is a sequence of 16-bit code units.  A code unit is
    kept as its high and low byte, so that every inhabitant is a code unit
    and every code unit has exactly one inhabitant. *)

Module JS.

Record cu : Type := CU { cu_hi : ascii; cu_lo : ascii }.

#[global] Instance cu_eq_dec : EqDecision cu.
Proof. solve_decision. Defined.

Abbreviation jsstring := (list cu).

Definition ch (a : ascii) : cu := CU "000" a.

(** An ASCII literal as a JavaScript string. *)
Definition str (s : string) : jsstring := map ch (list_ascii_of_string s).
Arguments str s%_string.

Definition cu_code (c : cu) : N := 256 * N_of_ascii (cu_hi c) + N_of_ascii (cu_lo c).

Definition cu_of_code (n : N) : cu := CU (ascii_of_N (n / 256)) (ascii_of_N (n mod 256)).

Definition cu_eqb (a b : cu) : bool :=
  Ascii.eqb (cu_hi a) (cu_hi b) && Ascii.eqb (cu_lo a) (cu_lo b).

(** [a === b] on two strings. *)
Definition str_eqb (a b : jsstring) : bool := bool_decide (a = b).

Definition dquote : cu := ch "034".
Definition backslash : cu := ch "\".

(** WhiteSpace and LineTerminator code points, the ones that
    [String.prototype.trim] strips. *)
Definition is_js_space (c : cu) : bool :=
  let n := cu_code c in
  existsb (N.eqb n)
    [9; 10; 11; 12; 13; 32; 160; 5760; 8232; 8233; 8239; 8287; 12288; 65279]
  || ((8192 <=? n) && (n <=? 8202)).

Fixpoint trim_start (s : jsstring) : jsstring :=
  match s with
  | c :: r => if is_js_space c then trim_start r else s
  | [] => []
  end.

(** [s.trim()] *)
Definition trim (s : jsstring) : jsstring :=
  rev (trim_start (rev (trim_start s))).

(** [n.toString()] for an integral Number below 10^21 in magnitude, which
    is where every time value and every count lies: the decimal numeral. *)
Definition N_to_str (n : N) : jsstring :=
  str (NilZero.string_of_uint (N.to_uint n)).

Definition Z_to_str (z : Z) : jsstring :=
  str (NilZero.string_of_int (Z.to_int z)).

End JS.
Export JS.

(** ** JSON values, [JSON.stringify] and [JSON.parse] *)

Module Json.

(** A value that [JSON.parse] can build.  A number keeps the numeral it was
    read from: the conversion to an IEEE-754 double is not modelled, and no
    statement below looks inside a number.  An object is the list of its own
    properties in property order. *)
#[warnings="-register-all"] Inductive value : Type :=
| VNull
| VBool (b : bool)
| VNum (lit : jsstring)
| VStr (s : jsstring)
| VArr (items : list value)
| VObj (props : list (jsstring * value)).

(** *** Property order of ordinary objects *)

Definition is_digit (c : cu) : bool :=
  let n := cu_code c in (48 <=? n) && (n <=? 57).

Definition digit_val (c : cu) : N := cu_code c - 48.

(** The array index a property key denotes, if it is a canonical numeric
    string below 2^32 - 1. *)
Definition array_index (k : jsstring) : option N :=
  match k with
  | [] => None
  | c :: r =>
      if forallb is_digit k && (negb (cu_eqb c (ch "0")) || bool_decide (r = []))
         && (length k <=? 10)%nat
      then
        let n := fold_left (fun acc d => 10 * acc + digit_val d) k 0 in
        if n <=? 4294967294 then Some n else None
      else None
  end.

Fixpoint insert_index (n : N) (kv : jsstring * value)
    (o : list (jsstring * value)) : list (jsstring * value) :=
  match o with
  | [] => [kv]
  | p :: r =>
      match array_index (fst p) with
      | Some m => if m <? n then p :: insert_index n kv r else kv :: o
      | None => kv :: o
      end
  end.

Definition has_key (k : jsstring) (o : list (jsstring * value)) : bool :=
  existsb (fun p => str_eqb (fst p) k) o.

(** Writing an own data property: an existing key keeps its place, a new
    array-index key goes among the index keys in ascending order, any other
    new key goes last.  This is what both [CreateDataProperty] (used by
    [JSON.parse]) and the assignment [o.k = v] do on these objects. *)
Definition obj_put (k : jsstring) (v : value)
    (o : list (jsstring * value)) : list (jsstring * value) :=
  if has_key k o then
    map (fun p => if str_eqb (fst p) k then (k, v) else p) o
  else
    match array_index k with
    | Some n => insert_index n (k, v) o
    | None => o ++ [(k, v)]
    end.

(** Reading an own property; [None] is [undefined]. *)
Fixpoint obj_get (k : jsstring) (o : list (jsstring * value)) : option value :=
  match o with
  | [] => None
  | p :: r => if str_eqb (fst p) k then Some (snd p) else obj_get k r
  end.

(** *** QuoteJSONString *)

Definition is_control (c : cu) : bool := cu_code c <? 32.

Definition is_lead (c : cu) : bool :=
  let h := N_of_ascii (cu_hi c) in (216 <=? h) && (h <=? 219).

Definition is_trail (c : cu) : bool :=
  let h := N_of_ascii (cu_hi c) in (220 <=? h) && (h <=? 223).

Definition hex_digit (n : N) : cu :=
  if n <? 10 then cu_of_code (48 + n) else cu_of_code (87 + n).

Definition hex2 (a : ascii) : jsstring :=
  let n := N_of_ascii a in [hex_digit (n / 16); hex_digit (n mod 16)].

(** [\uXXXX] with lower-case digits. *)
Definition uescape (c : cu) : jsstring :=
  backslash :: ch "u" :: hex2 (cu_hi c) ++ hex2 (cu_lo c).

Definition quote_unit (c : cu) : jsstring :=
  let n := cu_code c in
  if n =? 8 then [backslash; ch "b"]
  else if n =? 9 then [backslash; ch "t"]
  else if n =? 10 then [backslash; ch "n"]
  else if n =? 12 then [backslash; ch "f"]
  else if n =? 13 then [backslash; ch "r"]
  else if n =? 34 then [backslash; dquote]
  else if n =? 92 then [backslash; backslash]
  else if is_control c || is_lead c || is_trail c then uescape c
  else [c].

(** The characters between the quotes.  A lead surrogate followed by a
    trail surrogate is one code point and is copied; a lone surrogate is
    escaped. *)
Fixpoint quote_body (s : jsstring) : jsstring :=
  match s with
  | [] => []
  | c :: r =>
      if is_lead c then
        match r with
        | d :: r' =>
            if is_trail d then c :: d :: quote_body r'
            else uescape c ++ quote_body r
        | [] => uescape c
        end
      else quote_unit c ++ quote_body r
  end.

Definition quote (s : jsstring) : jsstring :=
  dquote :: quote_body s ++ [dquote].

(** *** [JSON.stringify(v)] without indentation *)

Fixpoint join_with (sep : jsstring) (parts : list jsstring) : jsstring :=
  match parts with
  | [] => []
  | [p] => p
  | p :: rest => p ++ sep ++ join_with sep rest
  end.

Fixpoint stringify (v : value) : jsstring :=
  match v with
  | VNull => str "null"
  | VBool true => str "true"
  | VBool false => str "false"
  | VNum lit => lit
  | VStr s => quote s
  | VArr items => str "[" ++ join_with (str ",") (map stringify items) ++ str "]"
  | VObj props =>
      str "{"
      ++ join_with (str ",")
           (map (fun p => quote (fst p) ++ str ":" ++ stringify (snd p)) props)
      ++ str "}"
  end.

(** *** [JSON.parse]

    A recursive-descent reading of the JSON grammar of ECMA-404, which is
    the grammar [JSON.parse] accepts.  White space is TAB, LF, CR and
    SPACE. *)

Inductive presult (A : Type) : Type :=
| POk (a : A) (rest : jsstring)
| PErr
| PFuel.
Arguments POk {A} a rest.
Arguments PErr {A}.
Arguments PFuel {A}.

Definition is_json_ws (c : cu) : bool :=
  let n := cu_code c in (n =? 9) || (n =? 10) || (n =? 13) || (n =? 32).

Fixpoint skip_ws (s : jsstring) : jsstring :=
  match s with
  | c :: r => if is_json_ws c then skip_ws r else s
  | [] => []
  end.

Definition hex_val (c : cu) : option N :=
  let n := cu_code c in
  if (48 <=? n) && (n <=? 57) then Some (n - 48)
  else if (97 <=? n) && (n <=? 102) then Some (n - 87)
  else if (65 <=? n) && (n <=? 70) then Some (n - 55)
  else None.

Definition hex_byte (a b : cu) : option ascii :=
  match hex_val a, hex_val b with
  | Some x, Some y => Some (ascii_of_N (16 * x + y))
  | _, _ => None
  end.

Definition simple_escape (e : cu) : option cu :=
  let n := cu_code e in
  if n =? 34 then Some dquote
  else if n =? 92 then Some backslash
  else if n =? 47 then Some (ch "/")
  else if n =? 98 then Some (cu_of_code 8)
  else if n =? 102 then Some (cu_of_code 12)
  else if n =? 110 then Some (cu_of_code 10)
  else if n =? 114 then Some (cu_of_code 13)
  else if n =? 116 then Some (cu_of_code 9)
  else None.

Definition cons_result (c : cu) (r : option (jsstring * jsstring))
    : option (jsstring * jsstring) :=
  match r with
  | Some (s, rest) => Some (c :: s, rest)
  | None => None
  end.

(** The rest of a string literal after its opening quote: the decoded
    string and the input after the closing quote. *)
Fixpoint parse_string_body (s : jsstring) : option (jsstring * jsstring) :=
  match s with
  | [] => None
  | c :: r =>
      if cu_eqb c dquote then Some ([], r)
      else if cu_eqb c backslash then
        match r with
        | [] => None
        | e :: r1 =>
            if cu_eqb e (ch "u") then
              match r1 with
              | h1 :: h2 :: h3 :: h4 :: r2 =>
                  match hex_byte h1 h2, hex_byte h3 h4 with
                  | Some hi, Some lo => cons_result (CU hi lo) (parse_string_body r2)
                  | _, _ => None
                  end
              | _ => None
              end
            else
              match simple_escape e with
              | Some u => cons_result u (parse_string_body r1)
              | None => None
              end
        end
      else if is_control c then None
      else cons_result c (parse_string_body r)
  end.

Fixpoint span_digits (s : jsstring) : jsstring * jsstring :=
  match s with
  | c :: r =>
      if is_digit c then let (d, r') := span_digits r in (c :: d, r')
      else ([], s)
  | [] => ([], [])
  end.

Definition number_int (s : jsstring) : option (jsstring * jsstring) :=
  match s with
  | c :: r =>
      if cu_eqb c (ch "0") then Some ([c], r)
      else if is_digit c then let (d, r') := span_digits r in Some (c :: d, r')
      else None
  | [] => None
  end.

Definition number_frac (s : jsstring) : option (jsstring * jsstring) :=
  match s with
  | c :: r =>
      if cu_eqb c (ch ".") then
        match span_digits r with
        | ([], _) => None
        | (d, r') => Some (c :: d, r')
        end
      else Some ([], s)
  | [] => Some ([], s)
  end.

Definition number_exp (s : jsstring) : option (jsstring * jsstring) :=
  match s with
  | c :: r =>
      if cu_eqb c (ch "e") || cu_eqb c (ch "E") then
        let (sign, r1) :=
          match r with
          | g :: r' =>
              if cu_eqb g (ch "+") || cu_eqb g (ch "-") then ([g], r') else ([], r)
          | [] => ([], r)
          end in
        match span_digits r1 with
        | ([], _) => None
        | (d, r2) => Some (c :: sign ++ d, r2)
        end
      else Some ([], s)
  | [] => Some ([], s)
  end.

(** A number token: the numeral and the input after it. *)
Definition parse_number (s : jsstring) : option (jsstring * jsstring) :=
  let (sign, s1) :=
    match s with
    | c :: r => if cu_eqb c (ch "-") then ([c], r) else ([], s)
    | [] => ([], s)
    end in
  match number_int s1 with
  | None => None
  | Some (i, s2) =>
      match number_frac s2 with
      | None => None
      | Some (f, s3) =>
          match number_exp s3 with
          | None => None
          | Some (e, s4) => Some (sign ++ i ++ f ++ e, s4)
          end
      end
  end.

Fixpoint match_literal (p s : jsstring) : option jsstring :=
  match p, s with
  | [], _ => Some s
  | a :: p', b :: s' => if cu_eqb a b then match_literal p' s' else None
  | _ :: _, [] => None
  end.

(** The object that a member list builds, members defined left to right. *)
Definition build_object (ms : list (jsstring * value)) : value :=
  VObj (fold_left (fun o p => obj_put (fst p) (snd p) o) ms []).

(** [parse_value] expects its input to start at the value; [parse_elements]
    and [parse_members] read up to and including the closing bracket. *)
Fixpoint parse_value (fuel : nat) (s : jsstring) : presult value :=
  match fuel with
  | O => PFuel
  | S f =>
      match s with
      | [] => PErr
      | c :: r =>
          if cu_eqb c (ch "{") then
            match skip_ws r with
            | d :: r' =>
                if cu_eqb d (ch "}") then POk (VObj []) r'
                else
                  match parse_members f (d :: r') with
                  | POk ms rest => POk (build_object ms) rest
                  | PErr => PErr
                  | PFuel => PFuel
                  end
            | [] => PErr
            end
          else if cu_eqb c (ch "[") then
            match skip_ws r with
            | d :: r' =>
                if cu_eqb d (ch "]") then POk (VArr []) r'
                else
                  match parse_elements f (d :: r') with
                  | POk vs rest => POk (VArr vs) rest
                  | PErr => PErr
                  | PFuel => PFuel
                  end
            | [] => PErr
            end
          else if cu_eqb c dquote then
            match parse_string_body r with
            | Some (t, rest) => POk (VStr t) rest
            | None => PErr
            end
          else if cu_eqb c (ch "t") then
            match match_literal (str "rue") r with
            | Some rest => POk (VBool true) rest
            | None => PErr
            end
          else if cu_eqb c (ch "f") then
            match match_literal (str "alse") r with
            | Some rest => POk (VBool false) rest
            | None => PErr
            end
          else if cu_eqb c (ch "n") then
            match match_literal (str "ull") r with
            | Some rest => POk VNull rest
            | None => PErr
            end
          else
            match parse_number s with
            | Some (lit, rest) => POk (VNum lit) rest
            | None => PErr
            end
      end
  end
with parse_elements (fuel : nat) (s : jsstring) : presult (list value) :=
  match fuel with
  | O => PFuel
  | S f =>
      match parse_value f s with
      | POk v r =>
          match skip_ws r with
          | d :: r' =>
              if cu_eqb d (ch ",") then
                match parse_elements f (skip_ws r') with
                | POk vs rest => POk (v :: vs) rest
                | PErr => PErr
                | PFuel => PFuel
                end
              else if cu_eqb d (ch "]") then POk [v] r'
              else PErr
          | [] => PErr
          end
      | PErr => PErr
      | PFuel => PFuel
      end
  end
with parse_members (fuel : nat) (s : jsstring) : presult (list (jsstring * value)) :=
  match fuel with
  | O => PFuel
  | S f =>
      match s with
      | q :: r0 =>
          if cu_eqb q dquote then
            match parse_string_body r0 with
            | Some (k, r1) =>
                match skip_ws r1 with
                | col :: r2 =>
                    if cu_eqb col (ch ":") then
                      match parse_value f (skip_ws r2) with
                      | POk v r3 =>
                          match skip_ws r3 with
                          | d :: r4 =>
                              if cu_eqb d (ch ",") then
                                match parse_members f (skip_ws r4) with
                                | POk ms rest => POk ((k, v) :: ms) rest
                                | PErr => PErr
                                | PFuel => PFuel
                                end
                              else if cu_eqb d (ch "}") then POk [(k, v)] r4
                              else PErr
                          | [] => PErr
                          end
                      | PErr => PErr
                      | PFuel => PFuel
                      end
                    else PErr
                | [] => PErr
                end
            | None => PErr
            end
          else PErr
      | [] => PErr
      end
  end.

(** [JSON.parse(text)]; [None] is a thrown [SyntaxError].  The fuel is
    never used up (lemma [parse_value_fuel] below). *)
Definition JSON_parse (text : jsstring) : option value :=
  match parse_value (2 * length text + 1) (skip_ws text) with
  | POk v rest =>
      match skip_ws rest with
      | [] => Some v
      | _ :: _ => None
      end
  | PErr => None
  | PFuel => None
  end.

End Json.
Export Json.

(** ** The application state *)

Module Store.

Inductive exn : Type :=
| TypeError
| SyntaxError
| QuotaExceededError
| InvalidFileFormat.

Inductive completion (A : Type) : Type :=
| Normal (a : A)
| Throw (e : exn).
Arguments Normal {A} a.
Arguments Throw {A} e.

Inductive severity : Type := success | info | warning | error.

(** What the collaborators of the store see. *)
Inductive event : Type :=
| EvSetItem (text : jsstring)
| EvConsoleError (msg : jsstring)
| EvNotify (msg : jsstring) (sev : severity)
| EvConfirm (msg : jsstring) (answer : bool)
| EvRender.

(** [localStorage], reduced to the slot ['todos'].  A storage area may
    have a capacity; [setItem] beyond it throws. *)
Record Storage : Type := MkStorage {
  todos_slot : option jsstring;
  capacity : option nat
}.

Definition getItem (st : Storage) : option jsstring := todos_slot st.

Definition setItem (text : jsstring) (st : Storage) : completion Storage :=
  match capacity st with
  | Some c =>
      if (length text <=? c)%nat
      then Normal (MkStorage (Some text) (capacity st))
      else Throw QuotaExceededError
  | None => Normal (MkStorage (Some text) (capacity st))
  end.

(** An element of the [todos] array lives in the heap, so that the closure
    of [startEdit] and the array refer to one object.  [cell_extra] holds
    the named properties that an assignment attaches to an element that is
    an array ([markAllComplete] can do that after an import); it stays empty
    on every other element, and [JSON.stringify] does not see it. *)
Record cell : Type := Cell {
  cell_val : value;
  cell_extra : list (jsstring * value)
}.

Record App : Type := MkApp {
  heap : list cell;
  todos : list nat;
  currentFilter : jsstring;
  editingId : option jsstring;
  storage : Storage;
  log : list event
}.

Definition set_heap (h : list cell) (a : App) : App :=
  MkApp h (todos a) (currentFilter a) (editingId a) (storage a) (log a).
Definition set_todos (l : list nat) (a : App) : App :=
  MkApp (heap a) l (currentFilter a) (editingId a) (storage a) (log a).
Definition set_currentFilter (f : jsstring) (a : App) : App :=
  MkApp (heap a) (todos a) f (editingId a) (storage a) (log a).
Definition set_editingId (e : option jsstring) (a : App) : App :=
  MkApp (heap a) (todos a) (currentFilter a) e (storage a) (log a).
Definition set_storage (s : Storage) (a : App) : App :=
  MkApp (heap a) (todos a) (currentFilter a) (editingId a) s (log a).
Definition emit (e : event) (a : App) : App :=
  MkApp (heap a) (todos a) (currentFilter a) (editingId a) (storage a) (log a ++ [e]).

Definition deref (h : list cell) (a : nat) : cell :=
  default (Cell VNull []) (h !! a).

(** The array [this.todos] as values. *)
Definition view (a : App) : list value :=
  map (fun x => cell_val (deref (heap a) x)) (todos a).

(** *** State and exceptions *)

Definition M (A : Type) : Type := App -> App * completion A.

Definition ret {A} (x : A) : M A := fun s => (s, Normal x).
Definition bind {A B} (m : M A) (k : A -> M B) : M B :=
  fun s =>
    match m s with
    | (s', Normal x) => k x s'
    | (s', Throw e) => (s', Throw e)
    end.
Definition throw {A} (e : exn) : M A := fun s => (s, Throw e).
Definition lift {A} (c : completion A) : M A := fun s => (s, c).
Definition gets {A} (f : App -> A) : M A := fun s => (s, Normal (f s)).
Definition modify (f : App -> App) : M unit := fun s => (f s, Normal tt).
Definition try_catch {A} (m : M A) (handler : exn -> M A) : M A :=
  fun s =>
    match m s with
    | (s', Normal x) => (s', Normal x)
    | (s', Throw e) => handler e s'
    end.

Notation "'do' x <- m ; k" := (bind m (fun x => k))
  (at level 10, x name, m at level 100, k at level 200).
Notation "m ;; k" := (bind m (fun _ => k))
  (at level 100, k at level 200, right associativity).

(** *** Reading properties of an element

    The program reads and writes only [id], [text] and [completed].  None
    of them exists on a number, a boolean or a string; reading from [null]
    throws. *)

Definition get_prop (k : jsstring) (c : cell) : completion (option value) :=
  match cell_val c with
  | VNull => Throw TypeError
  | VObj ps => Normal (obj_get k ps)
  | VArr _ => Normal (obj_get k (cell_extra c))
  | _ => Normal None
  end.

(** A numeral denotes zero when its digits before the exponent are all 0. *)
Fixpoint all_zero_numeral (lit : jsstring) : bool :=
  match lit with
  | [] => true
  | c :: r =>
      if cu_eqb c (ch "e") || cu_eqb c (ch "E") then true
      else (cu_eqb c (ch "0") || cu_eqb c (ch "-") || cu_eqb c (ch "."))
           && all_zero_numeral r
  end.

(** ToBoolean; [None] is [undefined]. *)
Definition truthy (v : option value) : bool :=
  match v with
  | None => false
  | Some VNull => false
  | Some (VBool b) => b
  | Some (VNum lit) => negb (all_zero_numeral lit)
  | Some (VStr s) => negb (bool_decide (s = []))
  | Some (VArr _) => true
  | Some (VObj _) => true
  end.

(** [x === id] for a string [id]. *)
Definition is_str (id : jsstring) (x : option value) : bool :=
  match x with
  | Some (VStr s) => str_eqb s id
  | _ => false
  end.

(** [o.k = v] in strict code (a class body is strict): assigning to a
    property of a primitive throws. *)
Definition set_prop (k : jsstring) (v : value) (c : cell) : completion cell :=
  match cell_val c with
  | VObj ps => Normal (Cell (VObj (obj_put k v ps)) (cell_extra c))
  | VArr items => Normal (Cell (VArr items) (obj_put k v (cell_extra c)))
  | _ => Throw TypeError
  end.

(** *** Array traversals with a callback that may throw *)

Fixpoint findM (p : cell -> completion bool) (h : list cell) (l : list nat)
    : completion (option nat) :=
  match l with
  | [] => Normal None
  | x :: r =>
      match p (deref h x) with
      | Normal true => Normal (Some x)
      | Normal false => findM p h r
      | Throw e => Throw e
      end
  end.

Fixpoint filterM (p : cell -> completion bool) (h : list cell) (l : list nat)
    : completion (list nat) :=
  match l with
  | [] => Normal []
  | x :: r =>
      match p (deref h x) with
      | Normal b =>
          match filterM p h r with
          | Normal r' => Normal (if b then x :: r' else r')
          | Throw e => Throw e
          end
      | Throw e => Throw e
      end
  end.

Fixpoint forEachM (f : nat -> M unit) (l : list nat) : M unit :=
  match l with
  | [] => ret tt
  | x :: r => f x ;; forEachM f r
  end.

(** [t => t.id === id] *)
Definition has_id (id : jsstring) (c : cell) : completion bool :=
  match get_prop (str "id") c with
  | Normal x => Normal (is_str id x)
  | Throw e => Throw e
  end.

(** [t => t.id !== id] *)
Definition has_other_id (id : jsstring) (c : cell) : completion bool :=
  match get_prop (str "id") c with
  | Normal x => Normal (negb (is_str id x))
  | Throw e => Throw e
  end.

(** [t => t.completed] *)
Definition is_completed (c : cell) : completion bool :=
  match get_prop (str "completed") c with
  | Normal x => Normal (truthy x)
  | Throw e => Throw e
  end.

(** [t => !t.completed] *)
Definition is_active (c : cell) : completion bool :=
  match get_prop (str "completed") c with
  | Normal x => Normal (negb (truthy x))
  | Throw e => Throw e
  end.

(** *** Collaborators *)

Definition showNotification (msg : jsstring) (sev : severity) : M unit :=
  modify (emit (EvNotify msg sev)).

Definition console_error (msg : jsstring) : M unit :=
  modify (emit (EvConsoleError msg)).

Definition getFilteredTodos : M (list nat) :=
  do a <- gets (fun a => a);
  if str_eqb (currentFilter a) (str "active")
  then lift (filterM is_active (heap a) (todos a))
  else if str_eqb (currentFilter a) (str "completed")
  then lift (filterM is_completed (heap a) (todos a))
  else ret (todos a).

(** [createTodoElement(todo)] reads [todo.completed], [todo.id] and
    [todo.text]; the element it builds is not modelled. *)
Definition createTodoElement (h : list cell) (x : nat) : M unit :=
  lift (get_prop (str "completed") (deref h x)) ;;
  lift (get_prop (str "id") (deref h x)) ;;
  lift (get_prop (str "text") (deref h x)) ;;
  ret tt.

(** [render()]: the list items, then [updateStats] and
    [updateActionButtons].  What reaches the log is that it completed. *)
Definition render : M unit :=
  do filtered <- getFilteredTodos;
  do a <- gets (fun a => a);
  forEachM (createTodoElement (heap a)) filtered ;;
  lift (filterM is_active (heap a) (todos a)) ;;
  modify (emit EvRender).

(** *** Persistence *)

(** [loadTodos()], with what it writes to the console. *)
Definition loadTodos (st : Storage) : value * list event :=
  let attempt : completion value :=
    match getItem st with
    | Some (c :: r) =>
        match JSON_parse (c :: r) with
        | Some v => Normal v
        | None => Throw SyntaxError
        end
    | Some [] => Normal (VArr [])
    | None => Normal (VArr [])
    end in
  match attempt with
  | Normal v => (v, [])
  | Throw _ => (VArr [], [EvConsoleError (str "Error loading todos:")])
  end.

(** [saveTodos()] *)
Definition saveTodos : M unit :=
  try_catch
    (do a <- gets (fun a => a);
     let text := stringify (VArr (view a)) in
     do st <- lift (setItem text (storage a));
     modify (set_storage st) ;;
     modify (emit (EvSetItem text)))
    (fun _ =>
       console_error (str "Error saving todos:") ;;
       showNotification (str "Error saving tasks!") error).

(** [this.todos = items], the items being fresh objects. *)
Definition assign_todos (items : list value) : M unit :=
  modify (fun a =>
    set_todos (seq (length (heap a)) (length items))
      (set_heap (heap a ++ map (fun v => Cell v []) items) a)).

(** The [onload] callback of [importTodos(file)], [raw] being the text of
    the file. *)
Definition importTodos (raw : jsstring) : M unit :=
  try_catch
    (do imported <- lift (match JSON_parse raw with
                          | Some v => Normal v
                          | None => Throw SyntaxError
                          end);
     match imported with
     | VArr items =>
         assign_todos items ;;
         saveTodos ;;
         render ;;
         showNotification (str "Todos imported successfully!") success
     | _ => throw InvalidFileFormat
     end)
    (fun _ => showNotification (str "Error importing todos!") error).

(** [new TodoApp()].  When [loadTodos] returns something that is not an
    array, or an array with a [null] in it, [render] throws out of the
    constructor and [window.app] is never assigned: [None]. *)
Definition construct (st : Storage) : option App :=
  match loadTodos st with
  | (VArr items, evs) =>
      match render (MkApp (map (fun v => Cell v []) items)
                      (seq 0 (length items)) (str "all") None st evs) with
      | (a, Normal _) => Some a
      | (_, Throw _) => None
      end
  | _ => None
  end.

(** *** Mutations *)

(** The object literal of [addTodo]; [now] is what [Date.now()] returns
    and [iso] what [new Date().toISOString()] returns. *)
Definition new_todo (text : jsstring) (now : Z) (iso : jsstring) : value :=
  VObj [ (str "id", VStr (Z_to_str now));
         (str "text", VStr text);
         (str "completed", VBool false);
         (str "createdAt", VStr iso) ].

(** [this.todos.unshift(todo)] with a fresh object. *)
Definition unshift (v : value) : M unit :=
  modify (fun a =>
    set_todos (length (heap a) :: todos a) (set_heap (heap a ++ [Cell v []]) a)).

Definition addTodo (text : jsstring) (now : Z) (iso : jsstring) : M unit :=
  unshift (new_todo text now iso) ;;
  saveTodos ;;
  render ;;
  showNotification (str "Task added successfully!") success.

(** [handleSubmit(e)], [input] being [this.todoInput.value]; clearing and
    focusing the input afterwards is left to the document. *)
Definition handleSubmit (input : jsstring) (now : Z) (iso : jsstring) : M unit :=
  let text := trim input in
  if negb (bool_decide (text = [])) then addTodo text now iso else ret tt.

Definition toggleTodo (id : jsstring) : M unit :=
  do a <- gets (fun a => a);
  do found <- lift (findM (has_id id) (heap a) (todos a));
  match found with
  | Some x =>
      let todo := deref (heap a) x in
      if truthy (Some (cell_val todo)) then
        do old <- lift (get_prop (str "completed") todo);
        do todo' <- lift (set_prop (str "completed") (VBool (negb (truthy old))) todo);
        modify (set_heap (<[x := todo']> (heap a))) ;;
        saveTodos ;;
        render ;;
        if negb (truthy old)
        then showNotification (str "Task completed!") success
        else showNotification (str "Task marked as active!") info
      else ret tt
  | None => ret tt
  end.

(** The callback that [deleteTodo(id)] schedules when an element with that
    [data-id] is displayed. *)
Definition deleteTodo (id : jsstring) : M unit :=
  do a <- gets (fun a => a);
  do kept <- lift (filterM (has_other_id id) (heap a) (todos a));
  modify (set_todos kept) ;;
  saveTodos ;;
  render ;;
  showNotification (str "Task deleted!") info.

Definition cancelEdit : M unit :=
  modify (set_editingId None) ;; render.

(** [startEdit(id)] up to the point where its closures exist; the result is
    the object that the closures hold as [todo].  The input element and the
    lookups in the document are not modelled. *)
Definition startEdit (id : jsstring) : M nat :=
  do e <- gets editingId;
  (if truthy (option_map VStr e) then cancelEdit else ret tt) ;;
  modify (set_editingId (Some id)) ;;
  do a <- gets (fun a => a);
  do found <- lift (findM (has_id id) (heap a) (todos a));
  match found with
  | Some x => lift (get_prop (str "text") (deref (heap a) x)) ;; ret x
  | None => throw TypeError
  end.

(** The closure [finishEdit] of [startEdit]; [todo] is the object it holds
    and [input] is [input.value]. *)
Definition finishEdit (todo : nat) (input : jsstring) : M unit :=
  let newText := trim input in
  do a <- gets (fun a => a);
  do changed <-
    (if negb (bool_decide (newText = [])) then
       do cur <- lift (get_prop (str "text") (deref (heap a) todo));
       ret (negb (is_str newText cur))
     else ret false);
  (if changed then
     do todo' <- lift (set_prop (str "text") (VStr newText) (deref (heap a) todo));
     modify (set_heap (<[todo := todo']> (heap a))) ;;
     saveTodos ;;
     showNotification (str "Task updated!") success
   else ret tt) ;;
  modify (set_editingId None) ;;
  render.

Definition setFilter (filter : jsstring) : M unit :=
  modify (set_currentFilter filter) ;; render.

(** [clearCompleted()], [answer] being what [confirm] returns if asked. *)
Definition clearCompleted (answer : bool) : M unit :=
  do a <- gets (fun a => a);
  do completed <- lift (filterM is_completed (heap a) (todos a));
  let completedCount := N_to_str (N.of_nat (length completed)) in
  if (length completed =? 0)%nat then ret tt
  else
    modify (emit (EvConfirm
      (str "Are you sure you want to delete " ++ completedCount
       ++ str " completed task(s)?") answer)) ;;
    if answer then
      do kept <- lift (filterM is_active (heap a) (todos a));
      modify (set_todos kept) ;;
      saveTodos ;;
      render ;;
      showNotification (completedCount ++ str " completed task(s) deleted!") info
    else ret tt.

Definition complete_one (x : nat) : M unit :=
  do a <- gets (fun a => a);
  do todo' <- lift (set_prop (str "completed") (VBool true) (deref (heap a) x));
  modify (set_heap (<[x := todo']> (heap a))).

Definition markAllComplete : M unit :=
  do a <- gets (fun a => a);
  do incomplete <- lift (filterM is_active (heap a) (todos a));
  if (length incomplete =? 0)%nat then ret tt
  else
    forEachM complete_one (todos a) ;;
    saveTodos ;;
    render ;;
    showNotification (str "All tasks marked as complete!") success.

(** *** Reordering

    [newOrder.indexOf(x)] for an array of strings. *)
Fixpoint index_from (i : Z) (s : jsstring) (l : list jsstring) : Z :=
  match l with
  | [] => (-1)%Z
  | t :: r => if str_eqb t s then i else index_from (i + 1)%Z s r
  end.

Definition indexOf (newOrder : list jsstring) (x : option value) : Z :=
  match x with
  | Some (VStr s) => index_from 0%Z s newOrder
  | _ => (-1)%Z
  end.

(** [(a, b) => newOrder.indexOf(a.id) - newOrder.indexOf(b.id)] *)
Definition compare_order (newOrder : list jsstring) (h : list cell) (a b : nat)
    : completion Z :=
  match get_prop (str "id") (deref h a) with
  | Normal ia =>
      match get_prop (str "id") (deref h b) with
      | Normal ib => Normal (indexOf newOrder ia - indexOf newOrder ib)%Z
      | Throw e => Throw e
      end
  | Throw e => Throw e
  end.

(** [Array.prototype.sort] is stable, and with a comparator that orders by
    a key its result does not depend on the algorithm; insertion sort
    stands for it.  When a call of the comparator throws, the array is left
    as it was and the exception propagates. *)
Fixpoint insertM {A} (cmp : A -> A -> completion Z) (x : A) (l : list A)
    : completion (list A) :=
  match l with
  | [] => Normal [x]
  | y :: r =>
      match cmp x y with
      | Normal z =>
          if (z <=? 0)%Z then Normal (x :: y :: r)
          else
            match insertM cmp x r with
            | Normal r' => Normal (y :: r')
            | Throw e => Throw e
            end
      | Throw e => Throw e
      end
  end.

Fixpoint sortM {A} (cmp : A -> A -> completion Z) (l : list A)
    : completion (list A) :=
  match l with
  | [] => Normal []
  | x :: r =>
      match sortM cmp r with
      | Normal s => insertM cmp x s
      | Throw e => Throw e
      end
  end.

(** [handleDrop(e)], [newOrder] being the [data-id]s of the list items in
    their order in the document. *)
Definition handleDrop (newOrder : list jsstring) : M unit :=
  do a <- gets (fun a => a);
  do sorted <- lift (sortM (compare_order newOrder (heap a)) (todos a));
  modify (set_todos sorted) ;;
  saveTodos ;;
  showNotification (str "Tasks reordered!") info.

(** ** The data model of the specification *)

(** A task as [addTodo] builds it and as the snapshot encodes it. *)
Record Task : Type := MkTask {
  task_id : jsstring;
  task_text : jsstring;
  task_completed : bool;
  task_createdAt : jsstring
}.

Definition task_obj (t : Task) : value :=
  VObj [ (str "id", VStr (task_id t));
         (str "text", VStr (task_text t));
         (str "completed", VBool (task_completed t));
         (str "createdAt", VStr (task_createdAt t)) ].

Definition toggled (t : Task) : Task :=
  MkTask (task_id t) (task_text t) (negb (task_completed t)) (task_createdAt t).

(** The elements of the array are distinct objects of the heap. *)
Definition wf (a : App) : Prop :=
  NoDup (todos a) /\ Forall (fun x => (x < length (heap a))%nat) (todos a).

(** What [t.id] evaluates to on each element of the array, in order. *)
Definition ids (a : App) : list (completion (option value)) :=
  map (fun x => get_prop (str "id") (deref (heap a) x)) (todos a).

Definition unique_ids (a : App) : Prop := NoDup (ids a).

(** [value_id v] is [v.id] for an element that was just parsed. *)
Definition value_id (v : value) : completion (option value) :=
  get_prop (str "id") (Cell v []).

(** The index of a task's id in [newOrder], or -1. *)
Definition position (newOrder : list jsstring) (t : Task) : Z :=
  index_from 0%Z (task_id t) newOrder.

(** The first position at which [ts] holds a task with this id: the task
    that [find(t => t.id === id)] returns. *)
Definition first_with (id : jsstring) (ts : list Task) (i : nat) (t : Task) : Prop :=
  ts !! i = Some t /\ task_id t = id
  /\ forall j u, (j < i)%nat -> ts !! j = Some u -> task_id u <> id.

(** The sort key of an element: the index of its id in [newOrder]. *)
Definition order_key (newOrder : list jsstring) (v : value) : Z :=
  match value_id v with
  | Normal x => indexOf newOrder x
  | Throw _ => (-1)%Z
  end.

(** [a'] holds elements of [a], possibly fewer and in another order, each
    with the id it had. *)
Definition keeps_elements (a a' : App) : Prop :=
  todos a' ⊆+ todos a
  /\ length (heap a') = length (heap a)
  /\ forall y, get_prop (str "id") (deref (heap a') y) = get_prop (str "id") (deref (heap a) y).

(** The text of a task between the braces, followed by [rest]. *)
Definition task_members (t : Task) (rest : jsstring) : jsstring :=
  quote (str "id") ++ ch ":" :: quote (task_id t) ++ ch "," ::
  quote (str "text") ++ ch ":" :: quote (task_text t) ++ ch "," ::
  quote (str "completed") ++ ch ":" :: stringify (VBool (task_completed t)) ++ ch "," ::
  quote (str "createdAt") ++ ch ":" :: quote (task_createdAt t) ++ ch "}" :: rest.

(** The state [saveTodos] leaves. *)
Definition saved (a : App) : App :=
  let text := stringify (VArr (view a)) in
  match setItem text (storage a) with
  | Normal st => emit (EvSetItem text) (set_storage st a)
  | Throw _ =>
      emit (EvNotify (str "Error saving tasks!") error)
        (emit (EvConsoleError (str "Error saving todos:")) a)
  end.

(** Stable insertion sort by an integer key, the pure counterpart of
    [sortM] for a comparator that does not throw. *)
Fixpoint insert_by {A} (key : A -> Z) (x : A) (l : list A) : list A :=
  match l with
  | [] => [x]
  | y :: r => if (key x - key y <=? 0)%Z then x :: y :: r else y :: insert_by key x r
  end.

Fixpoint sort_by {A} (key : A -> Z) (l : list A) : list A :=
  match l with
  | [] => []
  | x :: r => insert_by key x (sort_by key r)
  end.

(** The reorder contract as the specification words it: the tasks named in
    [newOrder] follow the order of their indices there, every task not
    named comes after all that are, and the tasks not named keep their
    relative order. *)
Definition reorder_contract (newOrder : list jsstring) (before after : list Task) : Prop :=
  StronglySorted (fun t u => (position newOrder t <= position newOrder u)%Z)
    (filter (fun t => task_id t ∈ newOrder) after)
  /\ (forall i j t u, after !! i = Some t -> after !! j = Some u ->
        task_id t ∈ newOrder -> task_id u ∉ newOrder -> (i < j)%nat)
  /\ filter (fun t => task_id t ∉ newOrder) after
     = filter (fun t => task_id t ∉ newOrder) before.

(** *** Sample states *)

Definition empty_storage : Storage := MkStorage None None.

Definition task_a : Task := MkTask (str "a") (str "write") false (str "2024-05-01T10:00:00.000Z").
Definition task_b : Task := MkTask (str "b") (str "read") true (str "2024-05-01T10:00:01.000Z").
Definition task_c : Task := MkTask (str "c") (str "rest") false (str "2024-05-01T10:00:02.000Z").

(** The application started on a snapshot of [a, b, c]. *)
Definition app_abc : App :=
  let st := MkStorage (Some (stringify (VArr (map task_obj [task_a; task_b; task_c])))) None in
  default (MkApp [] [] [] None st []) (construct st).

(** The same with the filter set to [active]: the list shows [a] and [c]. *)
Definition app_abc_active : App := fst (setFilter (str "active") app_abc).

(** The application started on an empty storage area. *)
Definition app_empty : App :=
  default (MkApp [] [] [] None empty_storage []) (construct empty_storage).

(** An array whose elements are not tasks, two of them with the same id. *)
Definition odd_items : list value :=
  [ VNum (str "1"); VNull; VObj []; VStr (str "x");
    VObj [(str "id", VStr (str "7"))];
    VObj [(str "id", VStr (str "7")); (str "done", VBool true)] ].


(** ** Operations and views outside the task store

    The counter, the action buttons, the export, the keyboard shortcuts and
    the theme. *)

(** [this.todos.some(p)]: stops at the first element that satisfies [p]. *)
Fixpoint someM (p : cell -> completion bool) (h : list cell) (l : list nat)
    : completion bool :=
  match l with
  | [] => Normal false
  | x :: r =>
      match p (deref h x) with
      | Normal true => Normal true
      | Normal false => someM p h r
      | Throw e => Throw e
      end
  end.

(** [updateActionButtons()]: the [disabled] flags it gives to the
    clear-completed button and to the mark-all-complete button. *)
Definition updateActionButtons (a : App) : completion (bool * bool) :=
  match someM is_completed (heap a) (todos a) with
  | Normal hasCompleted =>
      match someM is_active (heap a) (todos a) with
      | Normal hasIncomplete => Normal (negb hasCompleted, negb hasIncomplete)
      | Throw e => Throw e
      end
  | Throw e => Throw e
  end.

(** [updateStats()]: the text it gives to the counter. *)
Definition updateStats (a : App) : completion jsstring :=
  match filterM is_active (heap a) (todos a) with
  | Normal active =>
      let activeCount := length active in
      let totalCount := length (todos a) in
      Normal
        (if (totalCount =? 0)%nat then str "No tasks"
         else if (activeCount =? 0)%nat then str "All tasks completed!"
         else if (activeCount =? 1)%nat then str "1 task remaining"
         else N_to_str (N.of_nat activeCount) ++ str " tasks remaining")
  | Throw e => Throw e
  end.

(** *** [JSON.stringify(v, null, 2)]

    [ind] is the indentation reached so far. *)
Definition newline : cu := cu_of_code 10.

Fixpoint stringify_pretty (ind : jsstring) (v : value) : jsstring :=
  let ind' := ind ++ str "  " in
  match v with
  | VArr [] => str "[]"
  | VArr items =>
      str "[" ++ newline :: ind'
      ++ join_with (str "," ++ newline :: ind') (map (stringify_pretty ind') items)
      ++ newline :: ind ++ str "]"
  | VObj [] => str "{}"
  | VObj props =>
      str "{" ++ newline :: ind'
      ++ join_with (str "," ++ newline :: ind')
           (map (fun p => quote (fst p) ++ str ": " ++ stringify_pretty ind' (snd p)) props)
      ++ newline :: ind ++ str "}"
  | _ => stringify v
  end.

(** [s.split('T')[0]] *)
Fixpoint before_T (s : jsstring) : jsstring :=
  match s with
  | [] => []
  | c :: r => if cu_eqb c (ch "T") then [] else c :: before_T r
  end.

(** [exportTodos()]: the name and the text of the file it offers; [iso] is
    what [new Date().toISOString()] returns. *)
Definition exportTodos (iso : jsstring) : M (jsstring * jsstring) :=
  do a <- gets (fun a => a);
  let dataStr := stringify_pretty [] (VArr (view a)) in
  let name := str "todos-" ++ before_T iso ++ str ".json" in
  showNotification (str "Todos exported successfully!") success ;;
  ret (name, dataStr).

(** *** Vocabulary *)

Definition is_null (v : value) : bool :=
  match v with VNull => true | _ => false end.

(** Some element of the array is [null]. *)
Definition has_null (a : App) : bool := existsb is_null (view a).

(** A callback that reads one property throws exactly on [null]. *)
Definition reads (p : cell -> completion bool) : Prop :=
  forall c, p c = Throw TypeError /\ is_null (cell_val c) = true
            \/ (exists b, p c = Normal b) /\ is_null (cell_val c) = false.

Definition completed_task (t : Task) : Task :=
  MkTask (task_id t) (task_text t) true (task_createdAt t).

Definition with_text (s : jsstring) (t : Task) : Task :=
  MkTask (task_id t) s (task_completed t) (task_createdAt t).

(** The slot holds the snapshot of the array as it is now. *)
Definition in_sync (a : App) : Prop :=
  getItem (storage a) = Some (stringify (VArr (view a))).

(** *** Keyboard shortcuts

    What [handleKeyboardShortcuts(e)] reads of the event and of the
    document; [inInput] is [document.activeElement === this.todoInput]. *)
Record KeyEvent : Type := MkKeyEvent {
  ctrlKey : bool;
  metaKey : bool;
  key : jsstring;
  inInput : bool
}.

(** [handleKeyboardShortcuts(e)]; focusing, clearing and blurring the input
    are left to the document, [answer] is what [confirm] returns if
    asked. *)
Definition handleKeyboardShortcuts (e : KeyEvent) (answer : bool) : M unit :=
  (if str_eqb (key e) (str "Escape") then
     do ed <- gets editingId;
     if truthy (option_map VStr ed) then cancelEdit else ret tt
   else ret tt) ;;
  (if (ctrlKey e || metaKey e) && str_eqb (key e) (str "a") && negb (inInput e)
   then markAllComplete else ret tt) ;;
  do ed <- gets editingId;
  if str_eqb (key e) (str "Delete") && negb (inInput e) && negb (truthy (option_map VStr ed))
  then clearCompleted answer else ret tt.

(** *** The theme

    The attribute [data-theme] of the document element, the slot
    [todoTheme] of [localStorage], whether the storage area refuses a
    write, and the class of the icon of the toggle. *)
Record Theme : Type := MkTheme {
  data_theme : option jsstring;
  todoTheme : option jsstring;
  theme_refused : bool;
  icon_class : jsstring
}.

Definition setTheme (theme : jsstring) (s : Theme) : Theme * completion unit :=
  let s1 := MkTheme (Some theme) (todoTheme s) (theme_refused s) (icon_class s) in
  if theme_refused s then (s1, Throw QuotaExceededError)
  else
    (MkTheme (Some theme) (Some theme) (theme_refused s)
       (if str_eqb theme (str "dark") then str "fas fa-sun" else str "fas fa-moon"),
     Normal tt).

(** [localStorage.getItem('todoTheme') || 'light'] *)
Definition initializeTheme (s : Theme) : Theme * completion unit :=
  let savedTheme :=
    if truthy (option_map VStr (todoTheme s)) then default [] (todoTheme s)
    else str "light" in
  setTheme savedTheme s.

Definition toggleTheme (s : Theme) : Theme * completion unit :=
  let newTheme :=
    if is_str (str "dark") (option_map VStr (data_theme s)) then str "light" else str "dark" in
  setTheme newTheme s.

(** The page loaded again: the attribute and the icon are those of the
    document as served, the storage area is kept. *)
Definition reloaded (attr : option jsstring) (icon : jsstring) (s : Theme) : Theme :=
  MkTheme attr (todoTheme s) (theme_refused s) icon.

(** [new TodoApp()] with the theme: [loadTodos], then [initializeTheme],
    then [render], as the constructor calls them; an exception out of either
    leaves [window.app] unassigned. *)
Definition startup (st : Storage) (th : Theme) : option (App * Theme) :=
  match initializeTheme th with
  | (th', Normal _) =>
      match construct st with
      | Some a => Some (a, th')
      | None => None
      end
  | (_, Throw _) => None
  end.

(** *** More vocabulary *)


(** The storage area has no quota and the slot holds the snapshot of the
    array. *)
Definition synced (a : App) : Prop :=
  capacity (storage a) = None /\ in_sync a.

(** The text of a task in the exported file between the first key and the
    closing brace, followed by [rest]. *)
Definition pretty_members (t : Task) (rest : jsstring) : jsstring :=
  quote (str "id") ++ ch ":" :: ch " " :: quote (task_id t)
    ++ ch "," :: newline :: str "    " ++
  quote (str "text") ++ ch ":" :: ch " " :: quote (task_text t)
    ++ ch "," :: newline :: str "    " ++
  quote (str "completed") ++ ch ":" :: ch " " :: stringify (VBool (task_completed t))
    ++ ch "," :: newline :: str "    " ++
  quote (str "createdAt") ++ ch ":" :: ch " " :: quote (task_createdAt t)
    ++ newline :: str "  " ++ ch "}" :: rest.

(** The elements of the exported array, from the first brace on. *)
Definition pretty_elements (ts : list Task) : jsstring :=
  join_with (ch "," :: newline :: str "  ")
    (map (stringify_pretty (str "  ")) (map task_obj ts)).

(** *** More sample states *)

(** The store [a, c], where no task is completed. *)
Definition app_ac : App := fst (deleteTodo (str "b") app_abc).


(** The page as served: no theme attribute, nothing stored. *)
Definition theme_served : Theme := MkTheme None None false (str "fas fa-moon").

End Store.
Export Store.

(** * Properties *)

(** ** [JSON.parse] after [JSON.stringify] *)

Section RoundTrip.
Local Open Scope N_scope.

Lemma N_of_ascii_lt (a : ascii) : N_of_ascii a < 256.
Proof. apply N_ascii_bounded. Qed.

Lemma cu_of_code_code (c : cu) : cu_of_code (cu_code c) = c.
Proof.
  destruct c as [h l]. unfold cu_of_code, cu_code. simpl.
  pose proof (N_of_ascii_lt h) as Hh. pose proof (N_of_ascii_lt l) as Hl.
  replace ((256 * N_of_ascii h + N_of_ascii l) / 256) with (N_of_ascii h).
  2:{ apply N.div_unique with (r := N_of_ascii l); lia. }
  replace ((256 * N_of_ascii h + N_of_ascii l) mod 256) with (N_of_ascii l).
  2:{ apply N.mod_unique with (q := N_of_ascii h); lia. }
  by rewrite !ascii_N_embedding.
Qed.

Lemma cu_code_inj (c d : cu) : cu_code c = cu_code d -> c = d.
Proof. intros H. rewrite <- (cu_of_code_code c), <- (cu_of_code_code d). by rewrite H. Qed.

Lemma cu_eqb_code (c d : cu) : cu_eqb c d = (cu_code c =? cu_code d).
Proof.
  destruct (N.eqb_spec (cu_code c) (cu_code d)) as [E|E].
  - apply cu_code_inj in E. subst d. unfold cu_eqb. by rewrite !Ascii.eqb_refl.
  - unfold cu_eqb. destruct (Ascii.eqb_spec (cu_hi c) (cu_hi d)) as [E1|E1]; [|done].
    destruct (Ascii.eqb_spec (cu_lo c) (cu_lo d)) as [E2|E2]; [|done].
    destruct c, d; simpl in *; subst. done.
Qed.

Lemma hex_byte_hex2 (a : ascii) :
  hex_byte (hex_digit (N_of_ascii a / 16)) (hex_digit (N_of_ascii a mod 16)) = Some a.
Proof.
  destruct a as [[] [] [] [] [] [] [] []]; vm_compute; reflexivity.
Qed.

Lemma parse_string_plain (c : cu) (r : jsstring) :
  cu_code c <> 34 -> cu_code c <> 92 -> is_control c = false ->
  parse_string_body (c :: r) = cons_result c (parse_string_body r).
Proof.
  intros H1 H2 H3. simpl. rewrite !cu_eqb_code.
  change (cu_code dquote) with 34. change (cu_code backslash) with 92.
  rewrite (proj2 (N.eqb_neq _ _) H1), (proj2 (N.eqb_neq _ _) H2), H3. done.
Qed.

Lemma parse_string_uescape (c : cu) (r : jsstring) :
  parse_string_body (uescape c ++ r) = cons_result c (parse_string_body r).
Proof.
  destruct c as [h l]. unfold uescape, hex2. cbn [app cu_hi cu_lo parse_string_body].
  rewrite !cu_eqb_code.
  change (cu_code backslash =? cu_code dquote) with false.
  change (cu_code backslash =? cu_code backslash) with true.
  change (cu_code (ch "u") =? cu_code (ch "u")) with true.
  cbv iota. by rewrite !hex_byte_hex2.
Qed.

Lemma surrogate_code (c : cu) :
  is_lead c = true \/ is_trail c = true -> 55296 <= cu_code c.
Proof.
  unfold is_lead, is_trail, cu_code.
  intros [H|H]; apply andb_true_iff in H as [H _]; apply N.leb_le in H; lia.
Qed.

Lemma parse_string_surrogate (c : cu) (r : jsstring) :
  is_lead c = true \/ is_trail c = true ->
  parse_string_body (c :: r) = cons_result c (parse_string_body r).
Proof.
  intros H. apply surrogate_code in H.
  apply parse_string_plain; [lia | lia | apply N.ltb_ge; lia].
Qed.

Lemma parse_string_quote_unit (c : cu) (r : jsstring) :
  parse_string_body (quote_unit c ++ r) = cons_result c (parse_string_body r).
Proof.
  unfold quote_unit.
  repeat match goal with
  | |- context [if ?n =? ?k then _ else _] =>
      destruct (N.eqb_spec n k) as [E|?];
      [ apply (f_equal cu_of_code) in E; rewrite cu_of_code_code in E; subst c; reflexivity | ]
  end.
  destruct (is_control c || is_lead c || is_trail c) eqn:E.
  - apply parse_string_uescape.
  - apply orb_false_elim in E as [E ?]. apply orb_false_elim in E as [E ?].
    by apply parse_string_plain.
Qed.

Lemma parse_string_quote_body_len (n : nat) (s rest : jsstring) :
  (length s <= n)%nat ->
  parse_string_body (quote_body s ++ dquote :: rest) = Some (s, rest).
Proof.
  revert s. induction n as [|n IH]; intros s Hn.
  - destruct s; [reflexivity | simpl in Hn; lia].
  - destruct s as [|c r]; [reflexivity|]. simpl in Hn.
    cbn [quote_body]. destruct (is_lead c) eqn:Hl.
    + destruct r as [|d r'].
      * rewrite parse_string_uescape. reflexivity.
      * destruct (is_trail d) eqn:Ht.
        -- cbn [app]. rewrite !parse_string_surrogate by auto.
           rewrite IH by (simpl in Hn; lia). reflexivity.
        -- rewrite <- app_assoc, parse_string_uescape, IH by lia. reflexivity.
    + rewrite <- app_assoc, parse_string_quote_unit, IH by lia. reflexivity.
Qed.

Lemma parse_string_quote_body (s rest : jsstring) :
  parse_string_body (quote_body s ++ dquote :: rest) = Some (s, rest).
Proof. by apply (parse_string_quote_body_len (length s)). Qed.

Lemma parse_value_string (f : nat) (s rest : jsstring) :
  parse_value (S f) (quote s ++ rest) = POk (VStr s) rest.
Proof.
  unfold quote. cbn [app parse_value].
  change (cu_eqb dquote (ch "{")) with false.
  change (cu_eqb dquote (ch "[")) with false.
  change (cu_eqb dquote dquote) with true. cbv iota.
  rewrite <- app_assoc. cbn [app]. by rewrite parse_string_quote_body.
Qed.

Lemma parse_value_bool (f : nat) (b : bool) (rest : jsstring) :
  parse_value (S f) (stringify (VBool b) ++ rest) = POk (VBool b) rest.
Proof.
  destruct b; cbn -[cu_eqb]; rewrite !cu_eqb_code; vm_compute; reflexivity.
Qed.

Lemma parse_members_more (f : nat) (k text more : jsstring) (v : value) :
  skip_ws (text ++ ch "," :: more) = text ++ ch "," :: more ->
  parse_value f (text ++ ch "," :: more) = POk v (ch "," :: more) ->
  parse_members (S f) (quote k ++ ch ":" :: text ++ ch "," :: more) =
    match parse_members f (skip_ws more) with
    | POk ms rest => POk ((k, v) :: ms) rest
    | PErr => PErr
    | PFuel => PFuel
    end.
Proof.
  intros Hws Hv. unfold quote. cbn [app parse_members].
  change (cu_eqb dquote dquote) with true. cbv iota.
  rewrite <- app_assoc. cbn [app]. rewrite parse_string_quote_body.
  cbn [skip_ws]. change (is_json_ws (ch ":")) with false. cbv iota.
  change (cu_eqb (ch ":") (ch ":")) with true. cbv iota.
  rewrite Hws, Hv. cbn [skip_ws]. change (is_json_ws (ch ",")) with false. cbv iota.
  change (cu_eqb (ch ",") (ch ",")) with true. cbv iota. reflexivity.
Qed.

Lemma parse_members_last (f : nat) (k text rest : jsstring) (v : value) :
  skip_ws (text ++ ch "}" :: rest) = text ++ ch "}" :: rest ->
  parse_value f (text ++ ch "}" :: rest) = POk v (ch "}" :: rest) ->
  parse_members (S f) (quote k ++ ch ":" :: text ++ ch "}" :: rest) = POk [(k, v)] rest.
Proof.
  intros Hws Hv. unfold quote. cbn [app parse_members].
  change (cu_eqb dquote dquote) with true. cbv iota.
  rewrite <- app_assoc. cbn [app]. rewrite parse_string_quote_body.
  cbn [skip_ws]. change (is_json_ws (ch ":")) with false. cbv iota.
  change (cu_eqb (ch ":") (ch ":")) with true. cbv iota.
  rewrite Hws, Hv. cbn [skip_ws]. change (is_json_ws (ch "}")) with false. cbv iota.
  change (cu_eqb (ch "}") (ch ",")) with false.
  change (cu_eqb (ch "}") (ch "}")) with true. cbv iota. reflexivity.
Qed.

Lemma skip_ws_quote (s rest : jsstring) : skip_ws (quote s ++ rest) = quote s ++ rest.
Proof. reflexivity. Qed.

Lemma skip_ws_bool (b : bool) (rest : jsstring) :
  skip_ws (stringify (VBool b) ++ rest) = stringify (VBool b) ++ rest.
Proof. by destruct b. Qed.

Lemma parse_value_object (f : nat) (k x : jsstring) :
  parse_value (S f) (ch "{" :: quote k ++ x) =
    match parse_members f (quote k ++ x) with
    | POk ms rest => POk (build_object ms) rest
    | PErr => PErr
    | PFuel => PFuel
    end.
Proof. reflexivity. Qed.

Lemma parse_value_array (f : nat) (x : jsstring) :
  parse_value (S f) (ch "[" :: ch "{" :: x) =
    match parse_elements f (ch "{" :: x) with
    | POk vs rest => POk (VArr vs) rest
    | PErr => PErr
    | PFuel => PFuel
    end.
Proof. reflexivity. Qed.

Lemma stringify_task (t : Task) (rest : jsstring) :
  stringify (task_obj t) ++ rest = ch "{" :: task_members t rest.
Proof.
  unfold task_obj, task_members. cbn [stringify map join_with fst snd].
  change (str "{") with [ch "{"]. change (str "}") with [ch "}"].
  change (str ",") with [ch ","]. change (str ":") with [ch ":"].
  repeat first [rewrite <- app_assoc | progress cbn [app]]. reflexivity.
Qed.

Lemma parse_members_task (f : nat) (t : Task) (rest : jsstring) :
  parse_members (5 + f) (task_members t rest) =
    POk [ (str "id", VStr (task_id t)); (str "text", VStr (task_text t));
          (str "completed", VBool (task_completed t));
          (str "createdAt", VStr (task_createdAt t)) ] rest.
Proof.
  unfold task_members. change (5 + f)%nat with (S (S (S (S (S f))))).
  rewrite (parse_members_more _ _ _ _ (VStr (task_id t)));
    [ | apply skip_ws_quote | apply parse_value_string ].
  change (skip_ws (quote ?k ++ ?x)) with (quote k ++ x).
  rewrite (parse_members_more _ _ _ _ (VStr (task_text t)));
    [ | apply skip_ws_quote | apply parse_value_string ].
  change (skip_ws (quote ?k ++ ?x)) with (quote k ++ x).
  rewrite (parse_members_more _ _ _ _ (VBool (task_completed t)));
    [ | apply skip_ws_bool | apply parse_value_bool ].
  change (skip_ws (quote ?k ++ ?x)) with (quote k ++ x).
  rewrite (parse_members_last _ _ _ _ (VStr (task_createdAt t)));
    [ | apply skip_ws_quote | apply parse_value_string ].
  reflexivity.
Qed.

Lemma parse_value_task (f : nat) (t : Task) (rest : jsstring) :
  parse_value (6 + f) (stringify (task_obj t) ++ rest) = POk (task_obj t) rest.
Proof.
  rewrite stringify_task. unfold task_members at 1.
  change (6 + f)%nat with (S (5 + f)).
  rewrite parse_value_object. fold (task_members t rest).
  rewrite parse_members_task. reflexivity.
Qed.

Lemma parse_value_task_ge (F : nat) (t : Task) (rest : jsstring) :
  (6 <= F)%nat -> parse_value F (stringify (task_obj t) ++ rest) = POk (task_obj t) rest.
Proof.
  intros H. replace F with (6 + (F - 6))%nat by lia. apply parse_value_task.
Qed.

Lemma parse_elements_tasks (ts : list Task) :
  forall (t : Task) (F : nat) (rest : jsstring),
  (length ts + 7 <= F)%nat ->
  parse_elements F (join_with [ch ","] (map stringify (map task_obj (t :: ts))) ++ ch "]" :: rest)
  = POk (map task_obj (t :: ts)) rest.
Proof.
  induction ts as [|t' ts IH]; intros t F rest HF.
  - destruct F as [|F]; [simpl in HF; lia|].
    cbn [map join_with parse_elements].
    rewrite parse_value_task_ge by (simpl in HF; lia). reflexivity.
  - destruct F as [|F]; [simpl in HF; lia|].
    cbn [map join_with]. cbn [map] in IH.
    rewrite <- !app_assoc. cbn [parse_elements app].
    rewrite parse_value_task_ge by (simpl in HF; lia).
    cbn [app skip_ws]. change (is_json_ws (ch ",")) with false. cbv iota.
    change (cu_eqb (ch ",") (ch ",")) with true. cbv iota.
    assert (Hs : forall x, skip_ws (join_with [ch ","] (stringify (task_obj t') :: map stringify (map task_obj ts)) ++ x)
                 = join_with [ch ","] (stringify (task_obj t') :: map stringify (map task_obj ts)) ++ x).
    { intros x. destruct ts; cbn [map join_with]; rewrite <- ?app_assoc, stringify_task; reflexivity. }
    rewrite Hs, IH by (simpl in HF; lia). reflexivity.
Qed.

Lemma length_stringify_task (t : Task) : (2 <= length (stringify (task_obj t)))%nat.
Proof.
  rewrite <- (app_nil_r (stringify (task_obj t))), stringify_task.
  unfold task_members, quote. cbn [app length]. lia.
Qed.

Lemma length_join_tasks (ts : list Task) :
  (2 * length ts <= length (join_with [ch ","] (map stringify (map task_obj ts))))%nat.
Proof.
  induction ts as [|t ts IH]; [simpl; lia|].
  pose proof (length_stringify_task t).
  destruct ts as [|t' ts]; cbn [map join_with length] in *; [lia|].
  rewrite !length_app. cbn [length] in *. lia.
Qed.

(** [JSON.parse(JSON.stringify(S))] gives [S] back for an array of tasks. *)
Lemma JSON_parse_stringify_tasks (ts : list Task) :
  JSON_parse (stringify (VArr (map task_obj ts))) = Some (VArr (map task_obj ts)).
Proof.
  destruct ts as [|t ts]; [reflexivity|].
  unfold JSON_parse. cbn [stringify].
  change (str "[") with [ch "["]. change (str "]") with [ch "]"]. change (str ",") with [ch ","].
  pose proof (length_join_tasks (t :: ts)) as Hlen.
  set (body := join_with [ch ","] (map stringify (map task_obj (t :: ts)))) in *.
  assert (Hb : exists x, body = ch "{" :: x).
  { subst body. destruct ts; cbn [map join_with];
      rewrite <- 1?(app_nil_r (stringify (task_obj t))), stringify_task; eauto. }
  destruct Hb as [x Hx].
  cbn [app skip_ws]. change (is_json_ws (ch "[")) with false. cbv iota.
  replace (2 * length (ch "[" :: body ++ [ch "]"]) + 1)%nat
    with (S (2 * length (ch "[" :: body ++ [ch "]"]))) by lia.
  rewrite Hx at 2. cbn [app]. rewrite parse_value_array.
  change (ch "{" :: x ++ [ch "]"]) with ((ch "{" :: x) ++ [ch "]"]). rewrite <- Hx.
  subst body. rewrite parse_elements_tasks; [reflexivity|].
  cbn [length] in *. rewrite length_app. cbn [length] in *. lia.
Qed.

End RoundTrip.

(** ** The parser always has fuel enough *)

Section ParserFuel.
Local Open Scope nat_scope.

Lemma skip_ws_length (s : jsstring) : length (skip_ws s) <= length s.
Proof. induction s as [|c r IH]; simpl; [lia|]. destruct (is_json_ws c); simpl; lia. Qed.

Lemma cons_result_length (c : cu) (o : option (jsstring * jsstring)) (t r : jsstring) :
  cons_result c o = Some (t, r) -> exists t', o = Some (t', r).
Proof. destruct o as [[t' r']|]; simpl; [|done]. intros [= <- <-]. eauto. Qed.

Lemma parse_string_body_length_aux (n : nat) (s t r : jsstring) :
  length s <= n -> parse_string_body s = Some (t, r) -> length r < length s.
Proof.
  revert s t r. induction n as [|n IH]; intros s t r Hn H.
  - destruct s; simpl in *; [done | lia].
  - destruct s as [|c s]; [done|]. simpl in Hn. cbn [parse_string_body] in H.
    repeat case_match; simplify_eq; simpl; try lia;
      apply cons_result_length in H as [t' H]; apply IH in H; simpl in *; lia.
Qed.

Lemma parse_string_body_length (s t r : jsstring) :
  parse_string_body s = Some (t, r) -> length r < length s.
Proof. by apply (parse_string_body_length_aux (length s)). Qed.

Lemma span_digits_length (s d r : jsstring) :
  span_digits s = (d, r) -> length r <= length s.
Proof.
  revert d r. induction s as [|c s IH]; intros d r H; simpl in H.
  - by simplify_eq.
  - destruct (is_digit c); [|simplify_eq; simpl; lia].
    destruct (span_digits s) as [d' r'] eqn:E. simplify_eq. specialize (IH _ _ eq_refl). simpl. lia.
Qed.

Lemma number_int_length (s i r : jsstring) :
  number_int s = Some (i, r) -> length r < length s.
Proof.
  unfold number_int. intros H. repeat case_match; simplify_eq; simpl; try lia.
  match goal with E : span_digits _ = _ |- _ => apply span_digits_length in E end. lia.
Qed.

Lemma number_frac_length (s i r : jsstring) :
  number_frac s = Some (i, r) -> length r <= length s.
Proof.
  unfold number_frac. intros H. repeat case_match; simplify_eq; simpl; try lia;
  match goal with E : span_digits _ = _ |- _ => apply span_digits_length in E end; lia.
Qed.

Lemma number_exp_length (s i r : jsstring) :
  number_exp s = Some (i, r) -> length r <= length s.
Proof.
  unfold number_exp. intros H. repeat case_match; simplify_eq; simpl; try lia;
  match goal with E : span_digits _ = _ |- _ => apply span_digits_length in E end; simpl in *; lia.
Qed.

Lemma parse_number_length (s lit r : jsstring) :
  parse_number s = Some (lit, r) -> length r < length s.
Proof.
  unfold parse_number. intros H.
  repeat case_match; simplify_eq;
  repeat match goal with
  | E : number_int _ = Some _ |- _ => apply number_int_length in E
  | E : number_frac _ = Some _ |- _ => apply number_frac_length in E
  | E : number_exp _ = Some _ |- _ => apply number_exp_length in E
  end; simpl in *; lia.
Qed.

Lemma match_literal_length (p s r : jsstring) :
  match_literal p s = Some r -> length r <= length s.
Proof.
  revert s. induction p as [|a p IH]; intros s H; simpl in H.
  - by simplify_eq.
  - destruct s as [|b s]; [done|]. destruct (cu_eqb a b); [|done]. apply IH in H. simpl. lia.
Qed.

Ltac length_facts :=
  repeat match goal with
  | E : parse_string_body _ = Some _ |- _ => apply parse_string_body_length in E
  | E : parse_number _ = Some _ |- _ => apply parse_number_length in E
  | E : match_literal _ _ = Some _ |- _ => apply match_literal_length in E
  | E : skip_ws ?s = _ :: _ |- _ =>
      let H := fresh in pose proof (skip_ws_length s) as H; rewrite E in H; clear E
  | _ : context [length (skip_ws ?s)] |- _ =>
      lazymatch goal with
      | _ : length (skip_ws s) <= length s |- _ => fail
      | _ => pose proof (skip_ws_length s)
      end
  | |- context [length (skip_ws ?s)] =>
      lazymatch goal with
      | _ : length (skip_ws s) <= length s |- _ => fail
      | _ => pose proof (skip_ws_length s)
      end
  end.

(** Every successful parse consumes input. *)
Lemma parse_consumes (f : nat) :
  (forall s v r, parse_value f s = POk v r -> length r < length s) /\
  (forall s vs r, parse_elements f s = POk vs r -> length r < length s) /\
  (forall s ms r, parse_members f s = POk ms r -> length r < length s).
Proof.
  induction f as [|f (IHv & IHe & IHm)]; [repeat split; intros; discriminate|].
  repeat split.
  - intros s v r H. cbn [parse_value] in H.
    repeat case_match; simplify_eq;
    repeat match goal with
    | E : parse_members f _ = POk _ _ |- _ => apply IHm in E
    | E : parse_elements f _ = POk _ _ |- _ => apply IHe in E
    end; length_facts; simpl in *; lia.
  - intros s vs r H. cbn [parse_elements] in H.
    repeat case_match; simplify_eq;
    repeat match goal with
    | E : parse_value f _ = POk _ _ |- _ => apply IHv in E
    | E : parse_elements f _ = POk _ _ |- _ => apply IHe in E
    end; length_facts; simpl in *; lia.
  - intros s ms r H. cbn [parse_members] in H.
    repeat case_match; simplify_eq;
    repeat match goal with
    | E : parse_value f _ = POk _ _ |- _ => apply IHv in E
    | E : parse_members f _ = POk _ _ |- _ => apply IHm in E
    end; length_facts; simpl in *; lia.
Qed.

Ltac consume_facts f :=
  repeat match goal with
  | E : parse_value f _ = POk _ _ |- _ => apply (proj1 (parse_consumes f)) in E
  | E : parse_elements f _ = POk _ _ |- _ => apply (proj1 (proj2 (parse_consumes f))) in E
  | E : parse_members f _ = POk _ _ |- _ => apply (proj2 (proj2 (parse_consumes f))) in E
  end.

(** With fuel above twice the length of the input the parser never stops
    for lack of fuel. *)
Lemma parse_fuel (f : nat) :
  (forall s, 2 * length s + 1 <= f -> parse_value f s <> PFuel) /\
  (forall s, 2 * length s + 2 <= f -> parse_elements f s <> PFuel) /\
  (forall s, 2 * length s + 2 <= f -> parse_members f s <> PFuel).
Proof.
  induction f as [|f (IHv & IHe & IHm)]; [repeat split; intros; lia|].
  repeat split.
  - intros s Hf. cbn [parse_value].
    repeat case_match; try discriminate; exfalso;
    match goal with
    | E : parse_members f ?x = PFuel |- _ => apply (IHm x); [|exact E]
    | E : parse_elements f ?x = PFuel |- _ => apply (IHe x); [|exact E]
    end; length_facts; simpl in *; lia.
  - intros s Hf. cbn [parse_elements].
    repeat case_match; try discriminate; exfalso;
    match goal with
    | E : parse_elements f ?x = PFuel |- _ => apply (IHe x); [|exact E]
    | E : parse_value f ?x = PFuel |- _ => apply (IHv x); [|exact E]
    end; consume_facts f; length_facts; simpl in *; lia.
  - intros s Hf. cbn [parse_members].
    repeat case_match; try discriminate; exfalso;
    match goal with
    | E : parse_members f ?x = PFuel |- _ => apply (IHm x); [|exact E]
    | E : parse_value f ?x = PFuel |- _ => apply (IHv x); [|exact E]
    end; consume_facts f; length_facts; simpl in *; lia.
Qed.

Lemma parse_value_fuel (text : jsstring) :
  parse_value (2 * length text + 1) (skip_ws text) <> PFuel.
Proof. apply parse_fuel. pose proof (skip_ws_length text). lia. Qed.

End ParserFuel.

(** ** The store *)

Section StoreFacts.
Local Open Scope nat_scope.

Lemma saveTodos_eq (a : App) : saveTodos a = (saved a, Normal tt).
Proof.
  unfold saveTodos, saved, try_catch, bind, gets, lift, modify, console_error, showNotification.
  destruct (setItem _ _); reflexivity.
Qed.

Lemma saved_heap a : heap (saved a) = heap a.
Proof. unfold saved. by destruct (setItem _ _). Qed.
Lemma saved_todos a : todos (saved a) = todos a.
Proof. unfold saved. by destruct (setItem _ _). Qed.
Lemma saved_view a : view (saved a) = view a.
Proof. unfold view. by rewrite saved_heap, saved_todos. Qed.

Lemma createTodoElement_cases (h : list cell) (x : nat) (a : App) :
  createTodoElement h x a = (a, Normal tt) \/
  exists e, createTodoElement h x a = (a, Throw e).
Proof.
  unfold createTodoElement, bind, lift, ret.
  destruct (get_prop (str "completed") _); [|eauto].
  destruct (get_prop (str "id") _); [|eauto].
  destruct (get_prop (str "text") _); eauto.
Qed.

Lemma forEachM_createTodoElement (h : list cell) (l : list nat) (a : App) :
  forEachM (createTodoElement h) l a = (a, Normal tt) \/
  exists e, forEachM (createTodoElement h) l a = (a, Throw e).
Proof.
  induction l as [|x l IH]; [by left|].
  cbn [forEachM]. unfold bind.
  destruct (createTodoElement_cases h x a) as [->|[e ->]]; eauto.
Qed.

Lemma getFilteredTodos_cases (a : App) :
  (exists l, getFilteredTodos a = (a, Normal l)) \/
  (exists e, getFilteredTodos a = (a, Throw e)).
Proof.
  unfold getFilteredTodos, bind, gets, lift, ret.
  repeat case_match; try destruct (filterM _ _ _); eauto.
Qed.

(** [render] changes nothing but the log. *)
Lemma render_cases (a : App) :
  render a = (emit EvRender a, Normal tt) \/ exists e, render a = (a, Throw e).
Proof.
  unfold render, bind.
  destruct (getFilteredTodos_cases a) as [[l ->]|[e ->]]; [|eauto].
  unfold gets.
  destruct (forEachM_createTodoElement (heap a) l a) as [->|[e ->]]; [|eauto].
  unfold lift, modify. destruct (filterM _ _ _); eauto.
Qed.

Lemma render_heap a : heap (fst (render a)) = heap a.
Proof. destruct (render_cases a) as [->|[e ->]]; reflexivity. Qed.
Lemma render_todos a : todos (fst (render a)) = todos a.
Proof. destruct (render_cases a) as [->|[e ->]]; reflexivity. Qed.

Lemma deref_app_l (h h' : list cell) (x : nat) :
  x < length h -> deref (h ++ h') x = deref h x.
Proof. intros H. unfold deref. by rewrite lookup_app_l. Qed.

Lemma view_app_heap (h h' : list cell) (l : list nat) :
  Forall (fun x => x < length h) l ->
  map (fun x => cell_val (deref (h ++ h') x)) l = map (fun x => cell_val (deref h x)) l.
Proof.
  induction 1 as [|x l Hx _ IH]; [done|]. cbn [map]. by rewrite deref_app_l, IH.
Qed.

Lemma deref_fresh (h : list cell) (c : cell) : deref (h ++ [c]) (length h) = c.
Proof. unfold deref. by rewrite list_lookup_middle. Qed.

Lemma view_emit (e : event) (a : App) : view (emit e a) = view a.
Proof. reflexivity. Qed.

Lemma addTodo_view (text : jsstring) (now : Z) (iso : jsstring) (a : App) :
  wf a ->
  view (fst (addTodo text now iso a)) = new_todo text now iso :: view a.
Proof.
  intros [_ Hr]. unfold addTodo, bind, unshift, modify.
  rewrite saveTodos_eq.
  set (a1 := set_todos _ _).
  assert (Hv : view a1 = new_todo text now iso :: view a).
  { unfold view, a1. cbn [heap todos set_todos set_heap map].
    by rewrite deref_fresh, view_app_heap. }
  destruct (render_cases (saved a1)) as [->|[e ->]]; cbn [fst];
    unfold showNotification, modify; cbn [fst]; by rewrite ?view_emit, saved_view.
Qed.

(** C4.  For every input whose trimmed form is empty, [handleSubmit] (the
    add operation) is a no-op: the state is returned as it was, so the
    sequence and its length are unchanged, nothing is written to storage and
    nothing is notified. *)
Theorem add_blank_noop (input : jsstring) (now : Z) (iso : jsstring) (a : App) :
  trim input = [] ->
  handleSubmit input now iso a = (a, Normal tt)
  /\ view (fst (handleSubmit input now iso a)) = view a
  /\ length (view (fst (handleSubmit input now iso a))) = length (view a)
  /\ storage (fst (handleSubmit input now iso a)) = storage a
  /\ log (fst (handleSubmit input now iso a)) = log a.
Proof.
  intros H. unfold handleSubmit. rewrite H. cbn. done.
Qed.

(** C5.  For every state and every input whose trimmed form is not empty,
    adding makes the sequence one longer, puts the new task at index 0 with
    [completed] false, and moves every task that was there one position
    down, in the same order. *)
Theorem add_front (input : jsstring) (now : Z) (iso : jsstring) (a : App) :
  wf a ->
  trim input <> [] ->
  let a' := fst (handleSubmit input now iso a) in
  let todo := new_todo (trim input) now iso in
  length (view a') = S (length (view a))
  /\ view a' !! 0 = Some todo
  /\ get_prop (str "completed") (Cell todo []) = Normal (Some (VBool false))
  /\ (forall i, view a' !! S i = view a !! i)
  /\ view a' = todo :: view a.
Proof.
  intros Hwf Ht. cbn zeta. unfold handleSubmit.
  rewrite (bool_decide_eq_false_2 _ Ht). cbn [negb].
  rewrite addTodo_view by done. repeat split.
Qed.

(** *** Stores of tasks *)

Lemma get_prop_task (t : Task) (c : cell) :
  cell_val c = task_obj t ->
  get_prop (str "id") c = Normal (Some (VStr (task_id t)))
  /\ get_prop (str "text") c = Normal (Some (VStr (task_text t)))
  /\ get_prop (str "completed") c = Normal (Some (VBool (task_completed t))).
Proof. intros H. unfold get_prop. rewrite H. repeat split. Qed.

Lemma has_id_task (id : jsstring) (t : Task) (c : cell) :
  cell_val c = task_obj t -> has_id id c = Normal (bool_decide (task_id t = id)).
Proof.
  intros H. unfold has_id. by rewrite (proj1 (get_prop_task t c H)).
Qed.

Lemma task_obj_inj (t u : Task) : task_obj t = task_obj u -> t = u.
Proof. destruct t, u. unfold task_obj. cbn. intros [=]. by subst. Qed.

Lemma deref_task_lt (h : list cell) (x : nat) (t : Task) :
  cell_val (deref h x) = task_obj t -> x < length h.
Proof.
  unfold deref. intros H. destruct (h !! x) eqn:E.
  - by apply lookup_lt_Some in E.
  - discriminate.
Qed.

Lemma first_with_unique id ts i t i' t' :
  first_with id ts i t -> first_with id ts i' t' -> i = i' /\ t = t'.
Proof.
  intros (H1 & H2 & H3) (H1' & H2' & H3').
  assert (i = i').
  { destruct (Nat.lt_trichotomy i i') as [L|[E|L]]; [|done|].
    - by destruct (H3' _ _ L H1).
    - by destruct (H3 _ _ L H1'). }
  subst. split; [done|congruence].
Qed.

Lemma findM_tasks (id : jsstring) (h : list cell) (l : list nat) (ts : list Task) :
  map (fun x => cell_val (deref h x)) l = map task_obj ts ->
  (findM (has_id id) h l = Normal None /\ Forall (fun t => task_id t <> id) ts)
  \/ exists i x t, l !! i = Some x /\ first_with id ts i t
                   /\ findM (has_id id) h l = Normal (Some x).
Proof.
  revert ts. induction l as [|x l IH]; intros [|t ts] H; try discriminate.
  - left. by split.
  - cbn [map] in H. injection H as Hx Hl. cbn [findM].
    rewrite (has_id_task id t _ Hx). case_bool_decide as E.
    + right. exists 0, x, t. repeat split; [done|]. intros j u Hj. lia.
    + destruct (IH _ Hl) as [[-> Hall]|(i & y & u & Hi & (Hu & Hid & Hfirst) & ->)].
      * left. split; [done|]. by constructor.
      * right. exists (S i), y, u. repeat split; try done.
        intros [|j] v Hj Hv; cbn in Hv; [congruence|]. apply (Hfirst j); [lia|done].
Qed.

Lemma view_insert (h : list cell) (c : cell) (l : list nat) (i x : nat) :
  NoDup l -> l !! i = Some x -> x < length h ->
  map (fun y => cell_val (deref (<[x := c]> h) y)) l
  = <[i := cell_val c]> (map (fun y => cell_val (deref h y)) l).
Proof.
  intros Hnd. revert i. induction Hnd as [|y l Hy Hnd IH]; intros i Hi Hx; [done|].
  destruct i as [|i]; cbn in Hi.
  - simplify_eq. cbn [map]. cbn. f_equal.
    + unfold deref. by rewrite list_lookup_insert_eq.
    + apply map_ext_in. intros z Hz. unfold deref.
      rewrite list_lookup_insert_ne; [done|]. intros ->. apply Hy. by apply list_elem_of_In.
  - cbn [map]. cbn. f_equal.
    + unfold deref. rewrite list_lookup_insert_ne; [done|]. intros ->.
      apply Hy. by eapply list_elem_of_lookup_2.
    + by apply IH.
Qed.

Lemma set_completed_task (t : Task) (c : cell) (b : bool) :
  cell_val c = task_obj t ->
  set_prop (str "completed") (VBool b) c
  = Normal (Cell (task_obj (MkTask (task_id t) (task_text t) b (task_createdAt t))) (cell_extra c)).
Proof. intros H. unfold set_prop. rewrite H. reflexivity. Qed.

Lemma toggleTodo_absent (id : jsstring) (a : App) :
  findM (has_id id) (heap a) (todos a) = Normal None ->
  toggleTodo id a = (a, Normal tt).
Proof. intros H. unfold toggleTodo, bind, gets, lift. by rewrite H. Qed.

Lemma notify_if (b : bool) (m1 m2 : jsstring) (s1 s2 : severity) (a : App) :
  (if b then showNotification m1 s1 else showNotification m2 s2) a
  = (emit (EvNotify (if b then m1 else m2) (if b then s1 else s2)) a, Normal tt).
Proof. by destruct b. Qed.

Lemma toggleTodo_found (id : jsstring) (a : App) (x : nat) (t : Task) :
  findM (has_id id) (heap a) (todos a) = Normal (Some x) ->
  cell_val (deref (heap a) x) = task_obj t ->
  heap (fst (toggleTodo id a))
    = <[x := Cell (task_obj (toggled t)) (cell_extra (deref (heap a) x))]> (heap a)
  /\ todos (fst (toggleTodo id a)) = todos a.
Proof.
  intros Hf Hc. unfold toggleTodo, bind, gets, lift. rewrite Hf, Hc.
  cbn [truthy task_obj].
  rewrite (proj2 (proj2 (get_prop_task t _ Hc))).
  rewrite (set_completed_task t _ _ Hc). unfold modify. rewrite saveTodos_eq.
  cbn [truthy]. fold (toggled t).
  set (a1 := set_heap _ a).
  destruct (render_cases (saved a1)) as [->|[e ->]]; cbn [fst].
  - rewrite notify_if. cbn [fst heap todos emit]. by rewrite saved_heap, saved_todos.
  - by rewrite saved_heap, saved_todos.
Qed.

Lemma lookup_view_task (a : App) (ts : list Task) (i x : nat) (t : Task) :
  view a = map task_obj ts -> todos a !! i = Some x -> ts !! i = Some t ->
  cell_val (deref (heap a) x) = task_obj t.
Proof.
  intros Hv Hx Ht.
  assert (H : view a !! i = Some (task_obj t)) by (by rewrite Hv, list_lookup_fmap, Ht).
  unfold view in H. rewrite list_lookup_fmap, Hx in H. cbn in H. congruence.
Qed.

Lemma absent_Forall (id : jsstring) (ts : list Task) :
  id ∉ map task_id ts <-> Forall (fun t => task_id t <> id) ts.
Proof.
  rewrite Forall_forall. split.
  - intros H t Ht E. apply H. subst id. apply list_elem_of_fmap. by exists t.
  - intros H Hin. apply list_elem_of_fmap in Hin as (t & -> & Ht). by apply (H t).
Qed.

Lemma toggle_view (a : App) (ts : list Task) (id : jsstring) (i : nat) (t : Task) :
  wf a -> view a = map task_obj ts -> first_with id ts i t ->
  exists x, todos a !! i = Some x
  /\ heap (fst (toggleTodo id a))
     = <[x := Cell (task_obj (toggled t)) (cell_extra (deref (heap a) x))]> (heap a)
  /\ todos (fst (toggleTodo id a)) = todos a
  /\ cell_val (deref (heap a) x) = task_obj t
  /\ view (fst (toggleTodo id a)) = map task_obj (<[i := toggled t]> ts).
Proof.
  intros [Hnd Hr] Hv Hfirst.
  destruct (findM_tasks id (heap a) (todos a) ts Hv)
    as [[_ Hall]|(i' & x & t' & Hx & Hfirst' & Hf)].
  { destruct Hfirst as (Ht & Hid & _). rewrite Forall_forall in Hall.
    destruct (Hall t); [|done]. by eapply list_elem_of_lookup_2. }
  destruct (first_with_unique _ _ _ _ _ _ Hfirst Hfirst') as [<- <-].
  pose proof (lookup_view_task a ts i x t Hv Hx (proj1 Hfirst)) as Hc.
  destruct (toggleTodo_found id a x t Hf Hc) as [Hh Ht].
  exists x. repeat split; try done.
  unfold view. rewrite Hh, Ht.
  rewrite (view_insert _ _ _ i) by eauto using deref_task_lt.
  fold (view a). rewrite Hv. cbn [cell_val]. by rewrite list_fmap_insert.
Qed.

(** C10.  On a store of tasks, for an id that is present, [toggleTodo]
    replaces the first task with that id by the same task with [completed]
    negated: its id, text and creation time are unchanged, every other
    position holds what it held, and the length and the order are
    unchanged. *)
Theorem toggle_frame (a : App) (ts : list Task) (id : jsstring) :
  wf a -> view a = map task_obj ts -> id ∈ map task_id ts ->
  exists i t,
    first_with id ts i t
    /\ view (fst (toggleTodo id a)) = map task_obj (<[i := toggled t]> ts)
    /\ task_id (toggled t) = task_id t
    /\ task_text (toggled t) = task_text t
    /\ task_createdAt (toggled t) = task_createdAt t
    /\ task_completed (toggled t) = negb (task_completed t)
    /\ length (view (fst (toggleTodo id a))) = length (view a)
    /\ (forall j, j <> i -> view (fst (toggleTodo id a)) !! j = view a !! j).
Proof.
  intros Hwf Hv Hin.
  destruct (findM_tasks id (heap a) (todos a) ts Hv)
    as [[_ Hall]|(i & x & t & Hx & Hfirst & Hf)].
  { by apply absent_Forall in Hall. }
  destruct (toggle_view a ts id i t Hwf Hv Hfirst) as (_ & _ & _ & _ & _ & Hv').
  exists i, t. repeat split; try apply Hfirst; try done.
  - by rewrite Hv', Hv, !length_map, length_insert.
  - intros j Hj. rewrite Hv', Hv, !list_lookup_fmap, list_lookup_insert_ne; done.
Qed.

(** C6.  On a store of tasks, toggling the same id twice gives back the
    sequence, flag included, and the heap behind it; one toggle of a present
    id does change the sequence, and toggling an absent id returns the state
    as it was. *)
Theorem toggle_twice (a : App) (ts : list Task) (id : jsstring) :
  wf a -> view a = map task_obj ts ->
  let a1 := fst (toggleTodo id a) in
  let a2 := fst (toggleTodo id a1) in
  view a2 = view a /\ heap a2 = heap a /\ todos a2 = todos a
  /\ (id ∈ map task_id ts -> view a1 <> view a)
  /\ (id ∉ map task_id ts -> toggleTodo id a = (a, Normal tt)).
Proof.
  intros Hwf Hv. cbn zeta.
  destruct (findM_tasks id (heap a) (todos a) ts Hv)
    as [[Hf Hall]|(i & x & t & Hx & Hfirst & Hf)].
  - rewrite !(toggleTodo_absent id a Hf). cbn [fst]. rewrite !(toggleTodo_absent id a Hf).
    repeat split. intros Hin. by apply absent_Forall in Hall.
  - destruct (toggle_view a ts id i t Hwf Hv Hfirst) as (x' & Hx' & Hh & Ht & Hc & Hv').
    assert (x' = x) by congruence. subst x'.
    set (a1 := fst (toggleTodo id a)) in *.
    assert (Hwf1 : wf a1).
    { destruct Hwf as [Hnd Hr]. split; rewrite Ht; [done|]. by rewrite Hh, length_insert. }
    assert (Hfirst1 : first_with id (<[i := toggled t]> ts) i (toggled t)).
    { destruct Hfirst as (Hi & Hid & Hlt). repeat split.
      - apply list_lookup_insert_eq. by eapply lookup_lt_Some.
      - done.
      - intros j u Hj Hu. rewrite list_lookup_insert_ne in Hu by lia. eauto. }
    destruct (toggle_view a1 _ id i _ Hwf1 Hv' Hfirst1) as (x' & Hx1 & Hh1 & Ht1 & Hc1 & Hv1).
    assert (x' = x) by congruence. subst x'.
    assert (Hts : <[i := toggled (toggled t)]> (<[i := toggled t]> ts) = ts).
    { rewrite list_insert_insert_eq. apply list_insert_id.
      destruct t as [? ? [] ?]; apply Hfirst. }
    assert (Hheap : heap (fst (toggleTodo id a1)) = heap a).
    { rewrite Hh1, Hh, list_insert_insert_eq. apply list_insert_id.
      assert (Hlt : x < length (heap a)) by eauto using deref_task_lt.
      unfold deref in *. rewrite list_lookup_insert_eq by done. cbn [default cell_extra].
      destruct (heap a !! x) as [[v e]|] eqn:E; [|by apply lookup_ge_None in E; lia].
      cbn in *. subst v. by destruct t as [? ? [] ?]. }
    repeat split.
    + by rewrite Hv1, Hts.
    + done.
    + by rewrite Ht1.
    + intros _. rewrite Hv', Hv. intros E.
      assert (Hl : map task_obj (<[i := toggled t]> ts) !! i = map task_obj ts !! i) by (by rewrite E).
      rewrite !list_lookup_fmap, (proj1 Hfirst), list_lookup_insert_eq in Hl
        by (eapply lookup_lt_Some, Hfirst).
      cbn in Hl. injection Hl as Hl. by destruct (task_completed t).
    + intros Hin. destruct Hfirst as (Hi & Hid & _). destruct Hin.
      subst id. apply list_elem_of_fmap. exists t. split; [done|]. by eapply list_elem_of_lookup_2.
Qed.

Lemma findM_Some (p : cell -> completion bool) (h : list cell) (l : list nat) (x : nat) :
  findM p h l = Normal (Some x) -> x ∈ l /\ p (deref h x) = Normal true.
Proof.
  induction l as [|y l IH]; [done|]. cbn [findM].
  destruct (p (deref h y)) as [[]|] eqn:E; [| |done].
  - intros [= ->]. split; [left|done].
  - intros H. destruct (IH H). split; [by right|done].
Qed.

(** What [startEdit] returns: the first element with the id, the store as
    it was, and [editingId] set. *)
Lemma startEdit_Normal (id : jsstring) (a0 a : App) (x : nat) :
  startEdit id a0 = (a, Normal x) ->
  editingId a = Some id /\ x ∈ todos a /\ has_id id (deref (heap a) x) = Normal true
  /\ heap a = heap a0 /\ todos a = todos a0 /\ storage a = storage a0.
Proof.
  unfold startEdit, bind at 1, gets at 1. unfold bind at 1.
  assert (Hc : (exists a1, (if truthy (option_map VStr (editingId a0)) then cancelEdit else ret tt) a0
                           = (a1, Normal tt) /\ heap a1 = heap a0 /\ todos a1 = todos a0
                             /\ storage a1 = storage a0)
               \/ exists a1 e, (if truthy (option_map VStr (editingId a0)) then cancelEdit else ret tt) a0
                           = (a1, Throw e)).
  { destruct (truthy _); [|left; by exists a0].
    unfold cancelEdit, bind, modify.
    destruct (render_cases (set_editingId None a0)) as [->|[e ->]]; [left|right]; eauto. }
  destruct Hc as [(a1 & -> & Hh & Ht & Hs)|(a1 & e & ->)]; [|done].
  unfold bind, modify, gets, lift. cbn [heap todos set_editingId].
  destruct (findM _ _ _) as [[y|]|] eqn:Hf; [| done | done].
  destruct (get_prop _ _); [|done]. unfold ret. intros [= <- <-].
  cbn [editingId heap todos storage set_editingId].
  apply findM_Some in Hf as [? ?]. rewrite <- Hh, <- Ht, <- Hs. done.
Qed.

(** C7.  [x] is the task that the closure of an edit session holds, the
    one [startEdit] returned.  When the session is committed with a text
    that, trimmed, is empty or is the text the task has, the task and the
    whole sequence stay as they are, storage is not written, and
    [editingId] is [null] afterwards; the log gains at most the render. *)
Theorem edit_same_text (a : App) (x : nat) (input : jsstring) :
  trim input = []
  \/ get_prop (str "text") (deref (heap a) x) = Normal (Some (VStr (trim input))) ->
  let a' := fst (finishEdit x input a) in
  heap a' = heap a /\ todos a' = todos a /\ view a' = view a
  /\ storage a' = storage a
  /\ editingId a' = None
  /\ (log a' = log a ++ [EvRender] \/ log a' = log a).
Proof.
  intros Htext. cbn zeta.
  assert (Hf : finishEdit x input a = render (set_editingId None a)).
  { unfold finishEdit. unfold bind at 1, gets at 1. unfold bind at 1.
    destruct Htext as [E|E].
    - rewrite E. cbn [bool_decide decide_rel negb]. unfold bind, ret, modify.
      by rewrite bool_decide_eq_true_2.
    - case_bool_decide as Hn; cbn [negb]; unfold bind, ret, modify, lift; [done|].
      rewrite E. cbn [is_str]. unfold str_eqb. by rewrite bool_decide_eq_true_2. }
  rewrite Hf.
  destruct (render_cases (set_editingId None a)) as [->|[e ->]]; cbn; auto 10.
Qed.

Lemma setItem_Normal (text : jsstring) (st st' : Storage) :
  setItem text st = Normal st' -> getItem st' = Some text.
Proof. unfold setItem. repeat case_match; intros [= <-]; done. Qed.

Lemma loadTodos_parsed (st : Storage) (c : cu) (r : jsstring) (v : value) :
  getItem st = Some (c :: r) -> JSON_parse (c :: r) = Some v -> loadTodos st = (v, []).
Proof. intros H1 H2. unfold loadTodos. by rewrite H1, H2. Qed.

(** When the storage area refuses the snapshot, [saveTodos] leaves the slot
    as it was and reports the failure. *)
Lemma save_rejected (a : App) (e : exn) :
  setItem (stringify (VArr (view a))) (storage a) = Throw e ->
  storage (fst (saveTodos a)) = storage a
  /\ view (fst (saveTodos a)) = view a
  /\ log (fst (saveTodos a))
     = log a ++ [EvConsoleError (str "Error saving todos:");
                 EvNotify (str "Error saving tasks!") error].
Proof.
  intros H. rewrite saveTodos_eq. cbn [fst]. unfold saved. rewrite H.
  cbn [storage log emit]. by rewrite <- app_assoc.
Qed.

(** C8.  For a store of tasks whose snapshot the storage area accepts,
    [loadTodos] after [saveTodos] returns the sequence, every task with all
    its fields and in the same order, and logs nothing. *)
Theorem save_load_roundtrip (a : App) (ts : list Task) (st : Storage) :
  view a = map task_obj ts ->
  setItem (stringify (VArr (view a))) (storage a) = Normal st ->
  loadTodos (storage (fst (saveTodos a))) = (VArr (map task_obj ts), []).
Proof.
  intros Hv Hset. rewrite saveTodos_eq. cbn [fst]. unfold saved. rewrite Hset.
  cbn [storage emit set_storage]. apply setItem_Normal in Hset. rewrite Hv in Hset.
  cbn [stringify] in Hset. change (str "[") with [ch "["] in Hset. cbn [app] in Hset.
  eapply loadTodos_parsed; [exact Hset|].
  apply (JSON_parse_stringify_tasks ts).
Qed.

Lemma view_assign (h : list cell) (items : list value) :
  map (fun x => cell_val (deref (h ++ map (fun v => Cell v []) items) x))
    (seq (length h) (length items)) = items.
Proof.
  revert h. induction items as [|v items IH]; intros h; [done|].
  cbn [map length seq]. f_equal.
  - unfold deref. by rewrite list_lookup_middle.
  - specialize (IH (h ++ [Cell v []])). rewrite length_app, Nat.add_1_r, <- app_assoc in IH.
    exact IH.
Qed.

(** C9.  When the text parses to an array, [importTodos] makes that array
    the sequence, element for element and in order, whatever the elements
    are. *)
Theorem import_replaces (a : App) (raw : jsstring) (items : list value) :
  JSON_parse raw = Some (VArr items) ->
  view (fst (importTodos raw a)) = items.
Proof.
  intros Hp. unfold importTodos, try_catch, bind at 1, lift at 1. rewrite Hp.
  unfold bind, assign_todos, modify. rewrite saveTodos_eq.
  set (a1 := set_todos _ _).
  assert (Hv : view a1 = items) by apply view_assign.
  destruct (render_cases (saved a1)) as [->|[e ->]];
    unfold showNotification, modify; cbn [fst]; by rewrite ?view_emit, saved_view.
Qed.

(** C3, at the failing inputs.  When the slot holds the text of an object
    or of a number, [loadTodos] returns that object or number, not an empty
    sequence; the constructor then throws in [render]. *)
Theorem load_non_array :
  let object := VObj [(str "a", VNum (str "1"))] in
  loadTodos (MkStorage (Some (stringify object)) None) = (object, [])
  /\ loadTodos (MkStorage (Some (str "42")) None) = (VNum (str "42"), [])
  /\ construct (MkStorage (Some (stringify object)) None) = None.
Proof. cbn zeta. repeat split. Qed.

Lemma load_absent (cap : option nat) : loadTodos (MkStorage None cap) = (VArr [], []).
Proof. reflexivity. Qed.

Lemma load_unparsable (st : Storage) (text : jsstring) :
  getItem st = Some text -> JSON_parse text = None ->
  loadTodos st = (VArr [], [EvConsoleError (str "Error loading todos:")])
  \/ (text = [] /\ loadTodos st = (VArr [], [])).
Proof.
  intros H1 H2. unfold loadTodos. rewrite H1. destruct text; [by right|]. rewrite H2. by left.
Qed.

End StoreFacts.

(** ** Sorting *)

Section Sorting.
Local Open Scope Z_scope.

Section sort_by_facts.
Context {A : Type} (key : A -> Z).

Lemma insert_by_perm (x : A) (s : list A) : insert_by key x s ≡ₚ x :: s.
Proof.
  induction s as [|y r IH]; [done|]. cbn [insert_by].
  destruct (key x - key y <=? 0); [done|]. rewrite IH. apply Permutation_swap.
Qed.

Lemma sort_by_perm (l : list A) : sort_by key l ≡ₚ l.
Proof.
  induction l as [|x l IH]; [done|]. cbn [sort_by]. by rewrite insert_by_perm, IH.
Qed.

Lemma insert_by_sorted (x : A) (s : list A) :
  StronglySorted (fun a b => key a <= key b) s ->
  StronglySorted (fun a b => key a <= key b) (insert_by key x s).
Proof.
  induction 1 as [|y r Hr IH Hy]; cbn [insert_by].
  - repeat constructor.
  - destruct (Z.leb_spec (key x - key y) 0) as [Hle|Hgt].
    + constructor; [by constructor|]. constructor; [lia|].
      eapply Forall_impl; [exact Hy|]. intros z Hz. cbn in Hz. lia.
    + constructor; [done|]. rewrite insert_by_perm. constructor; [lia|done].
Qed.

Lemma sort_by_sorted (l : list A) :
  StronglySorted (fun a b => key a <= key b) (sort_by key l).
Proof.
  induction l as [|x l IH]; [constructor|]. by apply insert_by_sorted.
Qed.

Lemma filter_insert_by (z : Z) (x : A) (s : list A) :
  filter (fun a => key a = z) (insert_by key x s)
  = filter (fun a => key a = z) (x :: s).
Proof.
  induction s as [|y r IH]; [done|]. cbn [insert_by].
  destruct (Z.leb_spec (key x - key y) 0) as [Hle|Hgt]; [done|].
  rewrite filter_cons, IH, !filter_cons.
  destruct (decide (key y = z)), (decide (key x = z)); try done. lia.
Qed.

(** Stability: elements with equal keys keep their order. *)
Lemma sort_by_stable (z : Z) (l : list A) :
  filter (fun a => key a = z) (sort_by key l) = filter (fun a => key a = z) l.
Proof.
  induction l as [|x l IH]; [done|]. cbn [sort_by].
  by rewrite filter_insert_by, !filter_cons, IH.
Qed.

Lemma insert_by_min (x : A) (s : list A) :
  Forall (fun y => key x <= key y) s -> insert_by key x s = x :: s.
Proof.
  destruct 1 as [|y r Hy _]; [done|]. cbn [insert_by].
  destruct (Z.leb_spec (key x - key y) 0); [done|lia].
Qed.

Lemma insert_by_app (x : A) (f s : list A) :
  Forall (fun y => key y < key x) f ->
  insert_by key x (f ++ s) = f ++ insert_by key x s.
Proof.
  induction 1 as [|y r Hy _ IH]; [done|]. cbn [app insert_by].
  destruct (Z.leb_spec (key x - key y) 0); [lia|]. by rewrite IH.
Qed.

(** The elements with the least key come first, in their original order. *)
Lemma sort_by_least_first (m : Z) (l : list A) :
  Forall (fun x => m <= key x) l ->
  sort_by key l
  = filter (fun x => key x = m) l ++ sort_by key (filter (fun x => key x <> m) l).
Proof.
  induction 1 as [|x l Hx Hl IH]; [done|]. cbn [sort_by]. rewrite IH, !filter_cons.
  destruct (decide (key x = m)) as [E|E].
  - destruct (decide (key x <> m)); [done|].
    apply insert_by_min. rewrite <- IH, sort_by_perm.
    eapply Forall_impl; [exact Hl|]. intros y Hy. cbn in Hy. lia.
  - destruct (decide (key x <> m)); [|done]. cbn [sort_by].
    apply insert_by_app. apply Forall_forall. intros y Hy.
    apply list_elem_of_filter in Hy as [Hy _]. lia.
Qed.

End sort_by_facts.

Lemma insert_by_map {A B : Type} (f : A -> B) (kA : A -> Z) (kB : B -> Z) (x : A) (s : list A) :
  kA x = kB (f x) -> Forall (fun y => kA y = kB (f y)) s ->
  map f (insert_by kA x s) = insert_by kB (f x) (map f s).
Proof.
  intros Hx. induction 1 as [|y s Hy Hs IHs]; [done|]. cbn [insert_by map].
  rewrite Hx, Hy. destruct (kB (f x) - kB (f y) <=? 0); [done|]. cbn [map]. by rewrite IHs.
Qed.

Lemma sort_by_map {A B : Type} (f : A -> B) (kA : A -> Z) (kB : B -> Z) (l : list A) :
  Forall (fun x => kA x = kB (f x)) l ->
  map f (sort_by kA l) = sort_by kB (map f l).
Proof.
  induction 1 as [|x l Hx Hl IH]; [done|]. cbn [sort_by map]. rewrite <- IH.
  apply insert_by_map; [done|]. by rewrite sort_by_perm.
Qed.

Lemma insertM_pure {A : Type} (cmp : A -> A -> completion Z) (key : A -> Z) (x : A) (s : list A) :
  Forall (fun y => cmp x y = Normal (key x - key y)) s ->
  insertM cmp x s = Normal (insert_by key x s).
Proof.
  induction 1 as [|y r Hy Hr IH]; [done|]. cbn [insertM insert_by]. rewrite Hy.
  destruct (key x - key y <=? 0); [done|]. by rewrite IH.
Qed.

Lemma sortM_pure {A : Type} (cmp : A -> A -> completion Z) (key : A -> Z) (l : list A) :
  (forall x y, x ∈ l -> y ∈ l -> cmp x y = Normal (key x - key y)) ->
  sortM cmp l = Normal (sort_by key l).
Proof.
  induction l as [|x l IH]; intros H; [done|]. cbn [sortM sort_by].
  rewrite IH by (intros; apply H; by right).
  apply insertM_pure. apply Forall_forall. intros y Hy.
  apply H; [left|right]. by rewrite sort_by_perm in Hy.
Qed.

(** *** Reordering a store of tasks *)

Lemma index_from_range (i : Z) (s : jsstring) (l : list jsstring) :
  ((s ∉ l) /\ index_from i s l = (-1)) \/ (s ∈ l /\ i <= index_from i s l).
Proof.
  revert i. induction l as [|t l IH]; intros i; cbn [index_from].
  - left. split; [|done]. by intros H%elem_of_nil.
  - unfold str_eqb. case_bool_decide as E.
    + right. split; [subst; left|lia].
    + destruct (IH (i + 1)) as [[H1 H2]|[H1 H2]].
      * left. split; [|done]. intros [?|?]%elem_of_cons; [by subst | done].
      * right. split; [by right|lia].
Qed.

Lemma position_absent (newOrder : list jsstring) (t : Task) :
  position newOrder t = (-1) <-> task_id t ∉ newOrder.
Proof.
  unfold position. destruct (index_from_range 0 (task_id t) newOrder) as [[H1 H2]|[H1 H2]].
  - by rewrite H2.
  - split; [lia|done].
Qed.

Lemma position_present (newOrder : list jsstring) (t : Task) :
  position newOrder t <> -1 <-> task_id t ∈ newOrder.
Proof.
  rewrite position_absent. split; [|by intros H Hn].
  intros H. by destruct (decide (task_id t ∈ newOrder)).
Qed.

Lemma position_ge (newOrder : list jsstring) (t : Task) : -1 <= position newOrder t.
Proof.
  unfold position. destruct (index_from_range 0 (task_id t) newOrder) as [[_ ->]|[_ ?]]; lia.
Qed.

Lemma view_tasks_Forall (a : App) (ts : list Task) :
  view a = map task_obj ts ->
  Forall (fun x => exists t, cell_val (deref (heap a) x) = task_obj t) (todos a).
Proof.
  unfold view. generalize (todos a) as l. intros l. revert ts.
  induction l as [|x l IH]; intros [|t ts] H; try discriminate; [constructor|].
  cbn [map] in H. injection H as Hx Hl. constructor; eauto.
Qed.

Lemma handleDrop_view (a : App) (ts : list Task) (newOrder : list jsstring) :
  view a = map task_obj ts ->
  view (fst (handleDrop newOrder a)) = map task_obj (sort_by (position newOrder) ts).
Proof.
  intros Hv. pose proof (view_tasks_Forall a ts Hv) as Hall.
  set (kx := fun x => order_key newOrder (cell_val (deref (heap a) x))).
  assert (Hcmp : forall x y, x ∈ todos a -> y ∈ todos a ->
            compare_order newOrder (heap a) x y = Normal (kx x - kx y)).
  { rewrite Forall_forall in Hall. intros x y Hx Hy.
    destruct (Hall x Hx) as [t Ht]. destruct (Hall y Hy) as [u Hu].
    unfold compare_order, kx, order_key, value_id.
    rewrite (proj1 (get_prop_task t _ Ht)), (proj1 (get_prop_task u _ Hu)), Ht, Hu. done. }
  unfold handleDrop, bind, gets, lift.
  rewrite (sortM_pure _ kx _ Hcmp). unfold modify. rewrite saveTodos_eq.
  unfold showNotification, modify. cbn [fst]. rewrite view_emit, saved_view.
  unfold view at 1. cbn [heap todos set_todos].
  rewrite (sort_by_map _ kx (order_key newOrder)) by (by apply Forall_forall).
  fold (view a). rewrite Hv. symmetry. apply sort_by_map. by apply Forall_forall.
Qed.

(** C1, as the code behaves.  On a store of tasks, after [handleDrop] the
    tasks whose id is not in [newOrder] come first, in their original
    relative order; after them come the tasks whose id is in [newOrder],
    ordered by the index of their id there, tasks with the same index in
    their original relative order. *)
Theorem reorder_by_index (a : App) (ts : list Task) (newOrder : list jsstring) :
  view a = map task_obj ts ->
  exists named : list Task,
    view (fst (handleDrop newOrder a))
      = map task_obj (filter (fun t => task_id t ∉ newOrder) ts ++ named)
    /\ named ≡ₚ filter (fun t => task_id t ∈ newOrder) ts
    /\ StronglySorted (fun t u => position newOrder t <= position newOrder u) named
    /\ forall k, 0 <= k ->
         filter (fun t => position newOrder t = k) named
         = filter (fun t => position newOrder t = k) ts.
Proof.
  intros Hv. exists (sort_by (position newOrder) (filter (fun t => task_id t ∈ newOrder) ts)).
  repeat split.
  - rewrite (handleDrop_view a ts newOrder Hv). f_equal.
    rewrite (sort_by_least_first (position newOrder) (-1))
      by (apply Forall_forall; intros; apply position_ge).
    f_equal; [|f_equal]; apply list_filter_iff; intros t.
    + apply position_absent.
    + apply position_present.
  - apply sort_by_perm.
  - apply sort_by_sorted.
  - intros k Hk. rewrite sort_by_stable, list_filter_filter. apply list_filter_iff.
    intros t. split; [by intros [? _]|]. intros H. split; [done|].
    apply position_present. lia.
Qed.

End Sorting.

(** ** What the operations keep *)

Section Preservation.
Local Open Scope nat_scope.

Lemma keeps_refl (a : App) : keeps_elements a a.
Proof. by repeat split. Qed.

Lemma keeps_trans (a b c : App) :
  keeps_elements a b -> keeps_elements b c -> keeps_elements a c.
Proof.
  intros (H1 & H2 & H3) (H1' & H2' & H3'). repeat split.
  - by etrans.
  - congruence.
  - intros y. by rewrite H3', H3.
Qed.

Lemma keeps_same (a a' : App) :
  heap a' = heap a -> todos a' = todos a -> keeps_elements a a'.
Proof. intros Hh Ht. unfold keeps_elements. rewrite Hh, Ht. by repeat split. Qed.

Lemma submseteq_NoDup {A} (l k : list A) : l ⊆+ k -> NoDup k -> NoDup l.
Proof.
  intros [k' Hk]%submseteq_Permutation Hnd. rewrite Hk in Hnd.
  by apply NoDup_app in Hnd as [? _].
Qed.

Lemma keeps_wf (a a' : App) : keeps_elements a a' -> wf a -> wf a'.
Proof.
  intros (Ht & Hl & _) [Hnd Hr]. split; [by eapply submseteq_NoDup|].
  rewrite Hl. apply Forall_forall. intros x Hx.
  rewrite Forall_forall in Hr. apply Hr. by eapply elem_of_submseteq.
Qed.

Lemma keeps_ids (a a' : App) : keeps_elements a a' -> ids a' ⊆+ ids a.
Proof.
  intros (Ht & _ & Hid). unfold ids.
  rewrite (map_ext _ _ Hid). by apply (fmap_submseteq _).
Qed.

Lemma keeps_unique (a a' : App) : keeps_elements a a' -> unique_ids a -> unique_ids a'.
Proof. intros H. apply submseteq_NoDup. by apply keeps_ids. Qed.

(** **** Writing [completed] or [text] leaves [id] alone *)

Lemma obj_get_put_ne (k k' : jsstring) (v : value) (o : list (jsstring * value)) :
  k <> k' -> obj_get k' (obj_put k v o) = obj_get k' o.
Proof.
  intros Hk. unfold obj_put. destruct (has_key k o).
  - induction o as [|[k0 v0] o IH]; [done|]. cbn [map fst snd]. unfold str_eqb at 1.
    destruct (decide (k0 = k)) as [->|E].
    + rewrite bool_decide_eq_true_2 by done. cbn [obj_get fst snd]. unfold str_eqb at 1 3.
      rewrite !bool_decide_eq_false_2 by done. exact IH.
    + rewrite bool_decide_eq_false_2 by done. cbn [obj_get fst snd]. by rewrite IH.
  - destruct (array_index k) as [n|].
    + induction o as [|[k0 v0] o IH]; cbn [insert_index obj_get fst snd].
      * unfold str_eqb. by rewrite bool_decide_eq_false_2.
      * assert (Hins : obj_get k' ((k, v) :: (k0, v0) :: o) = obj_get k' ((k0, v0) :: o)).
        { cbn [obj_get fst snd]. unfold str_eqb at 1. by rewrite bool_decide_eq_false_2. }
        destruct (array_index k0) as [m|]; [|exact Hins].
        destruct (N.ltb m n); [|exact Hins]. cbn [obj_get fst snd]. by rewrite IH.
    + induction o as [|[k0 v0] o IH]; cbn [app obj_get fst snd].
      * unfold str_eqb. by rewrite bool_decide_eq_false_2.
      * by rewrite IH.
Qed.

Lemma set_prop_id (k : jsstring) (v : value) (c c' : cell) :
  k <> str "id" -> set_prop k v c = Normal c' ->
  get_prop (str "id") c' = get_prop (str "id") c.
Proof.
  intros Hk. unfold set_prop, get_prop.
  destruct (cell_val c) eqn:E; intros [= <-]; cbn [cell_val cell_extra];
    by rewrite obj_get_put_ne.
Qed.

Lemma keeps_insert (a : App) (x : nat) (c' : cell) :
  get_prop (str "id") c' = get_prop (str "id") (deref (heap a) x) ->
  keeps_elements a (set_heap (<[x := c']> (heap a)) a).
Proof.
  intros Hid. repeat split; cbn [heap todos set_heap]; [done|by rewrite length_insert|].
  intros y. unfold deref in *. destruct (decide (y = x)) as [->|Hne].
  - destruct (decide (x < length (heap a))) as [Hlt|Hge].
    + by rewrite list_lookup_insert_eq.
    + by rewrite list_insert_ge by lia.
  - by rewrite list_lookup_insert_ne.
Qed.

Lemma keeps_set_todos (a : App) (l : list nat) :
  l ⊆+ todos a -> keeps_elements a (set_todos l a).
Proof. intros H. by repeat split. Qed.

Lemma keeps_saved (a : App) : keeps_elements a (saved a).
Proof. apply keeps_same; [apply saved_heap | apply saved_todos]. Qed.

Lemma keeps_render (a : App) : keeps_elements a (fst (render a)).
Proof. apply keeps_same; [apply render_heap | apply render_todos]. Qed.

Lemma keeps_emit (e : event) (a : App) : keeps_elements a (emit e a).
Proof. by apply keeps_same. Qed.

(** The common tail [saveTodos ;; render ;; showNotification]. *)
Lemma keeps_tail (m : M unit) (a : App) :
  (forall b, keeps_elements b (fst (m b))) ->
  keeps_elements a (fst ((saveTodos ;; render ;; m) a)).
Proof.
  intros Hm. unfold bind. rewrite saveTodos_eq.
  destruct (render_cases (saved a)) as [->|[e ->]]; cbn [fst].
  - eapply keeps_trans; [apply keeps_saved|].
    eapply keeps_trans; [apply keeps_emit|]. apply Hm.
  - apply keeps_saved.
Qed.

Lemma keeps_notify (msg : jsstring) (sev : severity) (b : App) :
  keeps_elements b (fst (showNotification msg sev b)).
Proof. apply keeps_emit. Qed.

Lemma filterM_sublist (p : cell -> completion bool) (h : list cell) (l l' : list nat) :
  filterM p h l = Normal l' -> l' `sublist_of` l.
Proof.
  revert l'. induction l as [|x l IH]; intros l'; cbn [filterM].
  - by intros [= <-].
  - destruct (p (deref h x)) as [b|]; [|done].
    destruct (filterM p h l) as [r|]; [|done]. intros [= <-].
    destruct b; [apply sublist_skip | apply sublist_cons]; by apply IH.
Qed.

Lemma insertM_perm {A} (cmp : A -> A -> completion Z) (x : A) (s s' : list A) :
  insertM cmp x s = Normal s' -> s' ≡ₚ x :: s.
Proof.
  revert s'. induction s as [|y r IH]; intros s'; cbn [insertM].
  - by intros [= <-].
  - destruct (cmp x y) as [z|]; [|done]. destruct (z <=? 0)%Z; [by intros [= <-]|].
    destruct (insertM cmp x r) as [r'|]; [|done]. intros [= <-].
    rewrite (IH r' eq_refl). apply Permutation_swap.
Qed.

Lemma sortM_perm {A} (cmp : A -> A -> completion Z) (l l' : list A) :
  sortM cmp l = Normal l' -> l' ≡ₚ l.
Proof.
  revert l'. induction l as [|x l IH]; intros l'; cbn [sortM].
  - by intros [= <-].
  - destruct (sortM cmp l) as [s|]; [|done]. intros H%insertM_perm.
    by rewrite H, (IH s eq_refl).
Qed.

Lemma not_id_completed : str "completed" <> str "id".
Proof. discriminate. Qed.

Lemma not_id_text : str "text" <> str "id".
Proof. discriminate. Qed.

Lemma toggleTodo_keeps (id : jsstring) (a : App) : keeps_elements a (fst (toggleTodo id a)).
Proof.
  unfold toggleTodo. unfold bind at 1, gets at 1. unfold bind at 1, lift at 1.
  destruct (findM _ _ _) as [[x|]|]; try apply keeps_refl.
  destruct (truthy _); [|apply keeps_refl].
  unfold bind at 1, lift at 1. destruct (get_prop _ _) as [old|]; [|apply keeps_refl].
  unfold bind at 1, lift at 1.
  destruct (set_prop _ _ _) as [c'|] eqn:Hset; [|apply keeps_refl].
  unfold bind at 1, modify at 1.
  eapply keeps_trans; [apply keeps_insert, (set_prop_id _ _ _ _ not_id_completed Hset)|].
  apply keeps_tail. intros b. destruct (negb _); apply keeps_notify.
Qed.

Lemma deleteTodo_keeps (id : jsstring) (a : App) : keeps_elements a (fst (deleteTodo id a)).
Proof.
  unfold deleteTodo. unfold bind at 1, gets at 1. unfold bind at 1, lift at 1.
  destruct (filterM _ _ _) as [kept|] eqn:Hf; [|apply keeps_refl].
  unfold bind at 1, modify at 1.
  eapply keeps_trans; [apply (keeps_set_todos a kept)|].
  { by eapply sublist_submseteq, filterM_sublist. }
  apply keeps_tail. apply keeps_notify.
Qed.

Lemma cancelEdit_keeps (a : App) : keeps_elements a (fst (cancelEdit a)).
Proof.
  unfold cancelEdit, bind, modify.
  destruct (render_cases (set_editingId None a)) as [->|[e ->]]; by apply keeps_same.
Qed.

Lemma setFilter_keeps (f : jsstring) (a : App) : keeps_elements a (fst (setFilter f a)).
Proof.
  unfold setFilter, bind, modify.
  destruct (render_cases (set_currentFilter f a)) as [->|[e ->]]; by apply keeps_same.
Qed.

Lemma startEdit_keeps (id : jsstring) (a : App) : keeps_elements a (fst (startEdit id a)).
Proof.
  unfold startEdit. unfold bind at 1, gets at 1. unfold bind at 1.
  assert (Hc : keeps_elements a
            (fst ((if truthy (option_map VStr (editingId a)) then cancelEdit else ret tt) a))).
  { destruct (truthy _); [apply cancelEdit_keeps | apply keeps_refl]. }
  destruct ((if truthy _ then cancelEdit else ret tt) a) as [a1 [[]|e]]; cbn [fst] in Hc; [|done].
  eapply keeps_trans; [exact Hc|].
  unfold bind, modify, gets, lift. cbn [heap todos set_editingId].
  destruct (findM _ _ _) as [[y|]|]; try by apply keeps_same.
  destruct (get_prop _ _); by apply keeps_same.
Qed.

Lemma finishEdit_keeps (x : nat) (input : jsstring) (a : App) :
  keeps_elements a (fst (finishEdit x input a)).
Proof.
  unfold finishEdit. unfold bind at 1, gets at 1. unfold bind at 1.
  assert (Hch : exists changed,
    (if negb (bool_decide (trim input = []))
     then do cur <- lift (get_prop (str "text") (deref (heap a) x)); ret (negb (is_str (trim input) cur))
     else ret false) a = (a, Normal changed)
    \/ exists e, (if negb (bool_decide (trim input = []))
     then do cur <- lift (get_prop (str "text") (deref (heap a) x)); ret (negb (is_str (trim input) cur))
     else ret false) a = (a, Throw e)).
  { destruct (negb _); [|exists false; by left]. unfold bind, lift, ret.
    destruct (get_prop _ _); [eexists; by left|exists false; right; eauto]. }
  destruct Hch as [changed [->|[e ->]]]; [|apply keeps_refl].
  match goal with |- keeps_elements a (fst (bind ?m _ a)) => set (upd := m) end.
  assert (Hup : keeps_elements a (fst (upd a))).
  { subst upd. destruct changed; [|apply keeps_refl]. unfold bind at 1, lift at 1.
    destruct (set_prop _ _ _) as [c'|] eqn:Hset; [|apply keeps_refl].
    unfold bind, modify. rewrite saveTodos_eq. unfold showNotification, modify. cbn [fst].
    eapply keeps_trans; [apply keeps_insert, (set_prop_id _ _ _ _ not_id_text Hset)|].
    eapply keeps_trans; [apply keeps_saved | apply keeps_emit]. }
  unfold bind at 1.
  destruct (upd a) as [a1 [[]|e]]; cbn [fst] in Hup; [|done].
  eapply keeps_trans; [exact Hup|].
  unfold bind, modify.
  destruct (render_cases (set_editingId None a1)) as [->|[e ->]]; by apply keeps_same.
Qed.

Lemma clearCompleted_keeps (answer : bool) (a : App) :
  keeps_elements a (fst (clearCompleted answer a)).
Proof.
  unfold clearCompleted. unfold bind at 1, gets at 1. unfold bind at 1, lift at 1.
  destruct (filterM is_completed _ _) as [completed|]; [|apply keeps_refl].
  destruct (length completed =? 0); [apply keeps_refl|].
  unfold bind at 1, modify at 1. destruct answer; [|by apply keeps_same].
  unfold bind at 1, lift at 1. cbn [heap todos emit].
  destruct (filterM is_active _ _) as [kept|] eqn:Hf; [|by apply keeps_same].
  unfold bind at 1, modify at 1.
  eapply keeps_trans; [|apply keeps_tail, keeps_notify].
  repeat split; cbn [todos heap set_todos emit]; [|done..].
  by eapply sublist_submseteq, filterM_sublist.
Qed.

Lemma complete_one_keeps (x : nat) (a : App) : keeps_elements a (fst (complete_one x a)).
Proof.
  unfold complete_one, bind, gets, lift, modify.
  destruct (set_prop _ _ _) as [c'|] eqn:Hset; [|apply keeps_refl].
  apply keeps_insert, (set_prop_id _ _ _ _ not_id_completed Hset).
Qed.

Lemma forEachM_keeps (f : nat -> M unit) (l : list nat) :
  (forall x b, keeps_elements b (fst (f x b))) ->
  forall a, keeps_elements a (fst (forEachM f l a)).
Proof.
  intros Hf. induction l as [|x l IH]; intros a; [apply keeps_refl|].
  cbn [forEachM]. unfold bind. pose proof (Hf x a) as Hx.
  destruct (f x a) as [a1 [[]|e]]; cbn [fst] in *; [|done].
  eapply keeps_trans; [exact Hx | apply IH].
Qed.

Lemma markAllComplete_keeps (a : App) : keeps_elements a (fst (markAllComplete a)).
Proof.
  unfold markAllComplete. unfold bind at 1, gets at 1. unfold bind at 1, lift at 1.
  destruct (filterM _ _ _) as [inc|]; [|apply keeps_refl].
  destruct (length inc =? 0); [apply keeps_refl|].
  unfold bind at 1.
  pose proof (forEachM_keeps complete_one (todos a) complete_one_keeps a) as Hall.
  destruct (forEachM complete_one (todos a) a) as [a1 [[]|e]]; cbn [fst] in Hall; [|done].
  eapply keeps_trans; [exact Hall | apply keeps_tail, keeps_notify].
Qed.

Lemma handleDrop_keeps (newOrder : list jsstring) (a : App) :
  keeps_elements a (fst (handleDrop newOrder a)).
Proof.
  unfold handleDrop. unfold bind at 1, gets at 1. unfold bind at 1, lift at 1.
  destruct (sortM _ _) as [sorted|] eqn:Hs; [|apply keeps_refl].
  unfold bind, modify. rewrite saveTodos_eq. unfold showNotification, modify. cbn [fst].
  eapply keeps_trans; [apply (keeps_set_todos a sorted)|].
  { by eapply Permutation_submseteq, sortM_perm. }
  eapply keeps_trans; [apply keeps_saved | apply keeps_emit].
Qed.

(** **** Operations that bring in new elements *)

Lemma tail_same (m : M unit) (a : App) :
  (forall b, heap (fst (m b)) = heap b /\ todos (fst (m b)) = todos b) ->
  heap (fst ((saveTodos ;; render ;; m) a)) = heap a
  /\ todos (fst ((saveTodos ;; render ;; m) a)) = todos a.
Proof.
  intros Hm. unfold bind. rewrite saveTodos_eq.
  destruct (render_cases (saved a)) as [->|[e ->]]; cbn [fst].
  - destruct (Hm (emit EvRender (saved a))) as [-> ->]. cbn [heap todos emit].
    by rewrite saved_heap, saved_todos.
  - by rewrite saved_heap, saved_todos.
Qed.

Lemma ids_app_heap (h h' : list cell) (l : list nat) :
  Forall (fun x => x < length h) l ->
  map (fun x => get_prop (str "id") (deref (h ++ h') x)) l
  = map (fun x => get_prop (str "id") (deref h x)) l.
Proof.
  induction 1 as [|x l Hx _ IH]; [done|]. cbn [map]. by rewrite deref_app_l, IH.
Qed.

Lemma addTodo_state (text : jsstring) (now : Z) (iso : jsstring) (a : App) :
  wf a ->
  wf (fst (addTodo text now iso a))
  /\ ids (fst (addTodo text now iso a)) = Normal (Some (VStr (Z_to_str now))) :: ids a.
Proof.
  intros [Hnd Hr].
  set (a1 := set_todos (length (heap a) :: todos a)
               (set_heap (heap a ++ [Cell (new_todo text now iso) []]) a)).
  change (addTodo text now iso a)
    with ((saveTodos ;; render ;; showNotification (str "Task added successfully!") success) a1).
  destruct (tail_same (showNotification (str "Task added successfully!") success) a1)
    as [Hh Ht]; [done|].
  unfold wf, ids. rewrite Hh, Ht. unfold a1. cbn [heap todos set_todos set_heap map].
  rewrite deref_fresh, ids_app_heap by done. repeat split.
  - apply NoDup_cons. split; [|done]. intros Hin.
    rewrite Forall_forall in Hr. specialize (Hr _ Hin). lia.
  - rewrite length_app. cbn [length]. constructor; [lia|].
    eapply Forall_impl; [exact Hr|]. intros x Hx. cbn in Hx. lia.
Qed.

Lemma ids_assign (h : list cell) (items : list value) :
  map (fun x => get_prop (str "id") (deref (h ++ map (fun v => Cell v []) items) x))
    (seq (length h) (length items)) = map value_id items.
Proof.
  revert h. induction items as [|v items IH]; intros h; [done|].
  cbn [map length seq]. f_equal.
  - unfold deref. by rewrite list_lookup_middle.
  - specialize (IH (h ++ [Cell v []])). rewrite length_app, Nat.add_1_r, <- app_assoc in IH.
    exact IH.
Qed.

Lemma importTodos_accepted (raw : jsstring) (items : list value) (a : App) :
  JSON_parse raw = Some (VArr items) ->
  importTodos raw a =
    match (saveTodos ;; render ;; showNotification (str "Todos imported successfully!") success)
            (set_todos (seq (length (heap a)) (length items))
               (set_heap (heap a ++ map (fun v => Cell v []) items) a)) with
    | (s', Normal x) => (s', Normal x)
    | (s', Throw _) => showNotification (str "Error importing todos!") error s'
    end.
Proof.
  intros Hp. unfold importTodos, try_catch. unfold bind at 1, lift at 1. by rewrite Hp.
Qed.

Lemma importTodos_heap_todos (raw : jsstring) (items : list value) (a : App) :
  JSON_parse raw = Some (VArr items) ->
  heap (fst (importTodos raw a)) = heap a ++ map (fun v => Cell v []) items
  /\ todos (fst (importTodos raw a)) = seq (length (heap a)) (length items).
Proof.
  intros Hp. rewrite (importTodos_accepted raw items a Hp).
  set (a1 := set_todos _ _).
  destruct (tail_same (showNotification (str "Todos imported successfully!") success) a1)
    as [Hh Ht]; [done|].
  destruct ((saveTodos ;; render ;; showNotification _ _) a1) as [s' [[]|e]];
    cbn [fst] in *; unfold showNotification, modify; cbn [fst heap todos emit];
    by rewrite Hh, Ht.
Qed.

Lemma importTodos_state (raw : jsstring) (items : list value) (a : App) :
  JSON_parse raw = Some (VArr items) ->
  wf (fst (importTodos raw a)) /\ ids (fst (importTodos raw a)) = map value_id items.
Proof.
  intros Hp. destruct (importTodos_heap_todos raw items a Hp) as [Hh Ht].
  unfold wf, ids. rewrite Hh, Ht. repeat split.
  - apply NoDup_seq.
  - apply Forall_forall. intros x Hx%elem_of_seq. rewrite length_app, length_map. lia.
  - apply ids_assign.
Qed.

Lemma importTodos_rejected (raw : jsstring) (a : App) :
  (forall items, JSON_parse raw <> Some (VArr items)) ->
  importTodos raw a = (emit (EvNotify (str "Error importing todos!") error) a, Normal tt).
Proof.
  intros Hp. unfold importTodos, try_catch, bind, lift, throw.
  destruct (JSON_parse raw) as [[]|]; try reflexivity. by destruct (Hp items).
Qed.

Lemma handleSubmit_wf (input : jsstring) (now : Z) (iso : jsstring) (a : App) :
  wf a -> wf (fst (handleSubmit input now iso a)).
Proof.
  intros Hwf. unfold handleSubmit. destruct (negb _); [|done]. by apply addTodo_state.
Qed.

Lemma construct_wf (st : Storage) (a : App) : construct st = Some a -> wf a.
Proof.
  unfold construct. destruct (loadTodos st) as [[] evs]; try done.
  set (a0 := MkApp _ _ _ _ _ _). pose proof (keeps_render a0) as Hk.
  destruct (render a0) as [a1 [[]|e]]; [|done]. intros [= <-].
  apply (keeps_wf a0); [done|]. split; cbn [heap todos a0].
  - apply NoDup_seq.
  - apply Forall_forall. intros x Hx%elem_of_seq. rewrite length_map. lia.
Qed.

(** The invariant [wf] holds when the application starts and is kept by
    every operation. *)
Lemma wf_preserved (a : App) :
  wf a ->
  (forall input now iso, wf (fst (handleSubmit input now iso a)))
  /\ (forall id, wf (fst (toggleTodo id a)))
  /\ (forall id, wf (fst (startEdit id a)))
  /\ (forall x input, wf (fst (finishEdit x input a)))
  /\ wf (fst (cancelEdit a))
  /\ (forall id, wf (fst (deleteTodo id a)))
  /\ (forall newOrder, wf (fst (handleDrop newOrder a)))
  /\ (forall answer, wf (fst (clearCompleted answer a)))
  /\ wf (fst (markAllComplete a))
  /\ (forall f, wf (fst (setFilter f a)))
  /\ (forall raw, wf (fst (importTodos raw a))).
Proof.
  intros Hwf. repeat match goal with |- _ /\ _ => split end; intros.
  - by apply handleSubmit_wf.
  - by eapply keeps_wf, Hwf; apply toggleTodo_keeps.
  - by eapply keeps_wf, Hwf; apply startEdit_keeps.
  - by eapply keeps_wf, Hwf; apply finishEdit_keeps.
  - by eapply keeps_wf, Hwf; apply cancelEdit_keeps.
  - by eapply keeps_wf, Hwf; apply deleteTodo_keeps.
  - by eapply keeps_wf, Hwf; apply handleDrop_keeps.
  - by eapply keeps_wf, Hwf; apply clearCompleted_keeps.
  - by eapply keeps_wf, Hwf; apply markAllComplete_keeps.
  - by eapply keeps_wf, Hwf; apply setFilter_keeps.
  - destruct (JSON_parse raw) as [v|] eqn:Hp.
    + destruct v as [| | | |items|]; try (rewrite importTodos_rejected; [done|congruence]).
      by apply importTodos_state with (items := items).
    + rewrite importTodos_rejected; [done|congruence].
Qed.

(** C2, as the code behaves.  From a state whose ids are unique: adding
    keeps them unique when the decimal numeral of the clock value is not yet
    an id; toggling, committing an edit, deleting, reordering, clearing the
    completed and completing all always keep them unique; after an import
    they are unique exactly when they are so in the imported array. *)
Theorem ids_preserved (a : App) :
  wf a -> unique_ids a ->
  (forall input now iso,
      Normal (Some (VStr (Z_to_str now))) ∉ ids a ->
      unique_ids (fst (handleSubmit input now iso a)))
  /\ (forall id, unique_ids (fst (toggleTodo id a)))
  /\ (forall x input, unique_ids (fst (finishEdit x input a)))
  /\ (forall id, unique_ids (fst (deleteTodo id a)))
  /\ (forall newOrder, unique_ids (fst (handleDrop newOrder a)))
  /\ (forall answer, unique_ids (fst (clearCompleted answer a)))
  /\ unique_ids (fst (markAllComplete a))
  /\ (forall raw items,
        JSON_parse raw = Some (VArr items) ->
        (unique_ids (fst (importTodos raw a)) <-> NoDup (map value_id items))).
Proof.
  intros Hwf Hu. repeat split.
  - intros input now iso Hfresh. unfold handleSubmit. destruct (negb _); [|done].
    unfold unique_ids. rewrite (proj2 (addTodo_state _ now iso a Hwf)).
    by apply NoDup_cons.
  - intros id. by eapply keeps_unique, Hu; apply toggleTodo_keeps.
  - intros x input. by eapply keeps_unique, Hu; apply finishEdit_keeps.
  - intros id. by eapply keeps_unique, Hu; apply deleteTodo_keeps.
  - intros newOrder. by eapply keeps_unique, Hu; apply handleDrop_keeps.
  - intros answer. by eapply keeps_unique, Hu; apply clearCompleted_keeps.
  - by eapply keeps_unique, Hu; apply markAllComplete_keeps.
  - unfold unique_ids. by rewrite (proj2 (importTodos_state raw items a H)).
  - unfold unique_ids. by rewrite (proj2 (importTodos_state raw items a H)).
Qed.

End Preservation.

(** ** When [render] throws, and filtering a store of tasks *)

Section Rendering.
Local Open Scope nat_scope.

(** *** What [render] does *)

Lemma get_prop_null (k : jsstring) (c : cell) :
  get_prop k c = Throw TypeError /\ is_null (cell_val c) = true
  \/ (exists x, get_prop k c = Normal x) /\ is_null (cell_val c) = false.
Proof. unfold get_prop. destruct (cell_val c); eauto. Qed.

Lemma reads_is_active : reads is_active.
Proof.
  intros c. unfold is_active. destruct (get_prop_null (str "completed") c)
    as [[-> ?]|[[x ->] ?]]; eauto.
Qed.

Lemma reads_is_completed : reads is_completed.
Proof.
  intros c. unfold is_completed. destruct (get_prop_null (str "completed") c)
    as [[-> ?]|[[x ->] ?]]; eauto.
Qed.

Lemma reads_has_other_id (id : jsstring) : reads (has_other_id id).
Proof.
  intros c. unfold has_other_id. destruct (get_prop_null (str "id") c)
    as [[-> ?]|[[x ->] ?]]; eauto.
Qed.

Lemma filterM_reads (p : cell -> completion bool) (h : list cell) (l : list nat) :
  reads p ->
  if existsb is_null (map (fun x => cell_val (deref h x)) l)
  then filterM p h l = Throw TypeError
  else exists l', filterM p h l = Normal l' /\ l' `sublist_of` l.
Proof.
  intros Hp. induction l as [|x l IH]; cbn [map existsb filterM]; [by exists []|].
  destruct (Hp (deref h x)) as [[-> ->]|[[b ->] ->]]; [done|]. cbn [orb].
  destruct (existsb _ _).
  - by rewrite IH.
  - destruct IH as (l' & -> & Hl). destruct b; eexists; split; try done.
    + by apply sublist_skip.
    + by apply sublist_cons.
Qed.

Lemma existsb_sublist {A} (f : A -> bool) (l' l : list A) :
  l' `sublist_of` l -> existsb f l = false -> existsb f l' = false.
Proof.
  induction 1 as [|x l1 l2 _ IH|x l1 l2 _ IH]; cbn [existsb]; [done| |].
  - intros [-> H]%orb_false_elim. by rewrite IH.
  - intros [_ H]%orb_false_elim. by apply IH.
Qed.

Lemma forEachM_createTodoElement_eq (h : list cell) (l : list nat) (a : App) :
  forEachM (createTodoElement h) l a
  = (a, if existsb is_null (map (fun x => cell_val (deref h x)) l)
        then Throw TypeError else Normal tt).
Proof.
  induction l as [|x l IH]; [done|]. cbn [forEachM map existsb].
  unfold bind at 1. unfold createTodoElement at 1, bind, lift, ret.
  destruct (get_prop_null (str "completed") (deref h x)) as [[-> ->]|[[v ->] Hn]]; [done|].
  rewrite Hn. cbn [orb].
  destruct (get_prop_null (str "id") (deref h x)) as [[_ E]|[[v1 ->] _]]; [congruence|].
  destruct (get_prop_null (str "text") (deref h x)) as [[_ E]|[[v2 ->] _]]; [congruence|].
  exact IH.
Qed.

(** [render] throws exactly when an element of the array is [null]. *)
Lemma render_eq (a : App) :
  render a = if has_null a then (a, Throw TypeError) else (emit EvRender a, Normal tt).
Proof.
  unfold render, has_null, view.
  pose proof (filterM_reads is_active (heap a) (todos a) reads_is_active) as Ha.
  pose proof (filterM_reads is_completed (heap a) (todos a) reads_is_completed) as Hc.
  unfold bind at 1. unfold getFilteredTodos, bind at 1, gets at 1.
  destruct (existsb _ _) eqn:Hnull.
  - destruct (str_eqb _ _); [unfold lift; by rewrite Ha|].
    destruct (str_eqb _ _); [unfold lift; by rewrite Hc|].
    unfold ret, bind, gets. by rewrite forEachM_createTodoElement_eq, Hnull.
  - destruct Ha as (la & Ha & Hla). destruct Hc as (lc & Hc & Hlc).
    assert (Hfin : forall l', l' `sublist_of` todos a ->
              (do a0 <- gets (fun a0 => a0);
               forEachM (createTodoElement (heap a0)) l' ;;
               lift (filterM is_active (heap a0) (todos a0)) ;;
               modify (emit EvRender)) a = (emit EvRender a, Normal tt)).
    { intros l' Hl'. unfold bind, gets. rewrite forEachM_createTodoElement_eq.
      assert (E : existsb is_null (map (fun x => cell_val (deref (heap a) x)) l') = false).
      { eapply existsb_sublist; [|exact Hnull]. by apply (fmap_sublist _). }
      rewrite E. unfold lift. by rewrite Ha. }
    destruct (str_eqb _ _); [unfold lift; rewrite Ha; by apply Hfin|].
    destruct (str_eqb _ _); [unfold lift; rewrite Hc; by apply Hfin|].
    by apply Hfin.
Qed.

Lemma tasks_no_null (ts : list Task) : existsb is_null (map task_obj ts) = false.
Proof. induction ts as [|t ts IH]; [done|]. cbn. exact IH. Qed.

Lemma render_tasks (a : App) (ts : list Task) :
  view a = map task_obj ts -> render a = (emit EvRender a, Normal tt).
Proof. intros Hv. rewrite render_eq. unfold has_null. by rewrite Hv, tasks_no_null. Qed.

(** *** Filtering a store of tasks *)

Lemma filterM_tasks (p : cell -> completion bool) (P : Task -> Prop)
    `{!forall t, Decision (P t)} (h : list cell) (l : list nat) (ts : list Task) :
  (forall c t, cell_val c = task_obj t -> p c = Normal (bool_decide (P t))) ->
  map (fun x => cell_val (deref h x)) l = map task_obj ts ->
  exists l', filterM p h l = Normal l'
    /\ map (fun x => cell_val (deref h x)) l' = map task_obj (filter P ts)
    /\ l' `sublist_of` l.
Proof.
  intros Hp. revert ts. induction l as [|x l IH]; intros [|t ts] Hv; try discriminate.
  - by exists [].
  - cbn [map] in Hv. injection Hv as Hx Hl. destruct (IH ts Hl) as (l' & Hf & Hv' & Hs).
    cbn [filterM]. rewrite (Hp _ t Hx), Hf, filter_cons.
    case_bool_decide as HP; rewrite decide_bool_decide; case_bool_decide; try done.
    + exists (x :: l'). repeat split; [|by apply sublist_skip]. cbn [map]. by rewrite Hx, Hv'.
    + exists l'. repeat split; [done|by apply sublist_cons].
Qed.

Lemma is_completed_task (c : cell) (t : Task) :
  cell_val c = task_obj t -> is_completed c = Normal (bool_decide (task_completed t = true)).
Proof.
  intros H. unfold is_completed, get_prop. rewrite H. cbn.
  by destruct (task_completed t).
Qed.

Lemma is_active_task (c : cell) (t : Task) :
  cell_val c = task_obj t -> is_active c = Normal (bool_decide (task_completed t = false)).
Proof.
  intros H. unfold is_active, get_prop. rewrite H. cbn.
  by destruct (task_completed t).
Qed.

Lemma has_other_id_task (id : jsstring) (c : cell) (t : Task) :
  cell_val c = task_obj t -> has_other_id id c = Normal (bool_decide (task_id t <> id)).
Proof.
  intros H. unfold has_other_id, get_prop. rewrite H. cbn. unfold str_eqb.
  by rewrite bool_decide_not.
Qed.

End Rendering.

(** ** Deleting and clearing *)

Section Removing.
Local Open Scope nat_scope.

(** The tail [saveTodos ;; render ;; showNotification] on a store of tasks. *)
Lemma tail_tasks (msg : jsstring) (sev : severity) (a : App) (ts : list Task) :
  view a = map task_obj ts ->
  (saveTodos ;; render ;; showNotification msg sev) a
  = (emit (EvNotify msg sev) (emit EvRender (saved a)), Normal tt).
Proof.
  intros Hv. unfold bind. rewrite saveTodos_eq.
  rewrite (render_tasks (saved a) ts) by (by rewrite saved_view). done.
Qed.

Lemma view_set_todos (l : list nat) (a : App) :
  view (set_todos l a) = map (fun x => cell_val (deref (heap a) x)) l.
Proof. reflexivity. Qed.

(** *** deleteTodo *)

Lemma deleteTodo_tasks (a : App) (ts : list Task) (id : jsstring) :
  view a = map task_obj ts ->
  exists kept,
    map (fun x => cell_val (deref (heap a) x)) kept
      = map task_obj (filter (fun t => task_id t <> id) ts)
    /\ deleteTodo id a
       = (emit (EvNotify (str "Task deleted!") info)
            (emit EvRender (saved (set_todos kept a))), Normal tt).
Proof.
  intros Hv.
  destruct (filterM_tasks (has_other_id id) (fun t => task_id t <> id)
              (heap a) (todos a) ts (has_other_id_task id) Hv) as (kept & Hf & Hk & _).
  exists kept. split; [done|].
  unfold deleteTodo. unfold bind at 1, gets at 1. unfold bind at 1, lift at 1. rewrite Hf.
  unfold bind at 1, modify at 1.
  by apply (tail_tasks _ _ _ (filter (fun t => task_id t <> id) ts)).
Qed.

Lemma filter_all {A} (P : A -> Prop) `{!forall x, Decision (P x)} (l : list A) :
  Forall P l -> filter P l = l.
Proof.
  induction 1 as [|x l Hx _ IH]; [done|]. by rewrite filter_cons_True, IH.
Qed.

Lemma filter_none {A} (P : A -> Prop) `{!forall x, Decision (P x)} (l : list A) :
  Forall (fun x => ~ P x) l -> filter P l = [].
Proof.
  induction 1 as [|x l Hx _ IH]; [done|]. by rewrite filter_cons_False.
Qed.

Lemma filter_other_length (id : jsstring) (ts : list Task) :
  NoDup (map task_id ts) -> id ∈ map task_id ts ->
  S (length (filter (fun t => task_id t <> id) ts)) = length ts.
Proof.
  induction ts as [|t ts IH]; cbn [map]; [by intros _ ?%elem_of_nil|].
  intros [Hnin Hnd]%NoDup_cons Hin. rewrite filter_cons.
  destruct (decide (task_id t <> id)) as [Hne|He].
  - cbn [length]. f_equal. apply IH; [done|].
    apply elem_of_cons in Hin as [?|?]; [congruence|done].
  - assert (task_id t = id) as <- by (by destruct (decide (task_id t = id))).
    cbn [length]. f_equal. f_equal. apply filter_all.
    apply Forall_forall. intros u Hu E. apply Hnin. rewrite <- E.
    apply list_elem_of_fmap. by exists u.
Qed.

(** X1.  [deleteTodo] on a store of tasks removes every task with the id
    and nothing else: the tasks that stay keep their order, the id is gone,
    an id that was absent leaves the sequence as it was, and when ids are
    unique exactly one task goes. *)
Theorem delete_removes (a : App) (ts : list Task) (id : jsstring) :
  view a = map task_obj ts ->
  let a' := fst (deleteTodo id a) in
  view a' = map task_obj (filter (fun t => task_id t <> id) ts)
  /\ snd (deleteTodo id a) = Normal tt
  /\ (id ∉ map task_id ts -> view a' = view a)
  /\ (NoDup (map task_id ts) -> id ∈ map task_id ts ->
      S (length (view a')) = length (view a))
  /\ toggleTodo id a' = (a', Normal tt).
Proof.
  intros Hv. cbn zeta. destruct (deleteTodo_tasks a ts id Hv) as (kept & Hk & ->).
  cbn [fst snd]. rewrite !view_emit, saved_view, view_set_todos, Hk.
  split; [done|]. split; [done|]. split; [|split].
  - intros Hn. rewrite Hv. f_equal. apply filter_all. by apply absent_Forall.
  - intros Hnd Hin. rewrite Hv, !length_map. by apply filter_other_length.
  - apply toggleTodo_absent. cbn [heap todos emit]. rewrite saved_heap, saved_todos.
    cbn [heap todos set_todos].
    destruct (findM_tasks id (heap a) kept _ Hk) as [[Hf _]|(i & x & t & _ & (Ht & Hid & _) & _)];
      [done|].
    apply list_elem_of_lookup_2, list_elem_of_filter in Ht as [Hne _]. done.
Qed.

(** *** clearCompleted *)

Lemma clearCompleted_count (a : App) (ts : list Task) :
  view a = map task_obj ts ->
  exists completed,
    filterM is_completed (heap a) (todos a) = Normal completed
    /\ length completed = length (filter (fun t => task_completed t = true) ts).
Proof.
  intros Hv.
  destruct (filterM_tasks is_completed (fun t => task_completed t = true)
              (heap a) (todos a) ts is_completed_task Hv) as (l & Hf & Hl & _).
  exists l. split; [done|].
  by rewrite <- (length_map (fun x => cell_val (deref (heap a) x))), Hl, length_map.
Qed.

(** X2.  With no completed task, [clearCompleted] asks nothing and returns
    the state as it was. *)
Theorem clear_nothing (a : App) (ts : list Task) (answer : bool) :
  view a = map task_obj ts ->
  Forall (fun t => task_completed t = false) ts ->
  clearCompleted answer a = (a, Normal tt).
Proof.
  intros Hv Hall. destruct (clearCompleted_count a ts Hv) as (l & Hf & Hlen).
  rewrite filter_none in Hlen.
  2:{ eapply Forall_impl; [exact Hall|]. intros t E. cbn in E. congruence. }
  unfold clearCompleted, bind, gets, lift. rewrite Hf, Hlen. done.
Qed.

(** X3.  With [n > 0] completed tasks, [clearCompleted] asks for
    confirmation, naming [n].  Declined, nothing else happens.  Confirmed,
    exactly the completed tasks go, the others keep their order, and the
    notification names [n]. *)
Theorem clear_confirmed (a : App) (ts : list Task) (answer : bool) :
  view a = map task_obj ts ->
  Exists (fun t => task_completed t = true) ts ->
  let n := N_to_str (N.of_nat (length (filter (fun t => task_completed t = true) ts))) in
  let asked := emit (EvConfirm (str "Are you sure you want to delete " ++ n
                                ++ str " completed task(s)?") answer) a in
  let a' := fst (clearCompleted answer a) in
  if answer then
    view a' = map task_obj (filter (fun t => task_completed t = false) ts)
    /\ length (view a') + length (filter (fun t => task_completed t = true) ts)
       = length (view a)
    /\ exists kept,
         clearCompleted answer a
         = (emit (EvNotify (n ++ str " completed task(s) deleted!") info)
              (emit EvRender (saved (set_todos kept asked))), Normal tt)
  else clearCompleted answer a = (asked, Normal tt).
Proof.
  intros Hv Hex. cbn zeta. destruct (clearCompleted_count a ts Hv) as (l & Hf & Hlen).
  assert (Hpos : (length l =? 0) = false).
  { apply Nat.eqb_neq. rewrite Hlen. apply Exists_exists in Hex as (t & Ht & Hc).
    intros E. apply length_zero_iff_nil in E.
    by apply (filter_nil_not_elem_of _ _ t E Hc). }
  destruct (filterM_tasks is_active (fun t => task_completed t = false)
              (heap a) (todos a) ts is_active_task Hv) as (kept & Hk & Hkv & _).
  set (n := N_to_str (N.of_nat (length (filter (fun t => task_completed t = true) ts)))).
  assert (Hrun : clearCompleted answer a =
    if answer then
      (emit (EvNotify (n ++ str " completed task(s) deleted!") info)
         (emit EvRender (saved (set_todos kept
            (emit (EvConfirm (str "Are you sure you want to delete " ++ n
               ++ str " completed task(s)?") answer) a)))), Normal tt)
    else (emit (EvConfirm (str "Are you sure you want to delete " ++ n
               ++ str " completed task(s)?") answer) a, Normal tt)).
  { unfold clearCompleted. unfold bind at 1, gets at 1. unfold bind at 1, lift at 1.
    rewrite Hf, Hpos, Hlen. fold n. unfold bind at 1, modify at 1.
    destruct answer; [|done].
    unfold bind at 1, lift at 1. rewrite Hk. unfold bind at 1, modify at 1.
    by apply (tail_tasks _ _ _ (filter (fun t => task_completed t = false) ts)). }
  rewrite Hrun. destruct answer; [|done]. cbn [fst].
  rewrite !view_emit, saved_view, view_set_todos. cbn [heap emit]. rewrite Hkv.
  split; [done|]. split; [|by exists kept].
  rewrite Hv, !length_map.
  clear. induction ts as [|t ts IH]; [done|]. rewrite !filter_cons.
  destruct (task_completed t); cbn [length];
    repeat (destruct (decide _); try done); cbn [length]; lia.
Qed.

End Removing.

(** ** Completing all, the filtered view, the buttons *)

Section Completing.
Local Open Scope nat_scope.

(** What [clearCompleted], confirmed, leaves of a store of tasks. *)
Lemma clearCompleted_view (a : App) (ts : list Task) :
  view a = map task_obj ts ->
  view (fst (clearCompleted true a))
  = map task_obj (filter (fun t => task_completed t = false) ts)
  /\ snd (clearCompleted true a) = Normal tt.
Proof.
  intros Hv. destruct (clearCompleted_count a ts Hv) as (l & Hf & Hlen).
  destruct (filterM_tasks is_active (fun t => task_completed t = false)
              (heap a) (todos a) ts is_active_task Hv) as (kept & Hk & Hkv & _).
  assert (Hrun : exists a', clearCompleted true a = (a', Normal tt)
            /\ view a' = map task_obj (filter (fun t => task_completed t = false) ts)).
  { unfold clearCompleted. unfold bind at 1, gets at 1. unfold bind at 1, lift at 1.
    rewrite Hf. destruct (length l =? 0) eqn:E.
    - exists a. split; [done|]. rewrite Hv. f_equal. symmetry. apply filter_all.
      apply Nat.eqb_eq in E. rewrite E in Hlen. symmetry in Hlen.
      apply length_zero_iff_nil in Hlen. apply Forall_forall. intros t Ht.
      destruct (task_completed t) eqn:Hc; [|done].
      by destruct (filter_nil_not_elem_of _ _ t Hlen Hc).
    - unfold bind at 1, modify at 1. unfold bind at 1, lift at 1. cbn [heap todos emit].
      rewrite Hk. unfold bind at 1, modify at 1.
      rewrite (tail_tasks _ _ _ (filter (fun t => task_completed t = false) ts)) by done.
      eexists. split; [done|]. by rewrite !view_emit, saved_view. }
  destruct Hrun as (a' & -> & Hv'). done.
Qed.

(** *** markAllComplete *)

Lemma completed_task_idem (t : Task) : completed_task (completed_task t) = completed_task t.
Proof. reflexivity. Qed.

Lemma forEachM_complete (l : list nat) :
  forall a,
  Forall (fun x => exists t, cell_val (deref (heap a) x) = task_obj t) l ->
  exists h',
    forEachM complete_one l a = (set_heap h' a, Normal tt)
    /\ forall y t, cell_val (deref (heap a) y) = task_obj t ->
         cell_val (deref h' y)
         = task_obj (if decide (y ∈ l) then completed_task t else t).
Proof.
  induction l as [|x l IH]; intros a Hall.
  - exists (heap a). split; [by destruct a|]. intros y t Hy.
    by rewrite decide_False by (by intros ?%elem_of_nil).
  - apply Forall_cons in Hall as [[t Hx] Hl].
    pose proof (deref_task_lt _ _ _ Hx) as Hlt.
    set (c' := Cell (task_obj (completed_task t)) (cell_extra (deref (heap a) x))).
    assert (Hone : complete_one x a = (set_heap (<[x := c']> (heap a)) a, Normal tt)).
    { unfold complete_one, bind, gets, lift, modify.
      by rewrite (set_completed_task t _ _ Hx). }
    assert (Hstep : forall y u, cell_val (deref (heap a) y) = task_obj u ->
              cell_val (deref (<[x := c']> (heap a)) y)
              = task_obj (if decide (y = x) then completed_task t else u)).
    { intros y u Hy. unfold deref. destruct (decide (y = x)) as [->|Hne].
      - by rewrite list_lookup_insert_eq.
      - by rewrite list_lookup_insert_ne. }
    destruct (IH (set_heap (<[x := c']> (heap a)) a)) as (h' & Hrun & Hh').
    { cbn [heap set_heap]. eapply Forall_impl; [exact Hl|].
      intros y [u Hy]. cbn beta. rewrite (Hstep y u Hy). eauto. }
    exists h'. split.
    + cbn [forEachM]. unfold bind. rewrite Hone, Hrun. done.
    + intros y u Hy. cbn [heap set_heap] in Hh'.
      rewrite (Hh' y _ (Hstep y u Hy)).
      destruct (decide (y = x)) as [->|Hne].
      * assert (u = t) as -> by (apply task_obj_inj; congruence).
        rewrite (decide_True (P := x ∈ x :: l)) by left.
        by destruct (decide (x ∈ l)).
      * destruct (decide (y ∈ l)) as [Hin|Hnin].
        -- by rewrite decide_True by (by right).
        -- rewrite decide_False; [done|]. by intros [?|?]%elem_of_cons.
Qed.

Lemma map_tasks_rel (h h' : list cell) (l : list nat) (ts : list Task) (F : Task -> Task) :
  map (fun x => cell_val (deref h x)) l = map task_obj ts ->
  (forall y t, y ∈ l -> cell_val (deref h y) = task_obj t ->
     cell_val (deref h' y) = task_obj (F t)) ->
  map (fun x => cell_val (deref h' x)) l = map task_obj (map F ts).
Proof.
  revert ts. induction l as [|x l IH]; intros [|t ts] Hv HF; try discriminate; [done|].
  cbn [map] in *. injection Hv as Hx Hl. f_equal.
  - apply HF; [left|done].
  - apply IH; [done|]. intros y u Hy. apply HF. by right.
Qed.

Lemma markAllComplete_tasks (a : App) (ts : list Task) :
  view a = map task_obj ts ->
  (Forall (fun t => task_completed t = true) ts /\ markAllComplete a = (a, Normal tt))
  \/ (Exists (fun t => task_completed t = false) ts /\
      exists h', view (set_heap h' a) = map task_obj (map completed_task ts)
        /\ markAllComplete a
           = (emit (EvNotify (str "All tasks marked as complete!") success)
                (emit EvRender (saved (set_heap h' a))), Normal tt)).
Proof.
  intros Hv.
  destruct (filterM_tasks is_active (fun t => task_completed t = false)
              (heap a) (todos a) ts is_active_task Hv) as (inc & Hf & Hiv & _).
  assert (Hlen : length inc = length (filter (fun t => task_completed t = false) ts)).
  { by rewrite <- (length_map (fun x => cell_val (deref (heap a) x))), Hiv, length_map. }
  destruct (length inc =? 0) eqn:E; [left|right]; split.
  - apply Nat.eqb_eq in E. rewrite E in Hlen. symmetry in Hlen.
    apply length_zero_iff_nil in Hlen. apply Forall_forall. intros t Ht.
    destruct (task_completed t) eqn:Hc; [done|].
    by destruct (filter_nil_not_elem_of _ _ t Hlen Hc).
  - unfold markAllComplete, bind, gets, lift. by rewrite Hf, E.
  - apply Nat.eqb_neq in E. rewrite Hlen in E.
    destruct (filter (fun t => task_completed t = false) ts) as [|t f] eqn:Ef; [done|].
    assert (Ht : t ∈ filter (fun t => task_completed t = false) ts) by (rewrite Ef; left).
    apply list_elem_of_filter in Ht as [Hc Ht]. apply Exists_exists. eauto.
  - destruct (forEachM_complete (todos a) a (view_tasks_Forall a ts Hv)) as (h' & Hrun & Hh').
    assert (Hv' : view (set_heap h' a) = map task_obj (map completed_task ts)).
    { unfold view in *. cbn [heap todos set_heap].
      apply (map_tasks_rel (heap a)); [done|]. intros y t Hy Ht.
      rewrite (Hh' y t Ht). by rewrite decide_True. }
    exists h'. split; [done|].
    unfold markAllComplete. unfold bind at 1, gets at 1. unfold bind at 1, lift at 1.
    rewrite Hf, E. unfold bind at 1. rewrite Hrun.
    by apply (tail_tasks _ _ _ (map completed_task ts)).
Qed.

Lemma map_completed_id (ts : list Task) :
  Forall (fun t => task_completed t = true) ts -> map completed_task ts = ts.
Proof.
  induction 1 as [|t ts Ht _ IH]; [done|]. cbn [map]. rewrite IH. f_equal.
  destruct t as [i x c k]. cbn in Ht. by subst.
Qed.

Lemma markAllComplete_view (a : App) (ts : list Task) :
  view a = map task_obj ts ->
  view (fst (markAllComplete a)) = map task_obj (map completed_task ts)
  /\ snd (markAllComplete a) = Normal tt.
Proof.
  intros Hv. destruct (markAllComplete_tasks a ts Hv) as [[Hall ->]|(_ & h' & Hv' & ->)].
  - cbn [fst snd]. by rewrite Hv, map_completed_id.
  - cbn [fst snd]. by rewrite !view_emit, saved_view.
Qed.

(** X4.  [markAllComplete] on a store of tasks sets [completed] on every
    task and changes nothing else of any task, nor the order; on a store
    where every task is completed it returns the state as it was, so a
    second call in a row does nothing. *)
Theorem mark_all (a : App) (ts : list Task) :
  view a = map task_obj ts ->
  let a' := fst (markAllComplete a) in
  view a' = map task_obj (map completed_task ts)
  /\ snd (markAllComplete a) = Normal tt
  /\ (Forall (fun t => task_completed t = true) ts -> markAllComplete a = (a, Normal tt))
  /\ markAllComplete a' = (a', Normal tt).
Proof.
  intros Hv. cbn zeta. destruct (markAllComplete_view a ts Hv) as [Hv' Hn].
  split; [done|]. split; [done|]. split.
  - intros Hall. destruct (markAllComplete_tasks a ts Hv) as [[_ ->]|(Hex & _)]; [done|].
    apply Exists_exists in Hex as (t & Ht & Hc). rewrite Forall_forall in Hall.
    specialize (Hall t Ht). cbn in Hall. congruence.
  - destruct (markAllComplete_tasks _ _ Hv') as [[_ ->]|(Hex & _)]; [done|].
    apply Exists_exists in Hex as (t & Ht & Hc).
    apply list_elem_of_fmap in Ht as (u & -> & _). discriminate.
Qed.

(** X5.  Completing all and then clearing the completed, confirmed, empties
    the list. *)
Theorem mark_all_then_clear (a : App) (ts : list Task) :
  view a = map task_obj ts ->
  view (fst (clearCompleted true (fst (markAllComplete a)))) = [].
Proof.
  intros Hv. destruct (markAllComplete_view a ts Hv) as [Hv' _].
  rewrite (proj1 (clearCompleted_view _ _ Hv')). rewrite filter_none; [done|].
  apply Forall_forall. intros t Ht. apply list_elem_of_fmap in Ht as (u & -> & _). done.
Qed.

(** *** getFilteredTodos *)

(** X6.  On a store of tasks [getFilteredTodos] returns, in the order of
    the store, the tasks that are not completed for the filter [active],
    the completed ones for [completed], and every task for any other
    filter value; it changes nothing. *)
Theorem filtered_view (a : App) (ts : list Task) :
  view a = map task_obj ts ->
  exists shown,
    getFilteredTodos a = (a, Normal shown)
    /\ map (fun x => cell_val (deref (heap a) x)) shown
       = map task_obj
           (if str_eqb (currentFilter a) (str "active")
            then filter (fun t => task_completed t = false) ts
            else if str_eqb (currentFilter a) (str "completed")
            then filter (fun t => task_completed t = true) ts
            else ts).
Proof.
  intros Hv. unfold getFilteredTodos, bind, gets.
  destruct (filterM_tasks is_active (fun t => task_completed t = false)
              (heap a) (todos a) ts is_active_task Hv) as (la & Ha & Hla & _).
  destruct (filterM_tasks is_completed (fun t => task_completed t = true)
              (heap a) (todos a) ts is_completed_task Hv) as (lc & Hc & Hlc & _).
  destruct (str_eqb _ _); [exists la; unfold lift; by rewrite Ha|].
  destruct (str_eqb _ _); [exists lc; unfold lift; by rewrite Hc|].
  by exists (todos a).
Qed.

(** *** The action buttons *)

Lemma someM_false (p : cell -> completion bool) (h : list cell) (l : list nat) :
  someM p h l = Normal false -> filterM p h l = Normal [].
Proof.
  induction l as [|x l IH]; [done|]. cbn [someM filterM].
  destruct (p (deref h x)) as [[]|]; try done. intros H. by rewrite IH.
Qed.

(** X7.  When [updateActionButtons] disables the clear-completed button,
    [clearCompleted] does nothing and asks nothing; when it disables the
    mark-all-complete button, [markAllComplete] does nothing. *)
Theorem disabled_buttons_do_nothing (a : App) (clearOff markOff : bool) :
  updateActionButtons a = Normal (clearOff, markOff) ->
  (clearOff = true -> forall answer, clearCompleted answer a = (a, Normal tt))
  /\ (markOff = true -> markAllComplete a = (a, Normal tt)).
Proof.
  unfold updateActionButtons.
  destruct (someM is_completed _ _) as [hc|] eqn:Hc; [|done].
  destruct (someM is_active _ _) as [hi|] eqn:Hi; [|done].
  intros [= <- <-]. split.
  - intros E answer. destruct hc; [done|]. apply someM_false in Hc.
    unfold clearCompleted, bind, gets, lift. by rewrite Hc.
  - intros E. destruct hi; [done|]. apply someM_false in Hi.
    unfold markAllComplete, bind, gets, lift. by rewrite Hi.
Qed.

End Completing.

(** ** The counter, failing imports, a refused write *)

Section Reporting.
Local Open Scope nat_scope.

(** *** The counter and the buttons *)

Lemma filter_length_zero {A} (P : A -> Prop) `{!forall x, Decision (P x)} (l : list A) :
  length (filter P l) = 0 <-> Forall (fun x => ~ P x) l.
Proof.
  induction l as [|x l IH]; [by split; [constructor|]|].
  rewrite filter_cons. destruct (decide (P x)) as [Hx|Hx]; cbn [length].
  - split; [done|]. intros Hf. by apply Forall_cons in Hf as [? _].
  - rewrite IH. split; [by constructor|]. intros Hf. by apply Forall_cons in Hf as [_ ?].
Qed.

(** X8.  The phrase of [updateStats] on a store of tasks: [No tasks] on
    the empty store, [All tasks completed!] when there are tasks and none
    is active, [1 task remaining] for one active task, and the decimal
    count followed by [ tasks remaining] for two or more. *)
Theorem stats_phrase (a : App) (ts : list Task) :
  view a = map task_obj ts ->
  let n := length (filter (fun t => task_completed t = false) ts) in
  (ts = [] -> updateStats a = Normal (str "No tasks"))
  /\ (ts <> [] -> Forall (fun t => task_completed t = true) ts ->
      updateStats a = Normal (str "All tasks completed!"))
  /\ (n = 1 -> updateStats a = Normal (str "1 task remaining"))
  /\ (2 <= n -> updateStats a = Normal (N_to_str (N.of_nat n) ++ str " tasks remaining")).
Proof.
  intros Hv n.
  destruct (filterM_tasks is_active (fun t => task_completed t = false)
              (heap a) (todos a) ts is_active_task Hv) as (la & Ha & Hla & _).
  assert (Hn : length la = n).
  { unfold n. by rewrite <- (length_map task_obj), <- Hla, length_map. }
  assert (Ht : length (todos a) = length ts).
  { by rewrite <- (length_map task_obj ts), <- Hv; unfold view; rewrite length_map. }
  assert (Hle : n <= length ts) by apply length_filter.
  assert (Hz : Forall (fun t => task_completed t = true) ts -> n = 0).
  { intros Hall. apply filter_length_zero. eapply Forall_impl; [exact Hall|]. cbn. congruence. }
  clearbody n.
  unfold updateStats. rewrite Ha, Hn, Ht. repeat match goal with |- _ /\ _ => split end.
  - by intros ->.
  - intros Hne Hall. destruct ts as [|t ts]; [done|]. by rewrite (Hz Hall).
  - intros ->. destruct ts as [|t ts]; [cbn in Hle; lia|]. done.
  - intros E. destruct ts as [|t ts]; [cbn in Hle; lia|]. cbn [length Nat.eqb].
    destruct n as [|[|n']]; [lia|lia|]. done.
Qed.

Lemma someM_tasks (p : cell -> completion bool) (f : Task -> bool)
    (h : list cell) (l : list nat) (ts : list Task) :
  (forall c t, cell_val c = task_obj t -> p c = Normal (f t)) ->
  map (fun x => cell_val (deref h x)) l = map task_obj ts ->
  someM p h l = Normal (existsb f ts).
Proof.
  intros Hp. revert ts. induction l as [|x l IH]; intros [|t ts] Hv; try discriminate; [done|].
  cbn [map] in Hv. injection Hv as Hx Hl. cbn [someM existsb]. rewrite (Hp _ t Hx).
  destruct (f t); [done|]. by apply IH.
Qed.

Lemma existsb_false_Forall {A} (f : A -> bool) (l : list A) :
  existsb f l = false <-> Forall (fun x => f x = false) l.
Proof.
  induction l as [|x l IH]; cbn [existsb]; [by split; [constructor|]|].
  rewrite orb_false_iff, IH. split.
  - intros [? ?]. by constructor.
  - intros Hf. by apply Forall_cons in Hf.
Qed.

(** X9.  On a store of tasks [updateActionButtons] disables the
    clear-completed button exactly when no task is completed, and the
    mark-all-complete button exactly when no task is active. *)
Theorem buttons_enabled (a : App) (ts : list Task) :
  view a = map task_obj ts ->
  exists clearOff markOff,
    updateActionButtons a = Normal (clearOff, markOff)
    /\ (clearOff = true <-> Forall (fun t => task_completed t = false) ts)
    /\ (markOff = true <-> Forall (fun t => task_completed t = true) ts).
Proof.
  intros Hv. unfold updateActionButtons.
  rewrite (someM_tasks is_completed task_completed _ _ ts),
    (someM_tasks is_active (fun t => negb (task_completed t)) _ _ ts); try done.
  - eexists _, _. split; [done|]. rewrite !negb_true_iff, !existsb_false_Forall.
    split; [done|].
    split; intros Hf; (eapply Forall_impl; [exact Hf|]); intros t; cbn; by destruct (task_completed t).
  - intros c t Hc. rewrite (is_active_task c t Hc). by destruct (task_completed t).
  - intros c t Hc. rewrite (is_completed_task c t Hc). by destruct (task_completed t).
Qed.

(** *** Imports that fail *)

(** X10.  [importTodos] never throws.  When the text of the file does not
    parse, or parses to something that is not an array, it leaves the
    array, the heap, the storage area, the filter and the edit state as they
    were; all it does is to show the notification
    [Error importing todos!]. *)
Theorem import_rejected (raw : jsstring) (a : App) :
  snd (importTodos raw a) = Normal tt
  /\ ((forall items, JSON_parse raw <> Some (VArr items)) ->
      importTodos raw a
      = (emit (EvNotify (str "Error importing todos!") error) a, Normal tt)).
Proof.
  split.
  - unfold importTodos, try_catch.
    match goal with |- context [match ?m a with _ => _ end] => by destruct (m a) as [a1 [[]|e]] end.
  - intros H. unfold importTodos, try_catch, bind, lift.
    destruct (JSON_parse raw) as [v|]; [|done].
    destruct v as [| | | |items|]; try done. by destruct (H items).
Qed.

Lemma existsb_elem_of {A} (f : A -> bool) (x : A) (l : list A) :
  x ∈ l -> f x = true -> existsb f l = true.
Proof.
  induction 1 as [|y z l _ IH]; cbn [existsb]; intros E; [by rewrite E|].
  rewrite IH by done. apply orb_true_r.
Qed.

Lemma has_null_view (a : App) : has_null a = existsb is_null (view a).
Proof. reflexivity. Qed.

(** X11.  An imported array that holds a [null] is accepted by
    [importTodos]: it replaces the array and is written to the storage
    area; [render] then throws, so what the user is told is
    [Error importing todos!], and no success notification is shown. *)
Theorem import_null_kept (raw : jsstring) (items : list value) (a : App) :
  JSON_parse raw = Some (VArr items) ->
  VNull ∈ items ->
  capacity (storage a) = None ->
  let a' := fst (importTodos raw a) in
  view a' = items
  /\ getItem (storage a') = Some (stringify (VArr items))
  /\ log a' = log a ++ [EvSetItem (stringify (VArr items));
                         EvNotify (str "Error importing todos!") error]
  /\ snd (importTodos raw a) = Normal tt.
Proof.
  intros Hp Hnull Hcap. cbn zeta.
  pose (a1 := set_todos (seq (length (heap a)) (length items))
                (set_heap (heap a ++ map (fun v => Cell v []) items) a)).
  assert (Hv1 : view a1 = items) by apply view_assign.
  assert (Hn : has_null (saved a1) = true).
  { rewrite has_null_view, saved_view, Hv1. by apply (existsb_elem_of _ VNull). }
  assert (Hrun : importTodos raw a
                 = (emit (EvNotify (str "Error importing todos!") error) (saved a1), Normal tt)).
  { rewrite (importTodos_accepted raw items a Hp). fold a1.
    unfold bind. by rewrite saveTodos_eq, render_eq, Hn. }
  rewrite Hrun. cbn [fst snd].
  rewrite view_emit, saved_view, Hv1. unfold saved. rewrite Hv1.
  unfold setItem. cbn [storage a1 set_todos set_heap]. rewrite Hcap.
  repeat match goal with |- _ /\ _ => split end; try done.
  cbn [log emit set_storage a1 set_todos set_heap]. by rewrite <- app_assoc.
Qed.

(** *** A write that the storage area refuses *)


End Reporting.

(** ** The edit session *)

Section Editing.
Local Open Scope nat_scope.

(** *** The edit session *)




Lemma set_text_task (t : Task) (c : cell) (s : jsstring) :
  cell_val c = task_obj t ->
  set_prop (str "text") (VStr s) c = Normal (Cell (task_obj (with_text s t)) (cell_extra c)).
Proof. intros H. unfold set_prop. rewrite H. reflexivity. Qed.

Lemma saved_in_sync (a : App) :
  capacity (storage a) = None -> in_sync (saved a) /\ capacity (storage (saved a)) = None.
Proof.
  intros Hcap. unfold in_sync. rewrite saved_view. unfold saved, setItem. by rewrite Hcap.
Qed.

(** X14.  Committing an edit session with a text that, trimmed, is not
    empty and differs from the text of the task: the task at that position
    gets the trimmed text and keeps its id, its flag and its creation time,
    every other task and the order are unchanged, the session is closed, and
    the snapshot written is that of the new sequence. *)
Theorem edit_commit (a : App) (ts : list Task) (i x : nat) (t : Task) (input : jsstring) :
  wf a -> view a = map task_obj ts ->
  todos a !! i = Some x -> ts !! i = Some t ->
  trim input <> [] -> trim input <> task_text t ->
  let a' := fst (finishEdit x input a) in
  view a' = map task_obj (<[i := with_text (trim input) t]> ts)
  /\ todos a' = todos a
  /\ editingId a' = None
  /\ snd (finishEdit x input a) = Normal tt
  /\ (capacity (storage a) = None ->
      in_sync a'
      /\ log a' = log a ++ [EvSetItem (stringify (VArr (view a')));
                             EvNotify (str "Task updated!") success; EvRender]).
Proof.
  intros [Hnd Hr] Hv Hx Ht Hne Hdiff. cbn zeta.
  pose proof (lookup_view_task a ts i x t Hv Hx Ht) as Hcell.
  pose (a1 := set_heap (<[x := Cell (task_obj (with_text (trim input) t))
                                 (cell_extra (deref (heap a) x))]> (heap a)) a).
  assert (Hv1 : view a1 = map task_obj (<[i := with_text (trim input) t]> ts)).
  { unfold view, a1. cbn [heap todos set_heap].
    rewrite (view_insert _ _ _ i) by eauto using deref_task_lt.
    fold (view a). rewrite Hv. cbn [cell_val]. by rewrite list_fmap_insert. }
  assert (Hrun : finishEdit x input a
                 = (emit EvRender (set_editingId None
                      (emit (EvNotify (str "Task updated!") success) (saved a1))), Normal tt)).
  { unfold finishEdit. unfold bind at 1, gets at 1. unfold bind at 1.
    rewrite bool_decide_eq_false_2 by done. cbn [negb]. unfold bind at 1, lift at 1.
    rewrite (proj1 (proj2 (get_prop_task t _ Hcell))). unfold ret at 1. cbn [is_str].
    unfold str_eqb. rewrite bool_decide_eq_false_2 by congruence. cbn [negb].
    unfold bind at 1. unfold bind at 1, lift at 1.
    rewrite (set_text_task t _ _ Hcell). unfold bind at 1, modify at 1. fold a1.
    unfold bind at 1. rewrite saveTodos_eq. unfold showNotification, modify at 1.
    unfold bind, modify.
    rewrite (render_tasks _ (<[i := with_text (trim input) t]> ts)); [done|].
    transitivity (view (saved a1)); [done|]. by rewrite saved_view. }
  rewrite Hrun. cbn [fst snd].
  repeat match goal with |- _ /\ _ => split end; try done.
  - transitivity (view (saved a1)); [done|]. by rewrite saved_view.
  - unfold saved. by destruct (setItem _ _).
  - intros Hcap.
    assert (Hva : view (emit EvRender (set_editingId None
                    (emit (EvNotify (str "Task updated!") success) (saved a1)))) = view a1).
    { transitivity (view (saved a1)); [done|]. by rewrite saved_view. }
    split.
    + destruct (saved_in_sync a1 Hcap) as [Hs _]. unfold in_sync in *.
      rewrite Hva, <- (saved_view a1), <- Hs. done.
    + rewrite Hva.
      transitivity (log (saved a1) ++ [EvNotify (str "Task updated!") success; EvRender]).
      { cbn [log emit set_editingId]. by rewrite <- app_assoc. }
      transitivity ((log a ++ [EvSetItem (stringify (VArr (view a1)))])
                      ++ [EvNotify (str "Task updated!") success; EvRender]).
      { f_equal. unfold saved, setItem. cbn [storage a1 set_heap]. by rewrite Hcap. }
      by rewrite <- app_assoc.
Qed.

(** *** What a toggle reports *)

(** X23.  On a store of tasks, toggling a task that is present saves the
    new sequence, renders it and then notifies: [Task completed!] with
    severity [success] when the task was active, [Task marked as active!]
    with severity [info] when it was completed. *)
Theorem toggle_reports (a : App) (ts : list Task) (id : jsstring) (i : nat) (t : Task) :
  wf a -> view a = map task_obj ts -> first_with id ts i t ->
  exists a1,
    view a1 = map task_obj (<[i := toggled t]> ts)
    /\ storage a1 = storage a /\ log a1 = log a
    /\ toggleTodo id a
       = (emit (if task_completed t
                then EvNotify (str "Task marked as active!") info
                else EvNotify (str "Task completed!") success)
            (emit EvRender (saved a1)), Normal tt).
Proof.
  intros Hwf Hv Hfirst.
  destruct (findM_tasks id (heap a) (todos a) ts Hv)
    as [[_ Hall]|(i' & x & t' & Hx & Hfirst' & Hf)].
  { destruct Hfirst as (Ht & Hid & _). rewrite Forall_forall in Hall.
    destruct (Hall t); [|done]. by eapply list_elem_of_lookup_2. }
  destruct (first_with_unique _ _ _ _ _ _ Hfirst Hfirst') as [<- <-].
  pose proof (lookup_view_task a ts i x t Hv Hx (proj1 Hfirst)) as Hc.
  pose (a1 := set_heap (<[x := Cell (task_obj (toggled t))
                                 (cell_extra (deref (heap a) x))]> (heap a)) a).
  assert (Hv1 : view a1 = map task_obj (<[i := toggled t]> ts)).
  { unfold view, a1. cbn [heap todos set_heap]. destruct Hwf as [Hnd _].
    rewrite (view_insert _ _ _ i) by eauto using deref_task_lt.
    fold (view a). rewrite Hv. cbn [cell_val]. by rewrite list_fmap_insert. }
  exists a1. split; [done|]. split; [done|]. split; [done|].
  unfold toggleTodo, bind, gets, lift. rewrite Hf, Hc. cbn [truthy task_obj].
  rewrite (proj2 (proj2 (get_prop_task t _ Hc))).
  rewrite (set_completed_task t _ _ Hc). unfold modify. rewrite saveTodos_eq.
  cbn [truthy]. fold (toggled t). fold a1.
  rewrite (render_tasks _ (<[i := toggled t]> ts)) by (by rewrite saved_view).
  rewrite notify_if. by destruct (task_completed t).
Qed.

End Editing.

(** ** The slot follows the array; starting again *)

Section Persistence.
Local Open Scope nat_scope.

(** *** The slot follows the array *)

Lemma synced_same (a a' : App) :
  view a' = view a -> storage a' = storage a -> synced a -> synced a'.
Proof. unfold synced, in_sync. by intros -> ->. Qed.

Lemma synced_saved (a : App) : capacity (storage a) = None -> synced (saved a).
Proof. intros H. destruct (saved_in_sync a H). by split. Qed.

Lemma synced_emit (e : event) (a : App) : synced a -> synced (emit e a).
Proof. by apply synced_same. Qed.

Lemma synced_render (a : App) : synced a -> synced (fst (render a)).
Proof. destruct (render_cases a) as [->|[e ->]]; [apply synced_emit|done]. Qed.

Lemma synced_tail (m : M unit) (a : App) :
  capacity (storage a) = None ->
  (forall b, synced b -> synced (fst (m b))) ->
  synced (fst ((saveTodos ;; render ;; m) a)).
Proof.
  intros Hcap Hm. unfold bind. rewrite saveTodos_eq.
  pose proof (synced_saved a Hcap) as Hs.
  destruct (render_cases (saved a)) as [->|[e ->]]; cbn [fst]; [|done].
  by apply Hm, synced_emit.
Qed.

Lemma synced_notify (msg : jsstring) (sev : severity) (b : App) :
  synced b -> synced (fst (showNotification msg sev b)).
Proof. apply synced_emit. Qed.

Lemma addTodo_synced (text : jsstring) (now : Z) (iso : jsstring) (a : App) :
  capacity (storage a) = None -> synced (fst (addTodo text now iso a)).
Proof.
  intros Hcap. unfold addTodo. unfold bind at 1, unshift, modify.
  apply synced_tail; [done|apply synced_notify].
Qed.

Lemma toggleTodo_synced (id : jsstring) (a : App) :
  synced a -> synced (fst (toggleTodo id a)).
Proof.
  intros Hs. unfold toggleTodo. unfold bind at 1, gets at 1. unfold bind at 1, lift at 1.
  destruct (findM _ _ _) as [[x|]|]; try done.
  destruct (truthy _); [|done].
  unfold bind at 1, lift at 1. destruct (get_prop _ _) as [old|]; [|done].
  unfold bind at 1, lift at 1. destruct (set_prop _ _ _) as [c'|]; [|done].
  unfold bind at 1, modify at 1.
  apply synced_tail; [by destruct Hs|]. intros b Hb. rewrite notify_if. by apply synced_emit.
Qed.

Lemma deleteTodo_synced (id : jsstring) (a : App) :
  synced a -> synced (fst (deleteTodo id a)).
Proof.
  intros Hs. unfold deleteTodo. unfold bind at 1, gets at 1. unfold bind at 1, lift at 1.
  destruct (filterM _ _ _) as [kept|]; [|done].
  unfold bind at 1, modify at 1.
  apply synced_tail; [by destruct Hs|apply synced_notify].
Qed.

Lemma cancelEdit_synced (a : App) : synced a -> synced (fst (cancelEdit a)).
Proof.
  intros Hs. unfold cancelEdit, bind, modify. apply synced_render. by apply (synced_same a).
Qed.

Lemma setFilter_synced (f : jsstring) (a : App) : synced a -> synced (fst (setFilter f a)).
Proof.
  intros Hs. unfold setFilter, bind, modify. apply synced_render. by apply (synced_same a).
Qed.

Lemma startEdit_synced (id : jsstring) (a : App) : synced a -> synced (fst (startEdit id a)).
Proof.
  intros Hs. unfold startEdit. unfold bind at 1, gets at 1. unfold bind at 1.
  assert (Hc : synced
            (fst ((if truthy (option_map VStr (editingId a)) then cancelEdit else ret tt) a))).
  { destruct (truthy _); [by apply cancelEdit_synced|done]. }
  destruct ((if truthy _ then cancelEdit else ret tt) a) as [a1 [[]|e]]; cbn [fst] in Hc; [|done].
  unfold bind, modify, gets, lift. cbn [heap todos set_editingId].
  assert (Hs' : synced (set_editingId (Some id) a1)) by (by apply (synced_same a1)).
  destruct (findM _ _ _) as [[x|]|]; try done.
  by destruct (get_prop _ _).
Qed.

Lemma finishEdit_synced (x : nat) (input : jsstring) (a : App) :
  synced a -> synced (fst (finishEdit x input a)).
Proof.
  intros Hs. unfold finishEdit. unfold bind at 1, gets at 1. unfold bind at 1.
  assert (Hch : exists changed,
    (if negb (bool_decide (trim input = []))
     then do cur <- lift (get_prop (str "text") (deref (heap a) x)); ret (negb (is_str (trim input) cur))
     else ret false) a = (a, Normal changed)
    \/ exists e, (if negb (bool_decide (trim input = []))
     then do cur <- lift (get_prop (str "text") (deref (heap a) x)); ret (negb (is_str (trim input) cur))
     else ret false) a = (a, Throw e)).
  { destruct (negb _); [|exists false; by left]. unfold bind, lift, ret.
    destruct (get_prop _ _); [eexists; by left|exists false; right; eauto]. }
  destruct Hch as [changed [->|[e ->]]]; [|done].
  match goal with |- synced (fst (bind ?m _ a)) => set (upd := m) end.
  assert (Hup : synced (fst (upd a))).
  { subst upd. destruct changed; [|done]. unfold bind at 1, lift at 1.
    destruct (set_prop _ _ _) as [c'|]; [|done].
    unfold bind, modify. rewrite saveTodos_eq. unfold showNotification, modify. cbn [fst].
    apply synced_emit, synced_saved. by destruct Hs. }
  unfold bind at 1.
  destruct (upd a) as [a1 [[]|e]]; cbn [fst] in Hup; [|done].
  unfold bind, modify. apply synced_render. by apply (synced_same a1).
Qed.

Lemma clearCompleted_synced (answer : bool) (a : App) :
  synced a -> synced (fst (clearCompleted answer a)).
Proof.
  intros Hs. unfold clearCompleted. unfold bind at 1, gets at 1. unfold bind at 1, lift at 1.
  destruct (filterM is_completed _ _) as [completed|]; [|done].
  destruct (length completed =? 0); [done|].
  unfold bind at 1, modify at 1. destruct answer; [|by apply synced_emit].
  unfold bind at 1, lift at 1. cbn [heap todos emit].
  destruct (filterM is_active _ _) as [kept|]; [|by apply synced_emit].
  unfold bind at 1, modify at 1.
  apply synced_tail; [by destruct Hs|apply synced_notify].
Qed.

Lemma complete_one_storage (x : nat) (a : App) : storage (fst (complete_one x a)) = storage a.
Proof. unfold complete_one, bind, gets, lift, modify. by destruct (set_prop _ _ _). Qed.

Lemma forEachM_complete_storage (l : list nat) (a : App) :
  storage (fst (forEachM complete_one l a)) = storage a.
Proof.
  revert a. induction l as [|x l IH]; intros a; [done|]. cbn [forEachM]. unfold bind.
  pose proof (complete_one_storage x a) as Hx.
  destruct (complete_one x a) as [a1 [[]|e]]; cbn [fst] in *; [|done]. by rewrite IH.
Qed.

Lemma markAllComplete_synced (a : App) :
  synced a -> snd (markAllComplete a) = Normal tt -> synced (fst (markAllComplete a)).
Proof.
  intros Hs. set (r := markAllComplete a).
  assert (Hr : markAllComplete a = r) by done. clearbody r. revert Hr.
  unfold markAllComplete. unfold bind at 1, gets at 1. unfold bind at 1, lift at 1.
  destruct (filterM _ _ _) as [inc|]; [|by intros <-].
  destruct (length inc =? 0); [by intros <-|].
  unfold bind at 1.
  pose proof (forEachM_complete_storage (todos a) a) as Hst.
  destruct (forEachM complete_one (todos a) a) as [a1 [[]|e]]; cbn [fst] in Hst; [|by intros <-].
  intros <- _. apply synced_tail; [rewrite Hst; by destruct Hs|apply synced_notify].
Qed.

Lemma handleDrop_synced (newOrder : list jsstring) (a : App) :
  synced a -> synced (fst (handleDrop newOrder a)).
Proof.
  intros Hs. unfold handleDrop. unfold bind at 1, gets at 1. unfold bind at 1, lift at 1.
  destruct (sortM _ _) as [sorted|]; [|done].
  unfold bind, modify. rewrite saveTodos_eq. unfold showNotification, modify. cbn [fst].
  apply synced_emit, synced_saved. by destruct Hs.
Qed.

Lemma importTodos_synced (raw : jsstring) (a : App) :
  synced a -> synced (fst (importTodos raw a)).
Proof.
  intros Hs.
  assert (Hrej : (forall items, JSON_parse raw <> Some (VArr items)) ->
                 synced (fst (importTodos raw a))).
  { intros H. rewrite importTodos_rejected by done. by apply synced_emit. }
  destruct (JSON_parse raw) as [v|] eqn:Hp; [|by apply Hrej].
  destruct v as [| | | |items|]; try by apply Hrej.
  rewrite (importTodos_accepted raw items a Hp). set (a1 := set_todos _ _).
  assert (Ht : synced (fst ((saveTodos ;; render ;;
                   showNotification (str "Todos imported successfully!") success) a1))).
  { apply synced_tail; [by destruct Hs|apply synced_notify]. }
  destruct ((saveTodos ;; render ;; showNotification _ _) a1) as [a2 [[]|e]]; cbn [fst] in *; [done|].
  by apply synced_emit.
Qed.

(** X15.  With a storage area that has no quota, the slot [todos] follows
    the array: once it holds the snapshot of the array, it still does after
    every operation, whatever the elements of the array are and whether or
    not the operation completes; [addTodo] establishes this by itself.  For
    [markAllComplete] this is shown for the calls that complete. *)
Theorem slot_follows_array (a : App) :
  synced a ->
  (forall input now iso, synced (fst (handleSubmit input now iso a)))
  /\ (forall id, synced (fst (toggleTodo id a)))
  /\ (forall id, synced (fst (startEdit id a)))
  /\ (forall x input, synced (fst (finishEdit x input a)))
  /\ synced (fst (cancelEdit a))
  /\ (forall id, synced (fst (deleteTodo id a)))
  /\ (forall newOrder, synced (fst (handleDrop newOrder a)))
  /\ (forall answer, synced (fst (clearCompleted answer a)))
  /\ (snd (markAllComplete a) = Normal tt -> synced (fst (markAllComplete a)))
  /\ (forall f, synced (fst (setFilter f a)))
  /\ (forall raw, synced (fst (importTodos raw a)))
  /\ (forall iso, synced (fst (exportTodos iso a))).
Proof.
  intros Hs. repeat match goal with |- _ /\ _ => split end; intros.
  - unfold handleSubmit. destruct (negb _); [|done]. apply addTodo_synced. by destruct Hs.
  - by apply toggleTodo_synced.
  - by apply startEdit_synced.
  - by apply finishEdit_synced.
  - by apply cancelEdit_synced.
  - by apply deleteTodo_synced.
  - by apply handleDrop_synced.
  - by apply clearCompleted_synced.
  - by apply markAllComplete_synced.
  - by apply setFilter_synced.
  - by apply importTodos_synced.
  - by apply synced_emit.
Qed.

(** *** Starting again *)

Lemma loadTodos_snapshot (st : Storage) (ts : list Task) :
  getItem st = Some (stringify (VArr (map task_obj ts))) ->
  loadTodos st = (VArr (map task_obj ts), []).
Proof.
  intros Hset. pose proof (JSON_parse_stringify_tasks ts) as Hp.
  cbn [stringify] in Hset, Hp. change (str "[") with [ch "["] in Hset, Hp.
  cbn [app] in Hset, Hp. by eapply loadTodos_parsed.
Qed.

Lemma view_fresh (items : list value) (f : jsstring) (e : option jsstring)
    (st : Storage) (evs : list event) :
  view (MkApp (map (fun v => Cell v []) items) (seq 0 (length items)) f e st evs) = items.
Proof. exact (view_assign [] items). Qed.

(** X16.  Starting the application on a storage area whose slot holds the
    snapshot of a sequence of tasks, and which accepts the write of the
    theme, gives that sequence back, with the filter [all], no edit session,
    the slot untouched, and one render. *)
Theorem restart_restores (a : App) (ts : list Task) (th : Theme) :
  view a = map task_obj ts -> in_sync a -> theme_refused th = false ->
  exists a' th', startup (storage a) th = Some (a', th')
    /\ view a' = view a
    /\ currentFilter a' = str "all" /\ editingId a' = None
    /\ storage a' = storage a /\ log a' = [EvRender].
Proof.
  intros Hv Hs Hth. unfold in_sync in Hs. rewrite Hv in Hs.
  unfold startup, initializeTheme, setTheme. rewrite Hth.
  unfold construct. rewrite (loadTodos_snapshot _ ts Hs).
  rewrite (render_tasks _ ts) by apply view_fresh.
  eexists _, _. split; [done|]. rewrite view_emit, view_fresh. by rewrite Hv.
Qed.



End Persistence.

(** ** Reordering by a full listing *)

Section Reordering.
Local Open Scope Z_scope.

(** *** Reordering by a full listing *)

Lemma sort_by_fixed {A} (key : A -> Z) (l : list A) :
  StronglySorted (fun a b => key a <= key b) l -> sort_by key l = l.
Proof.
  induction 1 as [|x l Hl IH Hx]; [done|]. cbn [sort_by]. rewrite IH.
  by apply insert_by_min.
Qed.

Lemma sorted_perm_eq {A} (key : A -> Z) (l1 l2 : list A) :
  (forall x y, x ∈ l1 -> y ∈ l1 -> key x = key y -> x = y) ->
  StronglySorted (fun a b => key a <= key b) l1 ->
  StronglySorted (fun a b => key a <= key b) l2 ->
  l1 ≡ₚ l2 -> l1 = l2.
Proof.
  intros Hinj H1. revert l2. induction H1 as [|x r1 Hr1 IH Hx]; intros l2 H2 Hp.
  - by apply Permutation_nil_l in Hp.
  - destruct H2 as [|y r2 Hr2 Hy]; [by apply Permutation_nil_r in Hp|].
    assert (x = y) as <-.
    { assert (Hxin : x ∈ y :: r2) by (rewrite <- Hp; left).
      assert (Hyin : y ∈ x :: r1) by (rewrite Hp; left).
      apply elem_of_cons in Hxin as [E|Hxin]; [done|].
      apply elem_of_cons in Hyin as [E|Hyin]; [done|].
      rewrite Forall_forall in Hx, Hy. pose proof (Hx y Hyin). pose proof (Hy x Hxin).
      apply Hinj; [left|by right|lia]. }
    f_equal. apply IH; [|done|by apply Permutation_cons_inv in Hp].
    intros u v Hu Hv. apply Hinj; by right.
Qed.

Lemma index_from_lookup (l : list jsstring) (i : Z) (j : nat) (s : jsstring) :
  NoDup l -> l !! j = Some s -> index_from i s l = i + Z.of_nat j.
Proof.
  revert i j. induction l as [|t l IH]; intros i j Hnd Hj; [done|].
  apply NoDup_cons in Hnd as [Hnot Hnd]. cbn [index_from]. unfold str_eqb.
  destruct j as [|j]; cbn in Hj.
  - injection Hj as ->. rewrite bool_decide_eq_true_2 by done. lia.
  - rewrite bool_decide_eq_false_2.
    + rewrite (IH (i + 1) j) by done. lia.
    + intros ->. apply Hnot. by eapply list_elem_of_lookup_2.
Qed.

Lemma position_lookup (l : list Task) (j : nat) (t : Task) :
  NoDup (map task_id l) -> l !! j = Some t ->
  position (map task_id l) t = Z.of_nat j.
Proof.
  intros Hnd Hj. unfold position. rewrite (index_from_lookup _ 0 j); [lia|done|].
  change (map task_id l) with (task_id <$> l). by rewrite list_lookup_fmap, Hj.
Qed.

Lemma listing_sorted (l : list Task) :
  NoDup (map task_id l) ->
  StronglySorted (fun t u => position (map task_id l) t <= position (map task_id l) u) l.
Proof.
  intros Hnd.
  assert (H : forall pre suf, l = pre ++ suf ->
            StronglySorted
              (fun t u => position (map task_id l) t <= position (map task_id l) u) suf).
  { intros pre suf. revert pre. induction suf as [|x suf IH]; intros pre E; [constructor|].
    constructor.
    - apply (IH (pre ++ [x])). by rewrite <- app_assoc.
    - apply Forall_forall. intros u Hu. apply list_elem_of_lookup in Hu as [k Hk].
      rewrite (position_lookup l (length pre) x Hnd) by (by rewrite E, list_lookup_middle).
      rewrite (position_lookup l (length pre + S k) u Hnd).
      + lia.
      + rewrite E, lookup_app_r by lia.
        replace (length pre + S k - length pre)%nat with (S k) by lia. done. }
  by apply (H []).
Qed.

Lemma listing_injective (l : list Task) (t u : Task) :
  NoDup (map task_id l) -> t ∈ l -> u ∈ l ->
  position (map task_id l) t = position (map task_id l) u -> t = u.
Proof.
  intros Hnd [j Hj]%list_elem_of_lookup [k Hk]%list_elem_of_lookup.
  rewrite (position_lookup l j t Hnd Hj), (position_lookup l k u Hnd Hk).
  intros E. assert (j = k) as -> by lia. congruence.
Qed.

(** X18.  When the ids of the tasks are unique and [newOrder] lists the id
    of every task once, in any order, [handleDrop] arranges the tasks
    exactly in that order. *)
Theorem reorder_full_listing (a : App) (ts ts' : list Task) :
  view a = map task_obj ts ->
  NoDup (map task_id ts) ->
  ts' ≡ₚ ts ->
  view (fst (handleDrop (map task_id ts') a)) = map task_obj ts'.
Proof.
  intros Hv Hnd Hp. rewrite (handleDrop_view a ts _ Hv). f_equal.
  assert (Hnd' : NoDup (map task_id ts')).
  { change (NoDup (task_id <$> ts')). by rewrite Hp. }
  symmetry. apply (sorted_perm_eq (position (map task_id ts'))).
  - intros t u. by apply listing_injective.
  - by apply listing_sorted.
  - apply sort_by_sorted.
  - by rewrite sort_by_perm.
Qed.

(** X19.  Dropping twice with the same [newOrder] arranges the tasks as
    dropping once does. *)
Theorem reorder_idempotent (a : App) (ts : list Task) (newOrder : list jsstring) :
  view a = map task_obj ts ->
  view (fst (handleDrop newOrder (fst (handleDrop newOrder a))))
  = view (fst (handleDrop newOrder a)).
Proof.
  intros Hv. pose proof (handleDrop_view a ts newOrder Hv) as Hv1.
  rewrite (handleDrop_view _ _ newOrder Hv1), Hv1. f_equal.
  apply sort_by_fixed, sort_by_sorted.
Qed.

End Reordering.

(** ** Export and import *)

Section Exporting.
Local Open Scope nat_scope.

(** *** Export and import *)

Lemma pretty_task (t : Task) (rest : jsstring) :
  stringify_pretty (str "  ") (task_obj t) ++ rest
  = ch "{" :: newline :: str "    " ++ pretty_members t rest.
Proof.
  unfold task_obj, pretty_members. cbn [stringify_pretty map join_with fst snd].
  change (str "{") with [ch "{"]. change (str "}") with [ch "}"].
  change (str ",") with [ch ","]. change (str ": ") with [ch ":"; ch " "].
  change (str "  " ++ str "  ") with (str "    ").
  change (stringify (VStr ?s)) with (quote s).
  repeat first [rewrite <- app_assoc | progress cbn [app]]. reflexivity.
Qed.

Lemma pretty_members_more (f : nat) (k text more : jsstring) (v : value) :
  skip_ws (text ++ ch "," :: more) = text ++ ch "," :: more ->
  parse_value f (text ++ ch "," :: more) = POk v (ch "," :: more) ->
  parse_members (S f) (quote k ++ ch ":" :: ch " " :: text ++ ch "," :: more) =
    match parse_members f (skip_ws more) with
    | POk ms rest => POk ((k, v) :: ms) rest
    | PErr => PErr
    | PFuel => PFuel
    end.
Proof.
  intros Hws Hv. unfold quote. cbn [app parse_members].
  change (cu_eqb dquote dquote) with true. cbv iota.
  rewrite <- app_assoc. cbn [app]. rewrite parse_string_quote_body.
  cbn [skip_ws]. change (is_json_ws (ch ":")) with false. cbv iota.
  change (cu_eqb (ch ":") (ch ":")) with true. cbv iota.
  change (skip_ws (ch " " :: ?x)) with (skip_ws x).
  rewrite Hws, Hv. cbn [skip_ws]. change (is_json_ws (ch ",")) with false. cbv iota.
  change (cu_eqb (ch ",") (ch ",")) with true. cbv iota. reflexivity.
Qed.

Lemma pretty_members_last (f : nat) (k text rest : jsstring) (v : value) :
  skip_ws (text ++ newline :: str "  " ++ ch "}" :: rest)
    = text ++ newline :: str "  " ++ ch "}" :: rest ->
  parse_value f (text ++ newline :: str "  " ++ ch "}" :: rest)
    = POk v (newline :: str "  " ++ ch "}" :: rest) ->
  parse_members (S f) (quote k ++ ch ":" :: ch " " :: text ++ newline :: str "  " ++ ch "}" :: rest)
    = POk [(k, v)] rest.
Proof.
  intros Hws Hv. unfold quote. cbn [app parse_members].
  change (cu_eqb dquote dquote) with true. cbv iota.
  rewrite <- app_assoc. cbn [app]. rewrite parse_string_quote_body.
  cbn [skip_ws]. change (is_json_ws (ch ":")) with false. cbv iota.
  change (cu_eqb (ch ":") (ch ":")) with true. cbv iota.
  change (skip_ws (ch " " :: ?x)) with (skip_ws x).
  rewrite Hws, Hv. reflexivity.
Qed.

Lemma pretty_members_task (f : nat) (t : Task) (rest : jsstring) :
  parse_members (5 + f) (pretty_members t rest) =
    POk [ (str "id", VStr (task_id t)); (str "text", VStr (task_text t));
          (str "completed", VBool (task_completed t));
          (str "createdAt", VStr (task_createdAt t)) ] rest.
Proof.
  unfold pretty_members. change (5 + f) with (S (S (S (S (S f))))).
  rewrite (pretty_members_more _ _ _ _ (VStr (task_id t)));
    [ | apply skip_ws_quote | apply parse_value_string ].
  change (skip_ws (newline :: str "    " ++ quote ?k ++ ?x)) with (quote k ++ x).
  rewrite (pretty_members_more _ _ _ _ (VStr (task_text t)));
    [ | apply skip_ws_quote | apply parse_value_string ].
  change (skip_ws (newline :: str "    " ++ quote ?k ++ ?x)) with (quote k ++ x).
  rewrite (pretty_members_more _ _ _ _ (VBool (task_completed t)));
    [ | apply skip_ws_bool | apply parse_value_bool ].
  change (skip_ws (newline :: str "    " ++ quote ?k ++ ?x)) with (quote k ++ x).
  rewrite (pretty_members_last _ _ _ _ (VStr (task_createdAt t)));
    [ | apply skip_ws_quote | apply parse_value_string ].
  reflexivity.
Qed.

Lemma parse_value_pretty_task (F : nat) (t : Task) (rest : jsstring) :
  6 <= F ->
  parse_value F (stringify_pretty (str "  ") (task_obj t) ++ rest) = POk (task_obj t) rest.
Proof.
  intros H. replace F with (S (5 + (F - 6))) by lia.
  rewrite pretty_task.
  change (parse_value (S ?f) (ch "{" :: newline :: str "    " ++ pretty_members t rest))
    with (match parse_members f (pretty_members t rest) with
          | POk ms rest => POk (build_object ms) rest
          | PErr => PErr
          | PFuel => PFuel
          end).
  by rewrite pretty_members_task.
Qed.

Lemma pretty_elements_brace (t : Task) (ts : list Task) (x : jsstring) :
  exists y, pretty_elements (t :: ts) ++ x = ch "{" :: y.
Proof.
  unfold pretty_elements. destruct ts; cbn [map join_with];
    rewrite <- ?app_assoc, pretty_task; eauto.
Qed.

Lemma join_with_more (sep x y : jsstring) (l : list jsstring) :
  join_with sep (x :: y :: l) = x ++ sep ++ join_with sep (y :: l).
Proof. reflexivity. Qed.

Lemma parse_elements_more (F : nat) (s x : jsstring) (v : value) :
  parse_value F s = POk v (ch "," :: newline :: str "  " ++ x) ->
  skip_ws x = x ->
  parse_elements (S F) s
  = match parse_elements F x with
    | POk vs rest => POk (v :: vs) rest
    | PErr => PErr
    | PFuel => PFuel
    end.
Proof.
  intros Hv Hx. cbn [parse_elements]. rewrite Hv.
  change (skip_ws (ch "," :: ?y)) with (ch "," :: y). cbv iota.
  change (cu_eqb (ch ",") (ch ",")) with true. cbv iota.
  change (skip_ws (newline :: str "  " ++ x)) with (skip_ws x). by rewrite Hx.
Qed.

Lemma parse_elements_last (F : nat) (s rest : jsstring) (v : value) :
  parse_value F s = POk v (newline :: ch "]" :: rest) ->
  parse_elements (S F) s = POk [v] rest.
Proof. intros Hv. cbn [parse_elements]. by rewrite Hv. Qed.

Lemma parse_pretty_elements (ts : list Task) :
  forall (t : Task) (F : nat) (rest : jsstring),
  length ts + 7 <= F ->
  parse_elements F (pretty_elements (t :: ts) ++ newline :: ch "]" :: rest)
  = POk (map task_obj (t :: ts)) rest.
Proof.
  induction ts as [|t' ts IH]; intros t F rest HF.
  - destruct F as [|F]; [simpl in HF; lia|].
    apply parse_elements_last. unfold pretty_elements. cbn [map join_with].
    apply parse_value_pretty_task. simpl in HF. lia.
  - destruct F as [|F]; [simpl in HF; lia|].
    rewrite (parse_elements_more F _
               (pretty_elements (t' :: ts) ++ newline :: ch "]" :: rest) (task_obj t)).
    + rewrite IH by (simpl in HF; lia). reflexivity.
    + unfold pretty_elements. cbn [map]. rewrite join_with_more, <- !app_assoc.
      rewrite parse_value_pretty_task by (simpl in HF; lia). reflexivity.
    + destruct (pretty_elements_brace t' ts (newline :: ch "]" :: rest)) as [y ->].
      reflexivity.
Qed.

Lemma pretty_array (t : Task) (ts : list Task) :
  stringify_pretty [] (VArr (map task_obj (t :: ts)))
  = ch "[" :: newline :: str "  " ++ pretty_elements (t :: ts) ++ [newline; ch "]"].
Proof. reflexivity. Qed.

Lemma length_pretty_elements (ts : list Task) : length ts <= length (pretty_elements ts).
Proof.
  induction ts as [|t ts IH]; [done|]. unfold pretty_elements in *.
  assert (Ht : 1 <= length (stringify_pretty (str "  ") (task_obj t))).
  { rewrite <- (app_nil_r (stringify_pretty _ _)), pretty_task. cbn [length]. lia. }
  destruct ts as [|t' ts]; cbn [map join_with length] in *; [lia|].
  rewrite !length_app. cbn [length] in *. lia.
Qed.

(** [JSON.parse] reads back what [JSON.stringify(todos, null, 2)] writes
    for an array of tasks. *)
Lemma JSON_parse_pretty_tasks (ts : list Task) :
  JSON_parse (stringify_pretty [] (VArr (map task_obj ts))) = Some (VArr (map task_obj ts)).
Proof.
  destruct ts as [|t ts]; [reflexivity|].
  unfold JSON_parse. rewrite pretty_array.
  pose proof (length_pretty_elements (t :: ts)) as Hlen.
  destruct (pretty_elements_brace t ts [newline; ch "]"]) as [y Hy].
  set (body := pretty_elements (t :: ts)) in *.
  match goal with |- context [parse_value ?n _] => set (F := n) end.
  assert (HF : length ts + 8 <= F).
  { subst F. cbn [length]. rewrite !length_app. cbn [length] in *. lia. }
  destruct F as [|F]; [lia|].
  change (skip_ws (ch "[" :: newline :: str "  " ++ body ++ [newline; ch "]"]))
    with (ch "[" :: newline :: str "  " ++ body ++ [newline; ch "]"]).
  assert (Hv : parse_value (S F) (ch "[" :: newline :: str "  " ++ body ++ [newline; ch "]"])
               = match parse_elements F (body ++ [newline; ch "]"]) with
                 | POk vs rest => POk (VArr vs) rest
                 | PErr => PErr
                 | PFuel => PFuel
                 end).
  { rewrite Hy. reflexivity. }
  rewrite Hv. subst body. rewrite parse_pretty_elements by lia. reflexivity.
Qed.

Lemma before_T_app (date time : jsstring) :
  ch "T" ∉ date -> before_T (date ++ ch "T" :: time) = date.
Proof.
  induction date as [|c date IH]; intros Hn; [reflexivity|].
  cbn [app before_T]. rewrite cu_eqb_code.
  destruct (N.eqb_spec (cu_code c) (cu_code (ch "T"))) as [E|E].
  - apply cu_code_inj in E. subst c. destruct Hn. left.
  - rewrite IH; [done|]. intros H. apply Hn. by right.
Qed.

(** X20.  On a store of tasks, the text that [exportTodos] offers reads
    back, through [importTodos] in any state of the application, as the
    sequence that was exported; exporting leaves the sequence and the
    storage area alone; and for a timestamp [date T time] the file is named
    [todos-date.json]. *)
Theorem export_then_import (a b : App) (ts : list Task) (iso : jsstring) :
  view a = map task_obj ts ->
  exists name text,
    snd (exportTodos iso a) = Normal (name, text)
    /\ view (fst (exportTodos iso a)) = view a
    /\ storage (fst (exportTodos iso a)) = storage a
    /\ view (fst (importTodos text b)) = view a
    /\ (forall date time, iso = date ++ ch "T" :: time -> ch "T" ∉ date ->
        name = str "todos-" ++ date ++ str ".json").
Proof.
  intros Hv. eexists _, _. split; [reflexivity|]. split; [done|]. split; [done|]. split.
  - rewrite Hv. pose proof (JSON_parse_pretty_tasks ts) as Hp.
    destruct (importTodos_heap_todos _ _ b Hp) as [Hh Ht].
    unfold view. rewrite Hh, Ht. apply view_assign.
  - intros date time -> Hn. by rewrite before_T_app.
Qed.

End Exporting.

(** ** Keyboard shortcuts and the theme *)

Section Shortcuts.
Local Open Scope nat_scope.

(** *** Keyboard shortcuts *)

Lemma cancelEdit_same (a : App) :
  view (fst (cancelEdit a)) = view a /\ storage (fst (cancelEdit a)) = storage a.
Proof.
  unfold cancelEdit, bind, modify.
  by destruct (render_cases (set_editingId None a)) as [->|[e ->]].
Qed.

(** X21.  Keyboard shortcuts.  A key other than [Escape], [a] and
    [Delete] changes nothing.  While the focus is in the input, no key
    changes the tasks or the storage area.  [Delete] does nothing while a
    task is being edited. *)
Theorem shortcuts_guarded (e : KeyEvent) (answer : bool) (a : App) :
  (key e <> str "Escape" -> key e <> str "a" -> key e <> str "Delete" ->
   handleKeyboardShortcuts e answer a = (a, Normal tt))
  /\ (inInput e = true ->
      view (fst (handleKeyboardShortcuts e answer a)) = view a
      /\ storage (fst (handleKeyboardShortcuts e answer a)) = storage a)
  /\ (key e = str "Delete" -> truthy (option_map VStr (editingId a)) = true ->
      handleKeyboardShortcuts e answer a = (a, Normal tt)).
Proof.
  repeat match goal with |- _ /\ _ => split end.
  - intros H1 H2 H3. unfold handleKeyboardShortcuts, str_eqb.
    rewrite !bool_decide_eq_false_2 by done. rewrite andb_false_r. done.
  - intros Hin.
    assert (Hrun : handleKeyboardShortcuts e answer a
                   = ((if str_eqb (key e) (str "Escape") then
                         do ed <- gets editingId;
                         if truthy (option_map VStr ed) then cancelEdit else ret tt
                       else ret tt) ;; ret tt) a).
    { unfold handleKeyboardShortcuts. rewrite Hin. cbn [negb]. rewrite !andb_false_r.
      unfold bind, gets, ret. by repeat case_match. }
    rewrite Hrun. unfold bind, gets, ret.
    destruct (str_eqb _ _); [|done].
    destruct (truthy _); [|done].
    pose proof (cancelEdit_same a) as Hc.
    by destruct (cancelEdit a) as [a1 [[]|x]].
  - intros Hk Hed. unfold handleKeyboardShortcuts, str_eqb. rewrite Hk.
    rewrite (bool_decide_eq_false_2 (str "Delete" = str "Escape")) by done.
    rewrite (bool_decide_eq_false_2 (str "Delete" = str "a")) by done.
    rewrite andb_false_r. cbn [andb]. unfold bind, gets, ret. rewrite Hed.
    by rewrite andb_false_r.
Qed.

(** *** The theme *)

(** X22.  When the storage area accepts the write, [toggleTheme] sets the
    theme to [light] if the attribute was [dark] and to [dark] otherwise,
    stores it, and shows the sun for [dark] and the moon for [light];
    toggling twice more comes back to the same state; and after loading
    the page again [initializeTheme] sets the theme that was stored. *)
Theorem theme_toggle (s : Theme) :
  theme_refused s = false ->
  let s1 := fst (toggleTheme s) in
  snd (toggleTheme s) = Normal tt
  /\ data_theme s1 = Some (if bool_decide (data_theme s = Some (str "dark"))
                           then str "light" else str "dark")
  /\ todoTheme s1 = data_theme s1
  /\ icon_class s1 = (if bool_decide (data_theme s1 = Some (str "dark"))
                      then str "fas fa-sun" else str "fas fa-moon")
  /\ fst (toggleTheme (fst (toggleTheme s1))) = s1
  /\ (forall attr icon, fst (initializeTheme (reloaded attr icon s1)) = s1).
Proof.
  intros Hr. cbn zeta.
  assert (Hnt : is_str (str "dark") (option_map VStr (data_theme s))
                = bool_decide (data_theme s = Some (str "dark"))).
  { destruct (data_theme s) as [c|]; cbn [option_map is_str]; [|done].
    unfold str_eqb. apply bool_decide_ext. split; congruence. }
  assert (Hrun : toggleTheme s
                 = (if bool_decide (data_theme s = Some (str "dark"))
                    then MkTheme (Some (str "light")) (Some (str "light")) false
                           (str "fas fa-moon")
                    else MkTheme (Some (str "dark")) (Some (str "dark")) false
                           (str "fas fa-sun"), Normal tt)).
  { unfold toggleTheme, setTheme. rewrite Hr, Hnt. by destruct (bool_decide _). }
  rewrite Hrun. cbn [fst snd].
  destruct (bool_decide (data_theme s = Some (str "dark")));
    repeat match goal with |- _ /\ _ => split end; try reflexivity.
Qed.

End Shortcuts.

(** ** Sample runs *)

Section Samples.
Local Open Scope nat_scope.

(** [NoDup] of a list that is written out. *)
Ltac concrete_NoDup :=
  repeat (apply NoDup_cons; split;
          [ let H := fresh in
            intros H;
            repeat (apply elem_of_cons in H as [H|H]; [discriminate|]);
            by apply elem_of_nil in H
          | ]);
  apply NoDup_nil_2.

(** The example of the specification: [a, b, c] reordered by [c, a, b]. *)
Example reorder_cab :
  view (fst (handleDrop [str "c"; str "a"; str "b"] app_abc))
  = map task_obj [task_c; task_a; task_b].
Proof. vm_compute. reflexivity. Qed.

(** C1, counterexample.  The store is [a, b, c] and the filter shows the
    active tasks [a] and [c]; [c] is dropped above [a], so [newOrder] is
    [c, a].  The store becomes [b, c, a]: [b], which is not named, is placed
    before the named tasks, against the contract as worded. *)
Lemma reorder_absent_first :
  view app_abc_active = map task_obj [task_a; task_b; task_c]
  /\ view (fst (handleDrop [str "c"; str "a"] app_abc_active))
     = map task_obj [task_b; task_c; task_a]
  /\ ~ reorder_contract [str "c"; str "a"] [task_a; task_b; task_c] [task_b; task_c; task_a].
Proof.
  split; [vm_compute; reflexivity|]. split; [vm_compute; reflexivity|].
  intros (_ & H & _).
  specialize (H 1 0 task_c task_b eq_refl eq_refl).
  assert (Hlt : 1 < 0); [|lia].
  apply H.
  - apply elem_of_cons. by left.
  - intros Hin. apply elem_of_cons in Hin as [Hin|Hin]; [discriminate|].
    apply elem_of_cons in Hin as [Hin|Hin]; [discriminate|]. by apply elem_of_nil in Hin.
Qed.

Lemma add_blank_noop_witness :
  trim (str "   ") = [] /\
  handleSubmit (str "   ") 1714557600000 (str "2024-05-01T10:00:00.000Z") app_abc
    = (app_abc, Normal tt).
Proof.
  split; [reflexivity|].
  apply (add_blank_noop (str "   ") 1714557600000 (str "2024-05-01T10:00:00.000Z") app_abc).
  reflexivity.
Defined.

Lemma reorder_by_index_witness :
  view app_abc_active = map task_obj [task_a; task_b; task_c]
  /\ exists named : list Task,
       view (fst (handleDrop [str "c"; str "a"] app_abc_active))
       = map task_obj (filter (fun t => task_id t ∉ [str "c"; str "a"]) [task_a; task_b; task_c]
                       ++ named).
Proof.
  split; [vm_compute; reflexivity|].
  destruct (reorder_by_index app_abc_active [task_a; task_b; task_c] [str "c"; str "a"])
    as (named & H & _); [vm_compute; reflexivity|].
  by exists named.
Defined.

(** C2, counterexample.  Two tasks added while the clock shows the same
    millisecond get the same id; and an imported array brings its ids as
    they are. *)
Lemma add_same_millisecond :
  let iso := str "2024-05-01T10:00:00.000Z" in
  let a1 := fst (handleSubmit (str "milk") 1714557600000 iso app_empty) in
  let a2 := fst (handleSubmit (str "eggs") 1714557600000 iso a1) in
  wf a1 /\ unique_ids a1 /\ ~ unique_ids a2
  /\ ~ unique_ids (fst (importTodos (stringify (VArr odd_items)) app_abc)).
Proof.
  cbn zeta. split; [|split; [|split]].
  - split; vm_compute; [concrete_NoDup | repeat constructor; lia].
  - unfold unique_ids. set (l := ids _). vm_compute in l. subst l. concrete_NoDup.
  - unfold unique_ids.
    set (l := ids _). vm_compute in l. subst l.
    intros H. apply NoDup_cons in H as [H _]. apply H. by left.
  - unfold unique_ids.
    set (l := ids _). vm_compute in l. subst l.
    intros H. do 4 apply NoDup_cons in H as [_ H].
    apply NoDup_cons in H as [H _]. apply H. by left.
Qed.

Lemma ids_preserved_witness :
  wf app_abc /\ unique_ids app_abc /\ unique_ids (fst (toggleTodo (str "b") app_abc)).
Proof.
  assert (Hwf : wf app_abc).
  { split; vm_compute; [concrete_NoDup | repeat constructor; lia]. }
  assert (Hu : unique_ids app_abc).
  { unfold unique_ids. set (l := ids _). vm_compute in l. subst l. concrete_NoDup. }
  split; [exact Hwf|]. split; [exact Hu|].
  exact (proj1 (proj2 (ids_preserved app_abc Hwf Hu)) (str "b")).
Defined.

Lemma add_front_witness :
  let a' := fst (handleSubmit (str " milk ") 1714557600000 (str "2024-05-01T10:00:00.000Z") app_abc) in
  length (view a') = 4
  /\ view a' !! 0 = Some (new_todo (str "milk") 1714557600000 (str "2024-05-01T10:00:00.000Z")).
Proof.
  assert (Hwf : wf app_abc).
  { split; vm_compute; [concrete_NoDup | repeat constructor; lia]. }
  assert (Ht : trim (str " milk ") <> []) by (vm_compute; discriminate).
  destruct (add_front (str " milk ") 1714557600000 (str "2024-05-01T10:00:00.000Z") app_abc Hwf Ht)
    as (H1 & H2 & _).
  split; [exact H1 | exact H2].
Defined.

Lemma toggle_twice_witness :
  view (fst (toggleTodo (str "b") (fst (toggleTodo (str "b") app_abc)))) = view app_abc.
Proof.
  assert (Hwf : wf app_abc).
  { split; vm_compute; [concrete_NoDup | repeat constructor; lia]. }
  assert (Hv : view app_abc = map task_obj [task_a; task_b; task_c]) by (vm_compute; reflexivity).
  apply (toggle_twice app_abc [task_a; task_b; task_c] (str "b") Hwf Hv).
Defined.

Lemma toggle_frame_witness :
  exists i t,
    first_with (str "b") [task_a; task_b; task_c] i t
    /\ view (fst (toggleTodo (str "b") app_abc))
       = map task_obj (<[i := toggled t]> [task_a; task_b; task_c]).
Proof.
  assert (Hwf : wf app_abc).
  { split; vm_compute; [concrete_NoDup | repeat constructor; lia]. }
  assert (Hv : view app_abc = map task_obj [task_a; task_b; task_c]) by (vm_compute; reflexivity).
  assert (Hin : str "b" ∈ map task_id [task_a; task_b; task_c]).
  { apply elem_of_cons. right. apply elem_of_cons. by left. }
  destruct (toggle_frame app_abc [task_a; task_b; task_c] (str "b") Hwf Hv Hin)
    as (i & t & H1 & H2 & _).
  by exists i, t.
Defined.

Lemma edit_same_text_witness :
  let a := fst (startEdit (str "a") app_abc) in
  let a' := fst (finishEdit 0 (str "  write ") a) in
  startEdit (str "a") app_abc = (a, Normal 0)
  /\ editingId a = Some (str "a")
  /\ view a' = view a /\ storage a' = storage a /\ editingId a' = None.
Proof.
  cbn zeta.
  split; [vm_compute; reflexivity|]. split; [vm_compute; reflexivity|].
  assert (Ht : trim (str "  write ") = []
               \/ get_prop (str "text") (deref (heap (fst (startEdit (str "a") app_abc))) 0)
                  = Normal (Some (VStr (trim (str "  write ")))))
    by (right; vm_compute; reflexivity).
  destruct (edit_same_text (fst (startEdit (str "a") app_abc)) 0 (str "  write ") Ht)
    as (_ & _ & H2 & H3 & H4 & _).
  repeat split; assumption.
Defined.

Lemma save_load_roundtrip_witness :
  loadTodos (storage (fst (saveTodos app_abc)))
  = (VArr (map task_obj [task_a; task_b; task_c]), []).
Proof.
  apply (save_load_roundtrip app_abc [task_a; task_b; task_c]
           (MkStorage (Some (stringify (VArr (view app_abc)))) None)).
  - vm_compute. reflexivity.
  - vm_compute. reflexivity.
Defined.

Lemma import_replaces_witness :
  JSON_parse (stringify (VArr odd_items)) = Some (VArr odd_items)
  /\ view (fst (importTodos (stringify (VArr odd_items)) app_abc)) = odd_items.
Proof.
  split; [vm_compute; reflexivity|].
  apply (import_replaces app_abc (stringify (VArr odd_items)) odd_items).
  vm_compute. reflexivity.
Defined.

Lemma delete_removes_witness :
  view (fst (deleteTodo (str "b") app_abc)) = map task_obj [task_a; task_c]
  /\ snd (deleteTodo (str "b") app_abc) = Normal tt.
Proof.
  assert (Hv : view app_abc = map task_obj [task_a; task_b; task_c]) by (vm_compute; reflexivity).
  destruct (delete_removes app_abc [task_a; task_b; task_c] (str "b") Hv) as (H1 & H2 & _).
  split; [|exact H2].
  transitivity (map task_obj (filter (fun t => task_id t <> str "b") [task_a; task_b; task_c]));
    [exact H1|vm_compute; reflexivity].
Defined.

Lemma clear_nothing_witness :
  view app_ac = map task_obj [task_a; task_c]
  /\ clearCompleted true app_ac = (app_ac, Normal tt).
Proof.
  assert (Hv : view app_ac = map task_obj [task_a; task_c]) by (vm_compute; reflexivity).
  split; [exact Hv|].
  apply (clear_nothing app_ac [task_a; task_c] true Hv).
  repeat constructor.
Defined.

Lemma clear_confirmed_witness :
  view (fst (clearCompleted true app_abc))
  = map task_obj (filter (fun t => task_completed t = false) [task_a; task_b; task_c]).
Proof.
  assert (Hv : view app_abc = map task_obj [task_a; task_b; task_c]) by (vm_compute; reflexivity).
  assert (Hex : Exists (fun t => task_completed t = true) [task_a; task_b; task_c]).
  { right. left. reflexivity. }
  exact (proj1 (clear_confirmed app_abc [task_a; task_b; task_c] true Hv Hex)).
Defined.

Lemma mark_all_witness :
  view (fst (markAllComplete app_abc))
  = map task_obj (map completed_task [task_a; task_b; task_c])
  /\ snd (markAllComplete app_abc) = Normal tt.
Proof.
  assert (Hv : view app_abc = map task_obj [task_a; task_b; task_c]) by (vm_compute; reflexivity).
  destruct (mark_all app_abc [task_a; task_b; task_c] Hv) as (H1 & H2 & _).
  split; [exact H1 | exact H2].
Defined.

Lemma mark_all_then_clear_witness :
  view (fst (clearCompleted true (fst (markAllComplete app_abc)))) = [].
Proof.
  apply (mark_all_then_clear app_abc [task_a; task_b; task_c]). vm_compute. reflexivity.
Defined.

Lemma filtered_view_witness :
  currentFilter app_abc_active = str "active"
  /\ exists shown,
       getFilteredTodos app_abc_active = (app_abc_active, Normal shown)
       /\ map (fun x => cell_val (deref (heap app_abc_active) x)) shown
          = map task_obj [task_a; task_c].
Proof.
  split; [vm_compute; reflexivity|].
  assert (Hv : view app_abc_active = map task_obj [task_a; task_b; task_c])
    by (vm_compute; reflexivity).
  destruct (filtered_view app_abc_active [task_a; task_b; task_c] Hv) as (shown & H1 & H2).
  exists shown. split; [exact H1|].
  transitivity (map task_obj
                  (if str_eqb (currentFilter app_abc_active) (str "active")
                   then filter (fun t => task_completed t = false) [task_a; task_b; task_c]
                   else if str_eqb (currentFilter app_abc_active) (str "completed")
                   then filter (fun t => task_completed t = true) [task_a; task_b; task_c]
                   else [task_a; task_b; task_c])); [exact H2|vm_compute; reflexivity].
Defined.

Lemma disabled_buttons_do_nothing_witness :
  updateActionButtons app_ac = Normal (true, false)
  /\ clearCompleted true app_ac = (app_ac, Normal tt).
Proof.
  assert (Hb : updateActionButtons app_ac = Normal (true, false)) by (vm_compute; reflexivity).
  split; [exact Hb|].
  exact (proj1 (disabled_buttons_do_nothing app_ac true false Hb) eq_refl true).
Defined.

Lemma stats_phrase_witness :
  updateStats app_abc = Normal (str "2 tasks remaining").
Proof.
  assert (Hv : view app_abc = map task_obj [task_a; task_b; task_c]) by (vm_compute; reflexivity).
  destruct (stats_phrase app_abc [task_a; task_b; task_c] Hv) as (_ & _ & _ & H).
  transitivity (Normal (N_to_str (N.of_nat
                  (length (filter (fun t => task_completed t = false) [task_a; task_b; task_c])))
                ++ str " tasks remaining")); [|vm_compute; reflexivity].
  apply H. vm_compute. lia.
Defined.

Lemma buttons_enabled_witness :
  exists clearOff markOff,
    updateActionButtons app_abc = Normal (clearOff, markOff)
    /\ (clearOff = true <-> Forall (fun t => task_completed t = false) [task_a; task_b; task_c])
    /\ (markOff = true <-> Forall (fun t => task_completed t = true) [task_a; task_b; task_c]).
Proof.
  apply (buttons_enabled app_abc [task_a; task_b; task_c]). vm_compute. reflexivity.
Defined.

Lemma import_rejected_witness :
  let raw := stringify (VObj [(str "a", VNum (str "1"))]) in
  JSON_parse raw = Some (VObj [(str "a", VNum (str "1"))])
  /\ importTodos raw app_abc
     = (emit (EvNotify (str "Error importing todos!") error) app_abc, Normal tt).
Proof.
  cbn zeta. split; [vm_compute; reflexivity|].
  apply (proj2 (import_rejected (stringify (VObj [(str "a", VNum (str "1"))])) app_abc)).
  intros items. vm_compute. discriminate.
Defined.

Lemma import_null_kept_witness :
  let a' := fst (importTodos (str "[null]") app_abc) in
  view a' = [VNull]
  /\ getItem (storage a') = Some (stringify (VArr [VNull]))
  /\ log a' = log app_abc ++ [EvSetItem (stringify (VArr [VNull]));
                               EvNotify (str "Error importing todos!") error].
Proof.
  assert (Hp : JSON_parse (str "[null]") = Some (VArr [VNull])) by (vm_compute; reflexivity).
  assert (Hn : VNull ∈ [VNull]) by (apply elem_of_cons; by left).
  assert (Hc : capacity (storage app_abc) = None) by (vm_compute; reflexivity).
  destruct (import_null_kept (str "[null]") [VNull] app_abc Hp Hn Hc) as (H1 & H2 & H3 & _).
  cbn zeta. split; [exact H1|]. split; [exact H2 | exact H3].
Defined.



Lemma edit_commit_witness :
  let a' := fst (finishEdit 0 (str " walk ") app_abc) in
  view a' = map task_obj [with_text (str "walk") task_a; task_b; task_c]
  /\ editingId a' = None.
Proof.
  assert (Hwf : wf app_abc).
  { split; vm_compute; [concrete_NoDup | repeat constructor; lia]. }
  assert (Hv : view app_abc = map task_obj [task_a; task_b; task_c]) by (vm_compute; reflexivity).
  assert (Hx : todos app_abc !! 0 = Some 0) by (vm_compute; reflexivity).
  assert (Ht : [task_a; task_b; task_c] !! 0 = Some task_a) by reflexivity.
  assert (Hne : trim (str " walk ") <> []) by (vm_compute; discriminate).
  assert (Hd : trim (str " walk ") <> task_text task_a) by (vm_compute; discriminate).
  destruct (edit_commit app_abc [task_a; task_b; task_c] 0 0 task_a (str " walk ")
              Hwf Hv Hx Ht Hne Hd) as (H1 & _ & H3 & _).
  cbn zeta. split; [|exact H3].
  transitivity (map task_obj (<[0 := with_text (trim (str " walk ")) task_a]>
                                [task_a; task_b; task_c]));
    [exact H1|vm_compute; reflexivity].
Defined.

Lemma toggle_reports_witness :
  exists a1,
    toggleTodo (str "b") app_abc
    = (emit (EvNotify (str "Task marked as active!") info) (emit EvRender (saved a1)),
       Normal tt).
Proof.
  assert (Hwf : wf app_abc).
  { split; vm_compute; [concrete_NoDup | repeat constructor; lia]. }
  assert (Hv : view app_abc = map task_obj [task_a; task_b; task_c]) by (vm_compute; reflexivity).
  assert (Hf : first_with (str "b") [task_a; task_b; task_c] 1 task_b).
  { split; [reflexivity|]. split; [reflexivity|].
    intros j u Hj Hu. destruct j as [|j]; [|lia]. injection Hu as <-. discriminate. }
  destruct (toggle_reports app_abc [task_a; task_b; task_c] (str "b") 1 task_b Hwf Hv Hf)
    as (a1 & _ & _ & _ & H).
  exists a1. exact H.
Defined.

Lemma slot_follows_array_witness :
  synced app_abc /\ synced (fst (toggleTodo (str "b") app_abc)).
Proof.
  assert (Hs : synced app_abc) by (split; vm_compute; reflexivity).
  split; [exact Hs|].
  exact (proj1 (proj2 (slot_follows_array app_abc Hs)) (str "b")).
Defined.

Lemma restart_restores_witness :
  let a := fst (toggleTodo (str "a") app_abc) in
  exists a' th', startup (storage a) theme_served = Some (a', th') /\ view a' = view a.
Proof.
  cbn zeta.
  assert (Hv : view (fst (toggleTodo (str "a") app_abc))
               = map task_obj [toggled task_a; task_b; task_c]) by (vm_compute; reflexivity).
  assert (Hs : in_sync (fst (toggleTodo (str "a") app_abc))) by (vm_compute; reflexivity).
  destruct (restart_restores _ _ theme_served Hv Hs eq_refl) as (a' & th' & H1 & H2 & _).
  exists a', th'. split; [exact H1 | exact H2].
Defined.

Lemma reorder_full_listing_witness :
  view (fst (handleDrop [str "c"; str "a"; str "b"] app_abc))
  = map task_obj [task_c; task_a; task_b].
Proof.
  assert (Hv : view app_abc = map task_obj [task_a; task_b; task_c]) by (vm_compute; reflexivity).
  assert (Hnd : NoDup (map task_id [task_a; task_b; task_c])).
  { cbn [map]. concrete_NoDup. }
  assert (Hp : [task_c; task_a; task_b] ≡ₚ [task_a; task_b; task_c]).
  { apply (Permutation_cons_append [task_a; task_b] task_c). }
  exact (reorder_full_listing app_abc [task_a; task_b; task_c] [task_c; task_a; task_b] Hv Hnd Hp).
Defined.

Lemma reorder_idempotent_witness :
  let once := fst (handleDrop [str "c"; str "a"] app_abc_active) in
  view (fst (handleDrop [str "c"; str "a"] once)) = view once.
Proof.
  apply (reorder_idempotent app_abc_active [task_a; task_b; task_c]). vm_compute. reflexivity.
Defined.

Lemma export_then_import_witness :
  exists name text,
    snd (exportTodos (str "2024-05-01T10:00:00.000Z") app_abc) = Normal (name, text)
    /\ view (fst (importTodos text app_empty)) = view app_abc
    /\ name = str "todos-2024-05-01.json".
Proof.
  assert (Hv : view app_abc = map task_obj [task_a; task_b; task_c]) by (vm_compute; reflexivity).
  destruct (export_then_import app_abc app_empty [task_a; task_b; task_c]
              (str "2024-05-01T10:00:00.000Z") Hv) as (name & text & H1 & _ & _ & H4 & H5).
  exists name, text. split; [exact H1|]. split; [exact H4|].
  apply (H5 (str "2024-05-01") (str "10:00:00.000Z")); [reflexivity|].
  intros Hin. repeat (apply elem_of_cons in Hin as [Hin|Hin]; [discriminate|]).
  by apply elem_of_nil in Hin.
Defined.

Lemma shortcuts_guarded_witness :
  let e := MkKeyEvent false false (str "Delete") false in
  let a := fst (startEdit (str "a") app_abc) in
  handleKeyboardShortcuts e true a = (a, Normal tt).
Proof.
  cbn zeta.
  apply (proj2 (proj2 (shortcuts_guarded (MkKeyEvent false false (str "Delete") false) true
                         (fst (startEdit (str "a") app_abc))))).
  - reflexivity.
  - vm_compute. reflexivity.
Defined.

Lemma theme_toggle_witness :
  let s1 := fst (toggleTheme theme_served) in
  data_theme s1 = Some (str "dark") /\ todoTheme s1 = Some (str "dark")
  /\ icon_class s1 = str "fas fa-sun".
Proof.
  destruct (theme_toggle theme_served eq_refl) as (_ & H2 & H3 & H4 & _).
  cbn zeta. split; [exact H2|]. split; [by rewrite H3, H2|].
  rewrite H4, H2. reflexivity.
Defined.

End Samples.
